(** * spec-weaver: the schema flattener, the reconstructor and the fidelity
    validator of [src/components/Converter.tsx], embedded in Rocq.

    The TypeScript code works on untyped JSON values.  The embedding fixes the
    JSON type every key has in an OpenAPI document ([$ref], [type] and
    [description] are strings, [properties] is an object, [required],
    [allOf], [oneOf] and [anyOf] are arrays, [items] is a schema,
    [additionalProperties] is a boolean or a schema) and keeps JavaScript's
    truthiness where the code relies on it: an absent key and an empty string
    are both falsy, an empty object or array is truthy.

    JavaScript objects used as ordered dictionaries ([properties]) are
    association lists in insertion order without duplicate keys; property
    names are assumed not to be canonical array indices (which JavaScript
    would enumerate first) nor names inherited from [Object.prototype].
    The component registry is only ever looked up and is a [gmap]. *)

From Stdlib Require Import Ascii String ZArith Lia DecimalString.
From stdpp Require Import gmap strings list fin_maps.

Set Warnings "-register-all,-clear-no-such-hyp".

Local Open Scope Z_scope.
Local Open Scope nat_scope.

(** ** String primitives of the JavaScript runtime *)

Module Str.

(** [s.split(c)] for a one-character separator: never the empty list. *)
Fixpoint split (c : ascii) (s : string) : list string :=
  match s with
  | EmptyString => [EmptyString]
  | String a s' =>
      if Ascii.eqb a c then EmptyString :: split c s'
      else match split c s' with
           | [] => [String a EmptyString]
           | h :: t => String a h :: t
           end
  end.

(** [s.startsWith(p)] *)
Definition startsWith (s p : string) : bool := String.prefix p s.

(** [s.endsWith(suf)] *)
Definition endsWith (s suf : string) : bool :=
  let n := String.length s in
  let k := String.length suf in
  if Nat.leb k n then String.eqb (String.substring (n - k) k s) suf else false.

(** [s.slice(0, -2)] *)
Definition dropLast2 (s : string) : string :=
  String.substring 0 (String.length s - 2) s.

(** [xs[xs.length - 1]] on the result of a [split], which is not empty. *)
Definition lastSegment (xs : list string) : string := List.last xs EmptyString.

(** A string is truthy when it is not empty. *)
Definition nonEmpty (s : string) : bool := negb (String.eqb s "").

End Str.

(** Truthiness of an optional string-valued key. *)
Definition truthy (o : option string) : bool :=
  match o with
  | Some s => Str.nonEmpty s
  | None => false
  end.

(** [o || d] on an optional string-valued key. *)
Definition orElse (o : option string) (d : string) : string :=
  match o with
  | Some s => if Str.nonEmpty s then s else d
  | None => d
  end.

(** ** Data model *)

(** The value of [additionalProperties]: a boolean or a schema. *)
Inductive addl (A : Type) : Type :=
  | AddlBool (b : bool)
  | AddlSchema (s : A).
Arguments AddlBool {A} b.
Arguments AddlSchema {A} s.

(** A schema object, with the keys the converter reads.  [s_resolvedFrom] is
    the key [_resolvedFrom] that [resolveSchema] adds to its result (the
    companion key [_originalRef] is written there and never read). *)
Inductive schema : Type :=
  Schema {
    s_ref : option string;
    s_type : option string;
    s_description : option string;
    s_properties : option (list (string * schema));
    s_required : option (list string);
    s_items : option schema;
    s_additionalProperties : option (addl schema);
    s_allOf : option (list schema);
    s_oneOf : option (list schema);
    s_anyOf : option (list schema);
    s_enum : option (list string);
    s_example : option string;
    s_resolvedFrom : option string
  }.

(** The empty object [{}]. *)
Definition emptySchema : schema :=
  Schema None None None None None None None None None None None None None.

(** [rootSpec.components.schemas]; an absent [components] or [schemas] key is
    the empty registry, which resolves nothing either. *)
Abbreviation registry := (gmap string schema).

(** [FlatSchemaRow] *)
Record FlatSchemaRow : Type :=
  Row {
    path : string;
    type : string;
    required : bool;
    description : string;
    enum : option (list string);
    example : option string;
    ref : option string
  }.

Global Instance FlatSchemaRow_eq_dec : EqDecision FlatSchemaRow.
Proof. solve_decision. Defined.

(** ** Reference resolver *)

(** [{ ...target, _resolvedFrom: refName }] *)
Definition resolvedFrom (refName : string) (target : schema) : schema :=
  Schema (s_ref target) (s_type target) (s_description target)
    (s_properties target) (s_required target) (s_items target)
    (s_additionalProperties target) (s_allOf target) (s_oneOf target)
    (s_anyOf target) (s_enum target) (s_example target) (Some refName).

(** [resolveSchema]: the schema the last segment of [$ref] names in the
    registry, tagged with that name; a copy of the schema itself otherwise.
    The argument is an object, so the [null] result of the source cannot
    arise. *)
Definition resolveSchema (s : schema) (rootSpec : registry) : schema :=
  match s_ref s with
  | Some r =>
      if Str.nonEmpty r then
        let refName := Str.lastSegment (Str.split "/" r) in
        match rootSpec !! refName with
        | Some target => resolvedFrom refName target
        | None => s
        end
      else s
  | None => s
  end.

(** ** Flattener *)

(** [obj[k]] on an ordered dictionary. *)
Fixpoint objGet {A} (k : string) (o : list (string * A)) : option A :=
  match o with
  | [] => None
  | (k', v) :: o' => if String.eqb k' k then Some v else objGet k o'
  end.

(** [obj[k] = v]: an existing key keeps its position, a new key goes last. *)
Fixpoint objSet {A} (k : string) (v : A) (o : list (string * A)) : list (string * A) :=
  match o with
  | [] => [(k, v)]
  | (k', v') :: o' =>
      if String.eqb k' k then (k', v) :: o' else (k', v') :: objSet k v o'
  end.

(** [Object.assign(target, source)] *)
Definition objAssign {A} (target source : list (string * A)) : list (string * A) :=
  fold_left (fun acc kv => objSet (fst kv) (snd kv) acc) source target.

(** Truthiness of [additionalProperties]. *)
Definition addlTruthy (a : option (addl schema)) : bool :=
  match a with
  | Some (AddlBool b) => b
  | Some (AddlSchema _) => true
  | None => false
  end.

(** The accumulator [merged] of the [allOf] loop: [properties], [required]
    and the key [additionalProperties], present once a branch has set it. *)
Record merged : Type :=
  Merged {
    m_properties : list (string * schema);
    m_required : list string;
    m_additionalProperties : option (addl schema)
  }.

(** One iteration of [resolved.allOf.forEach]. *)
Definition mergeBranch (rootSpec : registry) (m : merged) (s : schema) : merged :=
  let resolvedS := resolveSchema s rootSpec in
  Merged
    (match s_properties resolvedS with
     | Some ps => objAssign (m_properties m) ps
     | None => m_properties m
     end)
    (match s_required resolvedS with
     | Some rs => m_required m ++ rs
     | None => m_required m
     end)
    (if addlTruthy (s_additionalProperties resolvedS)
     then s_additionalProperties resolvedS
     else m_additionalProperties m).

Definition mergeBranches (rootSpec : registry) (branches : list schema) : merged :=
  fold_left (mergeBranch rootSpec) branches (Merged [] [] None).

(** [resolved = { ...resolved, ...merged }] *)
Definition spreadMerged (resolved : schema) (m : merged) : schema :=
  Schema (s_ref resolved) (s_type resolved) (s_description resolved)
    (Some (m_properties m)) (Some (m_required m)) (s_items resolved)
    (match m_additionalProperties m with
     | Some a => Some a
     | None => s_additionalProperties resolved
     end)
    (s_allOf resolved) (s_oneOf resolved) (s_anyOf resolved)
    (s_enum resolved) (s_example resolved) (s_resolvedFrom resolved).

(** The [allOf] step as a whole. *)
Definition mergeAllOf (rootSpec : registry) (resolved : schema) : schema :=
  match s_allOf resolved with
  | Some branches => spreadMerged resolved (mergeBranches rootSpec branches)
  | None => resolved
  end.

(** [resolved.oneOf || resolved.anyOf], when it is an array. *)
Definition polymorphic (resolved : schema) : list schema :=
  match s_oneOf resolved with
  | Some bs => bs
  | None => match s_anyOf resolved with Some bs => bs | None => [] end
  end.

(** [resolved.type || (resolved.properties ? 'object' : 'string')] *)
Definition nodeType (resolved : schema) : string :=
  orElse (s_type resolved)
    (match s_properties resolved with Some _ => "object" | None => "string" end).

(** The two nested conditions that guard the row of the current node. *)
Definition emitsRow (currentPath : string) (originalRef : option string) (type : string) : bool :=
  (Str.nonEmpty currentPath || truthy originalRef || String.eqb type "array")
  && (Str.nonEmpty currentPath
      || (negb (String.eqb type "object"))
      || truthy originalRef).

(** The predicate of [rows.find]. *)
Definition sameRow (p t d : string) (r : FlatSchemaRow) : bool :=
  String.eqb (path r) p && String.eqb (type r) t && String.eqb (description r) d.

(** The row of the current node, pushed unless an equal one is there. *)
Definition pushNode (resolved : schema) (currentPath : string) (isRequired : bool)
    (originalRef : option string) (rows : list FlatSchemaRow) : list FlatSchemaRow :=
  let type := nodeType resolved in
  let d := orElse (s_description resolved) "" in
  if emitsRow currentPath originalRef type then
    if existsb (sameRow currentPath type d) rows then rows
    else rows ++ [Row currentPath type isRequired d (s_enum resolved) (s_example resolved) originalRef]
  else rows.

(** The row that ends a reference cycle. *)
Definition recursiveRow (name currentPath : string) (isRequired : bool)
    (originalRef : option string) : FlatSchemaRow :=
  Row currentPath ("Recursive (" +:+ name +:+ ")") isRequired
    "Recursive reference detected" None None originalRef.

(** The row of a map whose values are unconstrained. *)
Definition anyRow (childPath : string) : FlatSchemaRow :=
  Row childPath "any" false "Any value allowed" None None None.

(** [currentPath ? `${currentPath}.${key}` : key] *)
Definition childPathOf (currentPath key : string) : string :=
  if Str.nonEmpty currentPath then currentPath +:+ "." +:+ key else key.

(** [xs.forEach(x => f(x))] where [f] appends to the shared [rows] and may
    not return. *)
Fixpoint forEachRows {A} (f : A -> list FlatSchemaRow -> option (list FlatSchemaRow))
    (xs : list A) (rows : list FlatSchemaRow) : option (list FlatSchemaRow) :=
  match xs with
  | [] => Some rows
  | x :: xs' =>
      match f x rows with
      | Some rows' => forEachRows f xs' rows'
      | None => None
      end
  end.

(** The loop over [resolved.properties]. *)
Definition flattenProperties
    (self : schema -> string -> bool -> list FlatSchemaRow -> gset string
            -> option (list FlatSchemaRow))
    (resolved : schema) (currentPath : string) (visitedRefs : gset string)
    (rows : list FlatSchemaRow) : option (list FlatSchemaRow) :=
  match s_properties resolved with
  | Some props =>
      let requiredFields := default [] (s_required resolved) in
      forEachRows
        (fun kp rows =>
           self (snd kp) (childPathOf currentPath (fst kp))
             (existsb (String.eqb (fst kp)) requiredFields) rows visitedRefs)
        props rows
  | None => Some rows
  end.

(** The step for [resolved.additionalProperties]. *)
Definition flattenAdditional
    (self : schema -> string -> bool -> list FlatSchemaRow -> gset string
            -> option (list FlatSchemaRow))
    (resolved : schema) (currentPath : string) (visitedRefs : gset string)
    (rows : list FlatSchemaRow) : option (list FlatSchemaRow) :=
  match s_additionalProperties resolved with
  | Some (AddlSchema value) =>
      self value (childPathOf currentPath "<key>") false rows visitedRefs
  | Some (AddlBool true) => Some (rows ++ [anyRow (childPathOf currentPath "<key>")])
  | _ => Some rows
  end.

(** The step for [resolved.items]. *)
Definition flattenItems
    (self : schema -> string -> bool -> list FlatSchemaRow -> gset string
            -> option (list FlatSchemaRow))
    (resolved : schema) (currentPath : string) (visitedRefs : gset string)
    (rows : list FlatSchemaRow) : option (list FlatSchemaRow) :=
  match s_items resolved with
  | Some items =>
      if String.eqb (nodeType resolved) "array"
      then self items (currentPath +:+ "[]") false rows visitedRefs
      else Some rows
  | None => Some rows
  end.

(** The name under which the cycle guard stops the descent at [resolved]. *)
Definition cycleAt (resolved : schema) (visitedRefs : gset string) : option string :=
  match s_resolvedFrom resolved with
  | Some name =>
      if Str.nonEmpty name && bool_decide (name ∈ visitedRefs) then Some name else None
  | None => None
  end.

(** [visitedRefs.add(resolved._resolvedFrom)], when that key is set. *)
Definition visit (resolved : schema) (visitedRefs : gset string) : gset string :=
  match s_resolvedFrom resolved with
  | Some name => if Str.nonEmpty name then {[name]} ∪ visitedRefs else visitedRefs
  | None => visitedRefs
  end.

(** The body of [flattenSchema], with its recursive calls made through
    [self] and the row of the cycle guard built by [mark].  [rows] is the one
    array every call appends to and returns.  [visitedRefs] is the set the
    call received: the source copies it with [new Set(visitedRefs)] at each
    recursive call, so it is passed by value here (the model with the sets
    as objects in a store is [Store] below). *)
Definition flattenBodyWith
    (mark : string -> string -> bool -> option string -> FlatSchemaRow)
    (self : schema -> string -> bool -> list FlatSchemaRow -> gset string
            -> option (list FlatSchemaRow))
    (rootSpec : registry) (schema : schema) (currentPath : string)
    (isRequired : bool) (rows : list FlatSchemaRow) (visitedRefs : gset string)
    : option (list FlatSchemaRow) :=
  let originalRef := s_ref schema in
  let resolved := resolveSchema schema rootSpec in
  match cycleAt resolved visitedRefs with
  | Some name => Some (rows ++ [mark name currentPath isRequired originalRef])
  | None =>
      let visitedRefs := visit resolved visitedRefs in
      let resolved := mergeAllOf rootSpec resolved in
      rows ← forEachRows (fun s rows => self s currentPath isRequired rows visitedRefs)
               (polymorphic resolved) rows;
      rows ← flattenProperties self resolved currentPath visitedRefs
               (pushNode resolved currentPath isRequired originalRef rows);
      rows ← flattenAdditional self resolved currentPath visitedRefs rows;
      flattenItems self resolved currentPath visitedRefs rows
  end.

(** The body with the row of the source, [recursiveRow]. *)
Definition flattenBody := flattenBodyWith recursiveRow.

(** [flattenSchema].  The recursion of the source is unbounded: [fuel]
    bounds its depth and [None] means the bound was reached. *)
Fixpoint flattenSchema (fuel : nat) (rootSpec : registry) (schema : schema)
    (currentPath : string) (isRequired : bool) (rows : list FlatSchemaRow)
    (visitedRefs : gset string) : option (list FlatSchemaRow) :=
  match fuel with
  | O => None
  | S fuel' =>
      flattenBody (flattenSchema fuel' rootSpec) rootSpec schema currentPath
        isRequired rows visitedRefs
  end.

(** Schema literals. *)
Definition typed (t : string) : schema :=
  Schema None (Some t) None None None None None None None None None None None.
Definition object (req : option (list string)) (props : list (string * schema)) : schema :=
  Schema None (Some "object") None (Some props) req None None None None None None None None.
Definition propsOnly (props : list (string * schema)) : schema :=
  Schema None None None (Some props) None None None None None None None None None.
Definition array (items : schema) : schema :=
  Schema None (Some "array") None None None (Some items) None None None None None None None.
Definition refTo (r : string) : schema :=
  Schema (Some r) None None None None None None None None None None None None.
Definition allOf (bs : list schema) : schema :=
  Schema None None None None None None None (Some bs) None None None None None.
Definition oneOf (bs : list schema) : schema :=
  Schema None None None None None None None None (Some bs) None None None None.
Definition anyOf (bs : list schema) : schema :=
  Schema None None None None None None None None None (Some bs) None None None.

Definition endToEnd : schema :=
  object (Some ["id"]) [("id", typed "integer"); ("tags", array (typed "string"))].


(** ** Reconstructor *)

(** JavaScript exceptions, with the engine's message. *)
Inductive exn : Type :=
  | TypeError (message : string)
  | Error (message : string).

Definition message (e : exn) : string :=
  match e with
  | TypeError m => m
  | Error m => m
  end.

(** The outcome of code that may throw. *)
Inductive result (A : Type) : Type :=
  | Ok (a : A)
  | Throw (e : exn).
Arguments Ok {A} a.
Arguments Throw {A} e.

(** Assignments to single keys of an object. *)
Definition setType (t : option string) (n : schema) : schema :=
  Schema (s_ref n) t (s_description n) (s_properties n) (s_required n) (s_items n)
    (s_additionalProperties n) (s_allOf n) (s_oneOf n) (s_anyOf n) (s_enum n)
    (s_example n) (s_resolvedFrom n).
Definition setDescription (d : option string) (n : schema) : schema :=
  Schema (s_ref n) (s_type n) d (s_properties n) (s_required n) (s_items n)
    (s_additionalProperties n) (s_allOf n) (s_oneOf n) (s_anyOf n) (s_enum n)
    (s_example n) (s_resolvedFrom n).
Definition setProperties (ps : option (list (string * schema))) (n : schema) : schema :=
  Schema (s_ref n) (s_type n) (s_description n) ps (s_required n) (s_items n)
    (s_additionalProperties n) (s_allOf n) (s_oneOf n) (s_anyOf n) (s_enum n)
    (s_example n) (s_resolvedFrom n).
Definition setItems (i : option schema) (n : schema) : schema :=
  Schema (s_ref n) (s_type n) (s_description n) (s_properties n) (s_required n) i
    (s_additionalProperties n) (s_allOf n) (s_oneOf n) (s_anyOf n) (s_enum n)
    (s_example n) (s_resolvedFrom n).
Definition setAdditionalProperties (a : option (addl schema)) (n : schema) : schema :=
  Schema (s_ref n) (s_type n) (s_description n) (s_properties n) (s_required n)
    (s_items n) a (s_allOf n) (s_oneOf n) (s_anyOf n) (s_enum n)
    (s_example n) (s_resolvedFrom n).

(** [{ type: 'object', properties: {} }] *)
Definition freshObject : schema :=
  setProperties (Some []) (setType (Some "object") emptySchema).

(** [{ type: 'array', items: { type: 'object', properties: {} } }] *)
Definition freshArray : schema :=
  setItems (Some freshObject) (setType (Some "array") emptySchema).

(** What the code does to the node of the last path segment.  With a
    reference, every key is deleted and [$ref] is set.  Without one, the
    type and the description of the row are written and [properties] is
    deleted for a type other than object and array; [keepArray] is the guard
    [row.type !== 'array'] that the two array-item branches put before the
    assignment of the type. *)
Definition writeLeaf (keepArray : bool) (row : FlatSchemaRow) (n : schema) : schema :=
  if truthy (ref row) then
    Schema (ref row) None None None None None None None None None None None None
  else
    let n := if keepArray && String.eqb (type row) "array" then n
             else setType (Some (type row)) n in
    let n := setDescription (Some (description row)) n in
    if negb (String.eqb (type row) "object") && negb (String.eqb (type row) "array")
    then setProperties None n else n.

(** [part.endsWith('[]') ? part.slice(0, -2) : part] *)
Definition cleanPartOf (part : string) : string :=
  if Str.endsWith part "[]" then Str.dropLast2 part else part.

(** The engine's wording for a property access on [undefined]. *)
Definition undefinedAccess : exn :=
  TypeError "Cannot read properties of undefined".

(** The body of [parts.forEach], as a descent from [current]: the result is
    [current] after the remaining segments have been applied below it.  The
    tree under construction is never aliased, so updating the child in the
    parent is the mutation through the cursor of the source.  [current]
    becomes [undefined] when an array node has no [items]; every path of the
    source then reads or writes a property of it, which throws. *)
Fixpoint walk (row : FlatSchemaRow) (parts : list string) (current : schema) : result schema :=
  match parts with
  | [] => Ok current
  | part :: rest =>
      let isLast := match rest with [] => true | _ => false end in
      let isArrayItem := Str.endsWith part "[]" in
      let cleanPart := cleanPartOf part in
      if String.eqb cleanPart "" then
        let current :=
          if bool_decide (s_type current = Some "array") then current
          else setProperties None (setItems (Some freshObject) (setType (Some "array") current)) in
        match s_items current with
        | None => Throw undefinedAccess
        | Some item =>
            match walk row rest (if isLast then writeLeaf true row item else item) with
            | Ok item' => Ok (setItems (Some item') current)
            | Throw e => Throw e
            end
        end
      else if String.eqb cleanPart "<key>" || String.eqb cleanPart "*" then
        let current :=
          if addlTruthy (s_additionalProperties current) then current
          else setAdditionalProperties (Some (AddlSchema freshObject)) current in
        match s_additionalProperties current with
        | Some (AddlSchema value) =>
            match walk row rest (if isLast then writeLeaf false row value else value) with
            | Ok value' => Ok (setAdditionalProperties (Some (AddlSchema value')) current)
            | Throw e => Throw e
            end
        | _ => Throw (TypeError "Cannot create property on boolean")
        end
      else
        let props := default [] (s_properties current) in
        if isArrayItem then
          let child := default freshArray (objGet cleanPart props) in
          match s_items child with
          | None => Throw undefinedAccess
          | Some item =>
              match walk row rest (if isLast then writeLeaf true row item else item) with
              | Ok item' =>
                  Ok (setProperties (Some (objSet cleanPart (setItems (Some item') child) props)) current)
              | Throw e => Throw e
              end
          end
        else
          let child := default freshObject (objGet cleanPart props) in
          match walk row rest (if isLast then writeLeaf false row child else child) with
          | Ok child' => Ok (setProperties (Some (objSet cleanPart child' props)) current)
          | Throw e => Throw e
          end
  end.

(** The test on [skippedPaths]. *)
Definition isSkipped (skippedPaths : list string) (p : string) : bool :=
  existsb (fun q => Str.startsWith p (q +:+ ".") || Str.startsWith p (q +:+ "["))
    skippedPaths.

(** The body of [rows.forEach] on the pair of [rootSchema] and
    [skippedPaths]. *)
Definition unflattenRow (st : schema * list string) (row : FlatSchemaRow)
    : result (schema * list string) :=
  if negb (Str.nonEmpty (path row)) then Ok st
  else if isSkipped (snd st) (path row) then Ok st
  else
    match walk row (Str.split "." (path row)) (fst st) with
    | Ok root =>
        Ok (root, if truthy (ref row) then snd st ++ [path row] else snd st)
    | Throw e => Throw e
    end.

Fixpoint unflattenRows (rows : list FlatSchemaRow) (st : schema * list string)
    : result (schema * list string) :=
  match rows with
  | [] => Ok st
  | row :: rows' =>
      match unflattenRow st row with
      | Ok st' => unflattenRows rows' st'
      | Throw e => Throw e
      end
  end.

(** [unflattenSchema] *)
Definition unflattenSchema (rows : list FlatSchemaRow) : result schema :=
  match unflattenRows rows (freshObject, []) with
  | Ok st => Ok (fst st)
  | Throw e => Throw e
  end.


(** ** Fidelity validator *)

(** The keys of an OpenAPI document that the validator compares. *)
Record operation : Type :=
  Operation {
    operationId : option string;
    security : option (list string)
  }.

Record spec : Type :=
  Spec {
    info : option (option string);       (* [info], holding [title] *)
    servers : option (list string);
    tags : option (list string);
    componentSchemas : option (list string);  (* keys of [components.schemas] *)
    paths : option (list (string * list (string * operation)))
  }.

(** The value the validator returns. *)
Record fidelity : Type :=
  Fidelity {
    score : Z;
    report : list string
  }.

(** The double quote character, as a string. *)
Definition dquote : string := String (Ascii.ascii_of_nat 34) EmptyString.

(** [`${n}`] for a count. *)
Definition showNat (n : nat) : string := NilEmpty.string_of_uint (Nat.to_uint n).

(** [`${x}`] for a string that may be [undefined]. *)
Definition showOpt (o : option string) : string := default "undefined" o.

(** [xs?.length || 0] *)
Definition lengthOr0 {A} (xs : option (list A)) : nat :=
  match xs with Some l => length l | None => 0 end.

Section Validator.

(** The codecs and the two document converters stand outside the engine
    and are taken as they come: each returns or throws.  [toUpperCase] is
    the runtime's. *)
Variable ConversionOptions : Type.
Variable withJSONOutput : ConversionOptions -> ConversionOptions.
Variable parseContent : string -> result spec.
Variable convertSpecToDoc : string -> ConversionOptions -> result string.
Variable parseHTMLDocToSpec : string -> ConversionOptions -> result string.
Variable JSON_parse : string -> result spec.
Variable toUpperCase : string -> string.

(** [report] and [missingCount], the two things the comparison updates. *)
Record tally : Type :=
  Tally {
    lines : list string;
    missingCount : Z
  }.

Definition say (line : string) (penalty : Z) (t : tally) : tally :=
  Tally (lines t ++ [line]) (missingCount t + penalty).

(** Compare Info: the message reads [title] through [info] without [?.]
    and throws when [info] is missing on either side. *)
Definition compareInfo (original restored : spec) (t : tally) : result tally :=
  if bool_decide (mjoin (info original) = mjoin (info restored)) then Ok t
  else
    match info original, info restored with
    | Some t1, Some t2 =>
        Ok (say ("Title mismatch: " +:+ dquote +:+ showOpt t1 +:+ dquote +:+ " vs "
                 +:+ dquote +:+ showOpt t2 +:+ dquote) 0 t)
    | _, _ => Throw undefinedAccess
    end.

Definition compareServers (original restored : spec) (t : tally) : tally :=
  let origServers := lengthOr0 (servers original) in
  let restServers := lengthOr0 (servers restored) in
  if bool_decide (origServers = restServers) then t
  else say ("Missing Servers: Expected " +:+ showNat origServers +:+ ", got "
            +:+ showNat restServers) 1 t.

Definition compareTags (original restored : spec) (t : tally) : tally :=
  let origTags := lengthOr0 (tags original) in
  let restTags := lengthOr0 (tags restored) in
  if bool_decide (origTags = restTags) then t
  else say ("Missing Tags: Expected " +:+ showNat origTags +:+ ", got "
            +:+ showNat restTags) 1 t.

Definition compareComponents (original restored : spec) (t : tally) : tally :=
  let origComps := lengthOr0 (componentSchemas original) in
  let restComps := lengthOr0 (componentSchemas restored) in
  if bool_decide (origComps = restComps) then t
  else say ("Missing Components: Expected " +:+ showNat origComps +:+ ", got "
            +:+ showNat restComps) (Z.of_nat origComps - Z.of_nat restComps) t.

(** The two lines an operation present on both sides can add. *)
Definition compareOperation (path method : string) (origOp restOp : operation)
    (t : tally) : tally :=
  let t :=
    if truthy (operationId origOp)
       && negb (bool_decide (operationId origOp = operationId restOp))
    then say ("OpID Mismatch " +:+ path +:+ " " +:+ method +:+ ": "
              +:+ showOpt (operationId origOp) +:+ " vs "
              +:+ showOpt (operationId restOp)) 0 t
    else t in
  if bool_decide (lengthOr0 (security origOp) = lengthOr0 (security restOp)) then t
  else say ("Security mismatch in " +:+ toUpperCase method +:+ " " +:+ path) 0 t.

Definition compareMethod (path : string) (restMethods : list (string * operation))
    (t : tally) (mo : string * operation) : tally :=
  match objGet (fst mo) restMethods with
  | None => say ("Missing Method: " +:+ toUpperCase (fst mo) +:+ " " +:+ path) 1 t
  | Some restOp => compareOperation path (fst mo) (snd mo) restOp t
  end.

Definition comparePath (restored : spec) (t : tally)
    (pm : string * list (string * operation)) : tally :=
  match objGet (fst pm) (default [] (paths restored)) with
  | None => say ("Missing Path: " +:+ fst pm) 1 t
  | Some restMethods => fold_left (compareMethod (fst pm) restMethods) (snd pm) t
  end.

Definition comparePaths (original restored : spec) (t : tally) : tally :=
  fold_left (comparePath restored) (default [] (paths original)) t.

(** The comparison of the two documents, from the empty report. *)
Definition compareSpecs (original restored : spec) : result tally :=
  match compareInfo original restored (Tally [] 0) with
  | Throw e => Throw e
  | Ok t =>
      Ok (comparePaths original restored
            (compareComponents original restored
               (compareTags original restored
                  (compareServers original restored t))))
  end.

Definition scoreOf (t : tally) : fidelity :=
  Fidelity (Z.max 0 (100 - missingCount t * 5)) (lines t).

(** The [try] block. *)
Definition roundTrip (originalContent : string) (options : ConversionOptions)
    : result fidelity :=
  match parseContent originalContent with
  | Throw e => Throw e
  | Ok original =>
      match convertSpecToDoc originalContent options with
      | Throw e => Throw e
      | Ok generatedDoc =>
          match parseHTMLDocToSpec generatedDoc (withJSONOutput options) with
          | Throw e => Throw e
          | Ok restoredJson =>
              match JSON_parse restoredJson with
              | Throw e => Throw e
              | Ok restored =>
                  match compareSpecs original restored with
                  | Throw e => Throw e
                  | Ok t => Ok (scoreOf t)
                  end
              end
          end
      end
  end.

(** The [catch] block. *)
Definition validationFailed (e : exn) : fidelity :=
  Fidelity 0 ["Validation Failed: " +:+ message e].

(** [try { ... } catch (e) { ... }] where the handler returns. *)
Definition tryCatch {A} (body : result A) (handler : exn -> result A) : result A :=
  match body with
  | Ok a => Ok a
  | Throw e => handler e
  end.

(** [validateSpecFidelity] *)
Definition validateSpecFidelity (originalContent : string) (options : ConversionOptions)
    : result fidelity :=
  tryCatch (roundTrip originalContent options) (fun e => Ok (validationFailed e)).

End Validator.

(** ** The deduction of the validator in closed form *)

(** [1] when the two counts differ. *)
Definition mismatch (a b : nat) : Z := if bool_decide (a = b) then 0 else 1.

(** The methods of an original path that the restored path lacks. *)
Definition missingMethods (restMethods origMethods : list (string * operation)) : nat :=
  length (filter (fun mo => objGet (fst mo) restMethods = None) origMethods).

(** What one original path costs: one unit when the restored document lacks
    it, one unit for each of its methods the restored path lacks otherwise. *)
Definition pathPenalty (restored : spec) (pm : string * list (string * operation)) : Z :=
  match objGet (fst pm) (default [] (paths restored)) with
  | None => 1
  | Some restMethods => Z.of_nat (missingMethods restMethods (snd pm))
  end.

Definition pathsPenalty (original restored : spec) : Z :=
  foldr (fun pm acc => pathPenalty restored pm + acc)%Z 0%Z (default [] (paths original)).

(** The deduction the code totals: the component schemas enter with the
    signed difference of the two counts. *)
Definition deductionTotal (original restored : spec) : Z :=
  (mismatch (lengthOr0 (servers original)) (lengthOr0 (servers restored))
   + mismatch (lengthOr0 (tags original)) (lengthOr0 (tags restored))
   + (Z.of_nat (lengthOr0 (componentSchemas original))
      - Z.of_nat (lengthOr0 (componentSchemas restored)))
   + pathsPenalty original restored)%Z.

(** The deduction as the specification words it: the component schemas
    enter with the absolute value of the difference. *)
Definition specDeductionTotal (original restored : spec) : Z :=
  (mismatch (lengthOr0 (servers original)) (lengthOr0 (servers restored))
   + mismatch (lengthOr0 (tags original)) (lengthOr0 (tags restored))
   + Z.abs (Z.of_nat (lengthOr0 (componentSchemas original))
            - Z.of_nat (lengthOr0 (componentSchemas restored)))
   + pathsPenalty original restored)%Z.

(** Documents for the scoring examples. *)
Definition threePaths (comps : option (list string)) : spec :=
  Spec (Some (Some "Pets")) None None comps
    (Some [("/a", [("get", Operation None None)]);
           ("/b", [("get", Operation None None)]);
           ("/c", [("get", Operation None None)])]).
Definition onePath (title : string) (comps : option (list string)) : spec :=
  Spec (Some (Some title)) None None comps
    (Some [("/a", [("get", Operation None None)])]).

(** A pipeline whose stages return the given documents. *)
Definition fixedValidator (original restored : spec) : result fidelity :=
  validateSpecFidelity unit (fun o => o) (fun _ => Ok original) (fun _ _ => Ok "<html>")
    (fun _ _ => Ok "{}") (fun _ => Ok restored) (fun m => m) "spec" tt.

(** A pipeline whose named stage throws. *)
Definition failingValidator (stage : nat) (e : exn) : result fidelity :=
  validateSpecFidelity unit (fun o => o)
    (fun _ => if bool_decide (stage = 0) then Throw e else Ok (threePaths None))
    (fun _ _ => if bool_decide (stage = 1) then Throw e else Ok "<html>")
    (fun _ _ => if bool_decide (stage = 2) then Throw e else Ok "{}")
    (fun _ => if bool_decide (stage = 3) then Throw e else Ok (onePath "Pets" None))
    (fun m => m) "spec" tt.

(** ** The visited sets as objects in a store *)

(** In the source a [Set] is an object: [visitedRefs.add] changes it for
    every holder of the reference, and [new Set(visitedRefs)] allocates a
    copy.  This second rendering of [flattenSchema] keeps the sets in a store
    and passes their addresses, so that sharing would show. *)
Module Store.

(** The sets allocated so far, by address. *)
Abbreviation store := (list (gset string)).

Definition contents (h : store) (l : nat) : gset string := default ∅ (h !! l).

(** [new Set(visitedRefs)]: the new store and the address of the copy. *)
Definition newSet (h : store) (l : nat) : store * nat :=
  (h ++ [contents h l], length h).

(** [visitedRefs.add(name)] *)
Definition add (h : store) (l : nat) (name : string) : store :=
  <[l := {[name]} ∪ contents h l]> h.

(** [visitedRefs.add(resolved._resolvedFrom)], when that key is set. *)
Definition markVisited (resolved : schema) (h : store) (l : nat) : store :=
  match s_resolvedFrom resolved with
  | Some name => if Str.nonEmpty name then add h l name else h
  | None => h
  end.

(** The shared array [rows] and the store. *)
Abbreviation state := (list FlatSchemaRow * list (gset string))%type.

Abbreviation call := (schema -> string -> bool -> state -> nat -> option state).

(** A recursive call [flattenSchema(s, rootSpec, p, r, rows, new Set(visitedRefs))]. *)
Definition withCopy (self : call) (s : schema) (p : string) (r : bool)
    (visitedRefs : nat) (st : state) : option state :=
  let (h, l) := newSet (snd st) visitedRefs in
  self s p r (fst st, h) l.

Fixpoint forEach {A} (f : A -> state -> option state) (xs : list A) (st : state)
    : option state :=
  match xs with
  | [] => Some st
  | x :: xs' =>
      match f x st with
      | Some st' => forEach f xs' st'
      | None => None
      end
  end.

Definition flattenProperties (self : call) (resolved : schema) (currentPath : string)
    (visitedRefs : nat) (st : state) : option state :=
  match s_properties resolved with
  | Some props =>
      let requiredFields := default [] (s_required resolved) in
      forEach
        (fun kp st =>
           withCopy self (snd kp) (childPathOf currentPath (fst kp))
             (existsb (String.eqb (fst kp)) requiredFields) visitedRefs st)
        props st
  | None => Some st
  end.

Definition flattenAdditional (self : call) (resolved : schema) (currentPath : string)
    (visitedRefs : nat) (st : state) : option state :=
  match s_additionalProperties resolved with
  | Some (AddlSchema value) =>
      withCopy self value (childPathOf currentPath "<key>") false visitedRefs st
  | Some (AddlBool true) =>
      Some (fst st ++ [anyRow (childPathOf currentPath "<key>")], snd st)
  | _ => Some st
  end.

Definition flattenItems (self : call) (resolved : schema) (currentPath : string)
    (visitedRefs : nat) (st : state) : option state :=
  match s_items resolved with
  | Some items =>
      if String.eqb (nodeType resolved) "array"
      then withCopy self items (currentPath +:+ "[]") false visitedRefs st
      else Some st
  | None => Some st
  end.

Definition flattenBody (self : call) (rootSpec : registry) (schema : schema)
    (currentPath : string) (isRequired : bool) (st : state) (visitedRefs : nat)
    : option state :=
  let originalRef := s_ref schema in
  let resolved := resolveSchema schema rootSpec in
  match cycleAt resolved (contents (snd st) visitedRefs) with
  | Some name =>
      Some (fst st ++ [recursiveRow name currentPath isRequired originalRef], snd st)
  | None =>
      let st := (fst st, markVisited resolved (snd st) visitedRefs) in
      let resolved := mergeAllOf rootSpec resolved in
      st ← forEach (fun s st => withCopy self s currentPath isRequired visitedRefs st)
             (polymorphic resolved) st;
      st ← flattenProperties self resolved currentPath visitedRefs
             (pushNode resolved currentPath isRequired originalRef (fst st), snd st);
      st ← flattenAdditional self resolved currentPath visitedRefs st;
      flattenItems self resolved currentPath visitedRefs st
  end.

Fixpoint flattenSchema (fuel : nat) (rootSpec : registry) (schema : schema)
    (currentPath : string) (isRequired : bool) (st : state) (visitedRefs : nat)
    : option state :=
  match fuel with
  | O => None
  | S fuel' =>
      flattenBody (flattenSchema fuel' rootSpec) rootSpec schema currentPath
        isRequired st visitedRefs
  end.

(** The set a call leaves at the address it was given: its own resolved
    name is added unless the cycle guard stopped it. *)
Definition leaves (rootSpec : registry) (s : schema) (V : gset string) : gset string :=
  match cycleAt (resolveSchema s rootSpec) V with
  | Some _ => V
  | None => visit (resolveSchema s rootSpec) V
  end.

(** A call from store [h] with the set at [l] agrees with the call by
    value: same rows, no set of [h] other than the one at [l] touched, and
    that one changed by the call's own name only. *)
Definition agrees (rootSpec : registry) (s : schema) (h : store) (l : nat)
    (byRef : option state) (byValue : option (list FlatSchemaRow)) : Prop :=
  match byRef with
  | None => byValue = None
  | Some st' =>
      byValue = Some (fst st')
      /\ length h <= length (snd st')
      /\ (forall l', l' < length h -> l' <> l -> snd st' !! l' = h !! l')
      /\ snd st' !! l = Some (leaves rootSpec s (contents h l))
  end.

(** What a caller keeps of its store [h0] while its callees run: every
    set it knew is as it was, and its own set at [l] holds [V]. *)
Definition keeps (h0 : store) (l : nat) (V : gset string) (h : store) : Prop :=
  length h0 <= length h
  /\ (forall l', l' < length h0 -> l' <> l -> h !! l' = h0 !! l')
  /\ h !! l = Some V.

(** The two renderings, run side by side under an invariant of the store. *)
Definition sim (I : store -> Prop) (byRef : option state)
    (byValue : option (list FlatSchemaRow)) : Prop :=
  match byRef with
  | None => byValue = None
  | Some st' => byValue = Some (fst st') /\ I (snd st')
  end.

End Store.

(** ** Measures of a schema and of a registry *)

(** The schemas one step below a node: the values of [properties], the
    schema of [additionalProperties], [items], and the branches of [oneOf]
    and [anyOf]. *)
Definition children (s : schema) : list schema :=
  (snd <$> default [] (s_properties s))
  ++ match s_additionalProperties s with Some (AddlSchema a) => [a] | _ => [] end
  ++ match s_items s with Some i => [i] | None => [] end
  ++ default [] (s_oneOf s) ++ default [] (s_anyOf s).

(** The number of schema objects in a schema. *)
Fixpoint weight (s : schema) : nat :=
  S (match s_properties s with
     | Some ps => sum_list ((fun kp => weight (snd kp)) <$> ps)
     | None => 0
     end
     + match s_additionalProperties s with Some (AddlSchema a) => weight a | _ => 0 end
     + match s_items s with Some i => weight i | None => 0 end
     + match s_allOf s with Some bs => sum_list (weight <$> bs) | None => 0 end
     + match s_oneOf s with Some bs => sum_list (weight <$> bs) | None => 0 end
     + match s_anyOf s with Some bs => sum_list (weight <$> bs) | None => 0 end).

(** No [allOf] key in the schema or below it. *)
Fixpoint noAllOf (s : schema) : bool :=
  match s_allOf s with Some _ => false | None => true end
  && match s_properties s with
     | Some ps => forallb (fun kp => noAllOf (snd kp)) ps
     | None => true
     end
  && match s_additionalProperties s with Some (AddlSchema a) => noAllOf a | _ => true end
  && match s_items s with Some i => noAllOf i | None => true end
  && match s_oneOf s with Some bs => forallb noAllOf bs | None => true end
  && match s_anyOf s with Some bs => forallb noAllOf bs | None => true end.

(** The weight of the heaviest schema of the registry. *)
Definition regBound (rootSpec : registry) : nat :=
  max_list ((fun kv => weight (snd kv)) <$> map_to_list rootSpec).

(** A depth that suffices to flatten [s] from the visited set [V] when no
    [allOf] is involved: every registry name outside [V] can be entered once,
    and between two entries the descent is inside one schema. *)
Definition fuelFor (rootSpec : registry) (s : schema) (V : gset string) : nat :=
  S (size (dom rootSpec ∖ V) * S (regBound rootSpec) + weight s).

(** The cycle of the specification: [A.prop] refers to [B], [B.prop] to [A]. *)
Definition abReg : registry :=
  {[ "A" := propsOnly [("prop", refTo "#/components/schemas/B")];
     "B" := propsOnly [("prop", refTo "#/components/schemas/A")] ]}.

(** A cycle that passes through an [allOf] branch. *)
Definition allOfReg : registry :=
  {[ "B" := propsOnly [("x", allOf [refTo "#/components/schemas/B"])] ]}.

(** ** Reference points for the composition operators *)

(** The definition of property [k] in the last of the resolved branches
    that defines it. *)
Definition lastDefinition (k : string) (resolvedBranches : list schema) : option schema :=
  fold_left
    (fun acc b =>
       match s_properties b ≫= objGet k with
       | Some v => Some v
       | None => acc
       end)
    resolvedBranches None.

(** The truthy [additionalProperties] of the last resolved branch that has
    one. *)
Definition lastAdditional (resolvedBranches : list schema) : option (addl schema) :=
  fold_left
    (fun acc b =>
       if addlTruthy (s_additionalProperties b) then s_additionalProperties b else acc)
    resolvedBranches None.

(** The row of a node, as [pushNode] builds it. *)
Definition nodeRow (resolved : schema) (currentPath : string) (isRequired : bool)
    (originalRef : option string) : FlatSchemaRow :=
  Row currentPath (nodeType resolved) isRequired (orElse (s_description resolved) "")
    (s_enum resolved) (s_example resolved) originalRef.

(** A map whose values are unconstrained: [{ additionalProperties: true }]. *)
Definition anyMap : schema :=
  Schema None None None None None None (Some (AddlBool true)) None None None None None None.

(** A node with both [oneOf] and [anyOf]. *)
Definition bothKinds : schema :=
  Schema None None None None None None None None
    (Some [propsOnly [("a", typed "string")]])
    (Some [propsOnly [("b", typed "string")]]) None None None.

(** A row with no required flag, description, enum, example or reference. *)
Definition plainRow (p t : string) : FlatSchemaRow := Row p t false "" None None None.

(** ** Reference points for the reconstructor *)

(** The rows that [unflattenSchema] does not discard, given the skipped
    prefixes recorded so far. *)
Fixpoint processedRows (rows : list FlatSchemaRow) (skippedPaths : list string)
    : list FlatSchemaRow :=
  match rows with
  | [] => []
  | row :: rows' =>
      if negb (Str.nonEmpty (path row)) || isSkipped skippedPaths (path row)
      then processedRows rows' skippedPaths
      else row :: processedRows rows'
                    (if truthy (ref row) then skippedPaths ++ [path row] else skippedPaths)
  end.

(** The first segment of the path is empty once a suffix [[]] is taken off:
    the path is [[]], or starts with [[].], or starts with a dot. *)
Definition startsAtRootArray (row : FlatSchemaRow) : bool :=
  match Str.split "." (path row) with
  | part :: _ => String.eqb (cleanPartOf part) ""
  | [] => false
  end.

(** ** Documents for the sibling branches *)

(** Two components that each refer to themselves. *)
Definition selfReg : registry :=
  {[ "A" := propsOnly [("self", refTo "#/components/schemas/A")];
     "B" := propsOnly [("self", refTo "#/components/schemas/B")] ]}.

(** An object whose two properties enter the two cycles. *)
Definition twoCycles : schema :=
  propsOnly [("a", refTo "#/components/schemas/A"); ("b", refTo "#/components/schemas/B")].

(** A component without references, and an object that uses it twice. *)
Definition leafReg : registry := {[ "X" := typed "string" ]}.
Definition usedTwice : schema :=
  propsOnly [("a", refTo "#/components/schemas/X"); ("b", refTo "#/components/schemas/X")].

(** ** Reference points for the round trip *)

(** A string without the two characters that end a path segment, the dot
    and the opening bracket. *)
Definition segFree (k : string) : bool :=
  forallb (fun a => negb (Ascii.eqb a ".") && negb (Ascii.eqb a "["))
    (list_ascii_of_string k).

(** A property name that the path syntax can carry: not empty, without a
    dot or an opening bracket, and neither of the two map wildcards. *)
Definition safeKey (k : string) : bool :=
  Str.nonEmpty k && segFree k && negb (Str.endsWith k "[]")
  && negb (String.eqb k "<key>") && negb (String.eqb k "*").

(** A segment of a path: a safe property name, or the wildcard that the
    flattener writes for the values of a map. *)
Definition segOK (k : string) : bool := safeKey k || String.eqb k "<key>".

(** The path the flattener builds for a chain of segments. *)
Definition pathOf (ks : list string) : string := fold_left childPathOf ks "".

(** The prefix that [childPathOf] puts before the name of a child. *)
Definition stem (p : string) : string := if Str.nonEmpty p then p +:+ "." else "".

(** What may follow a segment in a path: nothing, a dot or a bracket. *)
Definition tailLike (t : string) : Prop :=
  t = "" \/ exists rest, t = String "." rest \/ t = String "[" rest.

(** [x] is below the path [p], by the test of the reconstructor on
    [skippedPaths]; [x] is [p] or below it; and no row of [rows] is at [p] or
    below it. *)
Definition strictlyBelow (p x : string) : Prop :=
  Str.startsWith x (p +:+ ".") = true \/ Str.startsWith x (p +:+ "[") = true.
Definition under (p x : string) : Prop := x = p \/ strictlyBelow p x.
Definition unoccupied (p : string) (rows : list FlatSchemaRow) : Prop :=
  forall row, row ∈ rows -> ~ under p (path row).

(** [x] is at or below a child of [p]. *)
Definition childU (p x : string) : Prop :=
  exists k, k <> "" /\ segFree k = true /\ under (childPathOf p k) x.

(** The three descents of a call of the flattener, after the row of the
    node. *)
Definition descend
    (self : schema -> string -> bool -> list FlatSchemaRow -> gset string
            -> option (list FlatSchemaRow))
    (resolved : schema) (currentPath : string) (visitedRefs : gset string)
    (rows : list FlatSchemaRow) : option (list FlatSchemaRow) :=
  rows ← flattenProperties self resolved currentPath visitedRefs rows;
  rows ← flattenAdditional self resolved currentPath visitedRefs rows;
  flattenItems self resolved currentPath visitedRefs rows.

(** [rows'] is [rows] with rows appended whose paths satisfy [U]. *)
Definition grows (U : string -> Prop) (rows rows' : list FlatSchemaRow) : Prop :=
  exists added, rows' = rows ++ added /\ Forall (fun row => U (path row)) added.

(** The duplicate test of the node row cannot tell [a] from [b] at [p] or
    below. *)
Definition alike (p : string) (a b : list FlatSchemaRow) : Prop :=
  forall q t d, under p q -> existsb (sameRow q t d) a = existsb (sameRow q t d) b.

Definition isNone {A} (o : option A) : bool :=
  match o with None => true | Some _ => false end.

(** A schema with the key [$ref] and no other. *)
Definition refOnly (s : schema) : bool :=
  isNone (s_type s) && isNone (s_description s) && isNone (s_properties s)
  && isNone (s_required s) && isNone (s_items s) && isNone (s_additionalProperties s)
  && isNone (s_allOf s) && isNone (s_oneOf s) && isNone (s_anyOf s)
  && isNone (s_enum s) && isNone (s_example s) && isNone (s_resolvedFrom s).

(** A tree without arrays and composition.  A node with [$ref] has that
    key only, and what it resolves to in the registry has no [oneOf] or
    [anyOf] of its own; below the reference the registry is free.  Any other
    node has no [items], [allOf], [oneOf], [anyOf] or [_resolvedFrom]; its
    [additionalProperties] is absent, [false], or a schema of the class; and
    the names of its properties are safe and distinct, their schemas of the
    class. *)
Fixpoint plainTree (rootSpec : registry) (s : schema) : bool :=
  if truthy (s_ref s) then
    refOnly s
    && match polymorphic (resolveSchema s rootSpec) with [] => true | _ => false end
  else
    negb (truthy (s_resolvedFrom s))
    && isNone (s_items s) && isNone (s_allOf s) && isNone (s_oneOf s) && isNone (s_anyOf s)
    && match s_additionalProperties s with
       | Some (AddlSchema v) => plainTree rootSpec v
       | Some (AddlBool b) => negb b
       | None => true
       end
    && match s_properties s with
       | Some ps =>
           forallb (fun kp => safeKey (fst kp) && plainTree rootSpec (snd kp)) ps
           && bool_decide (NoDup ps.*1)
       | None => true
       end.

(** What the reconstructor makes of a node of a plain tree below the root.
    A reference stays the reference.  Of any other node: the type made
    explicit, the description made a string, the properties and the schema
    of the map values kept, an empty [properties] left on an object or array
    without any; [required], [enum] and [example] are gone. *)
Fixpoint restoreNode (s : schema) : schema :=
  if truthy (s_ref s) then
    Schema (s_ref s) None None None None None None None None None None None None
  else
    Schema None (Some (nodeType s)) (Some (orElse (s_description s) ""))
      (match s_properties s with
       | Some (kp :: ps) =>
           Some ((fun kp => (fst kp, restoreNode (snd kp))) <$> (kp :: ps))
       | _ =>
           if String.eqb (nodeType s) "object" || String.eqb (nodeType s) "array"
           then Some [] else None
       end)
      None None
      (match s_additionalProperties s with
       | Some (AddlSchema v) => Some (AddlSchema (restoreNode v))
       | _ => None
       end)
      None None None None None None.

(** What the reconstructor makes of [additionalProperties]. *)
Definition restoredAddl (s : schema) : option (addl schema) :=
  match s_additionalProperties s with
  | Some (AddlSchema v) => Some (AddlSchema (restoreNode v))
  | _ => None
  end.

(** What the reconstructor makes of the root of a plain tree: an object
    without a description, whatever the type of the root was. *)
Definition restoreRoot (s : schema) : schema :=
  Schema None (Some "object") None
    (Some ((fun kp => (fst kp, restoreNode (snd kp))) <$> default [] (s_properties s)))
    None None (restoredAddl s) None None None None None None.

(** A row as the reconstructor reads it: path, type and description. *)
Definition forget (row : FlatSchemaRow) : FlatSchemaRow :=
  Row (path row) (type row) false (description row) None None None.

(** [f] applied to the node that the chain of segments [ks] leads to from
    [n], through [properties] and, at the wildcard, through
    [additionalProperties], with the objects on the way created as needed. *)
Fixpoint graft (ks : list string) (f : schema -> schema) (n : schema) : schema :=
  match ks with
  | [] => f n
  | k :: ks' =>
      if String.eqb k "<key>" then
        setAdditionalProperties
          (Some (AddlSchema
                   (graft ks' f
                      (match s_additionalProperties n with
                       | Some (AddlSchema v) => v
                       | _ => freshObject
                       end)))) n
      else
        let props := default [] (s_properties n) in
        setProperties
          (Some (objSet k (graft ks' f (default freshObject (objGet k props))) props)) n
  end.

(** No [additionalProperties: true] on the way through properties and map
    values: the reconstructor throws when a path leads through one. *)
Fixpoint closedMaps (n : schema) : bool :=
  match s_additionalProperties n with
  | Some (AddlBool b) => negb b
  | Some (AddlSchema v) => closedMaps v
  | None => true
  end
  && match s_properties n with
     | Some ps => forallb (fun kp => closedMaps (snd kp)) ps
     | None => true
     end.

(** No path in [U] is skipped on account of [sk]. *)
Definition clearOf (U : string -> Prop) (sk : list string) : Prop :=
  forall x, U x -> isSkipped sk x = false.

Definition keepsClosed (f : schema -> schema) : Prop :=
  forall x, closedMaps x = true -> closedMaps (f x) = true.

(** The reconstructor, run on the rows [added], applies [f] at the chain
    [ks] of any tree, and records the skipped prefixes [sk']; the paths of
    the rows and the prefixes lie in [U]. *)
Definition replays (ks : list string) (U : string -> Prop) (added : list FlatSchemaRow)
    (f : schema -> schema) (sk' : list string) : Prop :=
  Forall (fun row => U (path row)) added /\ Forall U sk' /\ keepsClosed f
  /\ forall root sk, closedMaps root = true -> clearOf U sk ->
       unflattenRows added (root, sk) = Ok (graft ks f root, sk ++ sk').

(** The same on a tree that has a node at [ks] already. *)
Definition replaysAt (ks : list string) (U : string -> Prop) (added : list FlatSchemaRow)
    (F : schema -> schema) (sk' : list string) : Prop :=
  Forall (fun row => U (path row)) added /\ Forall U sk' /\ keepsClosed F
  /\ forall f0 root sk, closedMaps (graft ks f0 root) = true -> clearOf U sk ->
       unflattenRows added (graft ks f0 root, sk)
       = Ok (graft ks (fun x => F (f0 x)) root, sk ++ sk').

(** The round trip of the subtree [s], wherever it hangs: the rows that the
    flattener appends for it at the chain [ks] make the reconstructor build
    [restoreNode s] there, and flattening [restoreNode s] at the same place
    gives rows with the same paths, types and descriptions. *)
Definition subtreeOK (rootSpec : registry) (s : schema) : Prop :=
  forall ks fuel r rows0 rows',
    Forall (fun k => segOK k = true) ks -> ks <> [] ->
    unoccupied (pathOf ks) rows0 ->
    flattenSchema fuel rootSpec s (pathOf ks) r rows0 ∅ = Some rows' ->
    exists added f sk',
      rows' = rows0 ++ added
      /\ replays ks (under (pathOf ks)) added f sk'
      /\ f freshObject = restoreNode s
      /\ forall b r', unoccupied (pathOf ks) b ->
           exists added',
             flattenSchema fuel rootSpec (restoreNode s) (pathOf ks) r' b ∅
             = Some (b ++ added')
             /\ forget <$> added' = forget <$> added.

(** The rows of the end-to-end example of the specification. *)
Definition endToEndRows : list FlatSchemaRow :=
  [Row "id" "integer" true "" None None None;
   plainRow "tags" "array";
   plainRow "tags[]" "string"].

(** The example without its array, and what the reconstructor returns for
    it. *)
Definition idOnly : schema := object (Some ["id"]) [("id", typed "integer")].
Definition idOnlyRestored : schema :=
  Schema None (Some "object") None
    (Some [("id", Schema None (Some "integer") (Some "") None None None None None None
                    None None None None)])
    None None None None None None None None None.

(** A tree with a required scalar, a reference and a map of strings, and
    its rows. *)
Definition stringMap : schema :=
  Schema None (Some "object") None None None None (Some (AddlSchema (typed "string")))
    None None None None None None.
Definition profile : schema :=
  object (Some ["id"])
    [("id", typed "integer"); ("name", refTo "#/components/schemas/X");
     ("labels", stringMap)].
Definition profileRows : list FlatSchemaRow :=
  [Row "id" "integer" true "" None None None;
   Row "name" "string" false "" None None (Some "#/components/schemas/X");
   plainRow "labels" "object";
   plainRow "labels.<key>" "string"].

(** ** The flattener with another row for the cycle guard *)

(** [flattenSchema] with the row that the cycle guard appends left open:
    two such rows give the same result exactly when the guard is never
    reached. *)
Fixpoint flattenSchemaWith
    (mark : string -> string -> bool -> option string -> FlatSchemaRow)
    (fuel : nat) (rootSpec : registry) (schema : schema)
    (currentPath : string) (isRequired : bool) (rows : list FlatSchemaRow)
    (visitedRefs : gset string) : option (list FlatSchemaRow) :=
  match fuel with
  | O => None
  | S fuel' =>
      flattenBodyWith mark (flattenSchemaWith mark fuel' rootSpec) rootSpec schema
        currentPath isRequired rows visitedRefs
  end.

(** A row no call of the flattener pushes for a node: its path is not one. *)
Definition otherMark (name p : string) (r : bool) (oref : option string) : FlatSchemaRow :=
  Row ("cycle at " +:+ p) name r "" None None oref.

(** The schemas one step below a node, the branches of [allOf] included. *)
Definition members (s : schema) : list schema :=
  children s ++ default [] (s_allOf s).

(** The name under which [resolveSchema] finds the schema in the registry. *)
Definition resolvesTo (rootSpec : registry) (s : schema) : option string :=
  match s_ref s with
  | Some r =>
      if Str.nonEmpty r then
        let refName := Str.lastSegment (Str.split "/" r) in
        match rootSpec !! refName with
        | Some _ => Some refName
        | None => None
        end
      else None
  | None => None
  end.

(** Every reference in the schema, at any depth, that resolves in the
    registry names a component of rank below [b]; and the schema holds no
    [_resolvedFrom] key of its own. *)
Fixpoint refsBelow (rootSpec : registry) (rank : string -> nat) (b : nat) (s : schema)
    : bool :=
  negb (truthy (s_resolvedFrom s))
  && match resolvesTo rootSpec s with Some name => rank name <? b | None => true end
  && match s_properties s with
     | Some ps => forallb (fun kp => refsBelow rootSpec rank b (snd kp)) ps
     | None => true
     end
  && match s_additionalProperties s with
     | Some (AddlSchema a) => refsBelow rootSpec rank b a
     | _ => true
     end
  && match s_items s with Some i => refsBelow rootSpec rank b i | None => true end
  && match s_allOf s with Some bs => forallb (refsBelow rootSpec rank b) bs | None => true end
  && match s_oneOf s with Some bs => forallb (refsBelow rootSpec rank b) bs | None => true end
  && match s_anyOf s with Some bs => forallb (refsBelow rootSpec rank b) bs | None => true end.

(** The references of the registry form no cycle: every component refers
    only to components of lower rank. *)
Definition acyclic (rootSpec : registry) (rank : string -> nat) : Prop :=
  map_Forall (fun name target => refsBelow rootSpec rank (rank name) target = true) rootSpec.

(** ** Reference points for the invariants of the flattener *)

(** [rows'] is [rows] with rows appended that satisfy [Q]. *)
Definition appends (Q : FlatSchemaRow -> Prop) (rows rows' : list FlatSchemaRow) : Prop :=
  exists added, rows' = rows ++ added /\ Forall Q added.

(** A schema without [type], [properties], [additionalProperties], [items]
    and composition: a component that only points on with a [$ref] of its
    own is one. *)
Definition bare (t : schema) : bool :=
  isNone (s_type t) && isNone (s_properties t) && isNone (s_additionalProperties t)
  && isNone (s_items t) && isNone (s_allOf t) && isNone (s_oneOf t) && isNone (s_anyOf t).

(** A component that is an alias of another, and a reference to it. *)
Definition aliasReg : registry :=
  {[ "Alias" := refTo "#/components/schemas/Pet";
     "Pet" := object None [("name", typed "string")] ]}.

(** ** Reference points for the invariants of the reconstructor *)

(** A path segment that is neither empty nor an array item. *)
Definition plainPart (part : string) : bool :=
  Str.nonEmpty part && negb (Str.endsWith part "[]").

(** A path that the reconstructor discards, or one without empty segments
    and array items. *)
Definition plainPath (p : string) : bool :=
  negb (Str.nonEmpty p) || forallb plainPart (Str.split "." p).

(** A tree with no other keys than the reconstructor writes: [$ref],
    [type], [description], [properties], [items], and
    [additionalProperties] holding a schema. *)
Fixpoint reconstructed (n : schema) : bool :=
  isNone (s_required n) && isNone (s_allOf n) && isNone (s_oneOf n) && isNone (s_anyOf n)
  && isNone (s_enum n) && isNone (s_example n) && isNone (s_resolvedFrom n)
  && match s_additionalProperties n with
     | Some (AddlBool _) => false
     | Some (AddlSchema v) => reconstructed v
     | None => true
     end
  && match s_items n with Some i => reconstructed i | None => true end
  && match s_properties n with
     | Some ps => forallb (fun kp => reconstructed (snd kp)) ps
     | None => true
     end.

(** None of the keys that the reconstructor never writes. *)
Definition flagsOff (n : schema) : bool :=
  isNone (s_required n) && isNone (s_allOf n) && isNone (s_oneOf n) && isNone (s_anyOf n)
  && isNone (s_enum n) && isNone (s_example n) && isNone (s_resolvedFrom n).

(** Two lists of skipped prefixes that skip the same paths. *)
Definition sameSkips (sk1 sk2 : list string) : Prop :=
  forall x, isSkipped sk1 x = isSkipped sk2 x.

(** Rows for the examples of the reconstructor. *)
Definition petRows : list FlatSchemaRow :=
  [Row "pet" "object" false "" None None (Some "#/components/schemas/Pet");
   plainRow "pet.name" "string";
   plainRow "pet.tags[]" "string";
   plainRow "id" "integer"].

(** ** Content parser *)

Section ParseContent.

(** [JSON.parse] and [yaml.load] stand outside the engine: each returns a
    document or throws. *)
Variable document : Type.
Variable JSON_parse : string -> result document.
Variable yaml_load : string -> result document.

(** [parseContent]: JSON first, YAML when JSON throws, and one error of
    its own when both do. *)
Definition parseContent (content : string) : result document :=
  tryCatch (JSON_parse content)
    (fun _ =>
       tryCatch (yaml_load content)
         (fun _ => Throw (Error "Invalid format. Please provide valid JSON or YAML."))).

End ParseContent.

(** ** Reference points for the validator *)

(** [restored.paths[p] = methods] for a path that is new there. *)
Definition addPath (p : string) (methods : list (string * operation)) (restored : spec) : spec :=
  Spec (info restored) (servers restored) (tags restored) (componentSchemas restored)
    (Some (default [] (paths restored) ++ [(p, methods)])).

(** The document with other servers, tags and component schemas. *)
Definition withLists (srv tgs comps : option (list string)) (d : spec) : spec :=
  Spec (info d) srv tgs comps (paths d).

(** One comparison step has said nothing if the report is still empty
    after it. *)
Definition quiet (t t' : tally) : Prop :=
  lines t' = [] -> lines t = [] /\ missingCount t' = missingCount t.

(** ** Operation tags in the generated document *)

(** [xs.join(sep)] *)
Definition joinWith (sep : string) (xs : list string) : string :=
  match xs with
  | [] => ""
  | x :: xs' => fold_left (fun acc y => acc +:+ sep +:+ y) xs' x
  end.

(** The value [convertSpecToDoc] writes into the attribute [data-tags] of an
    operation: [(op.tags || []).join(',')]. *)
Definition tagsAttribute (opTags : option (list string)) : string :=
  joinWith "," (default [] opTags).

(** What [parseHTMLDocToSpec] makes of the attribute, [null] when it is
    absent: [tagsAttr ? tagsAttr.split(',').filter(t => t) : undefined]. *)
Definition tagsOfAttribute (tagsAttr : option string) : option (list string) :=
  if truthy tagsAttr
  then Some (List.filter Str.nonEmpty (Str.split "," (default "" tagsAttr)))
  else None.

(** A tag that the attribute can carry: not empty and without a comma. *)
Definition cleanTag (t : string) : bool :=
  Str.nonEmpty t && forallb (fun a => negb (Ascii.eqb a ",")) (list_ascii_of_string t).

(** A chain of components: [C] is composed of [B] with [allOf], [B] refers
    to [A] in a property, and [A] is a leaf. *)
Definition chainReg : registry :=
  {[ "A" := typed "string";
     "B" := propsOnly [("a", refTo "#/components/schemas/A")];
     "C" := allOf [refTo "#/components/schemas/B";
                   propsOnly [("b", refTo "#/components/schemas/B")]] ]}.

(** The rank of the components of [chainReg]. *)
Definition chainRank (name : string) : nat :=
  if String.eqb name "C" then 2 else if String.eqb name "B" then 1 else 0.

(** A string without a slash. *)
Definition noSlash (name : string) : bool :=
  forallb (fun a => negb (Ascii.eqb a "/")) (list_ascii_of_string name).

(** Two rows that the table shows as the same line: the test of
    [rows.find] in the flattener. *)
Definition sameLine (a b : FlatSchemaRow) : Prop :=
  path a = path b /\ type a = type b /\ description a = description b.

(** The two rows that the flattener pushes without that test: the row of
    an unconstrained map and the row of the cycle guard. *)
Definition unchecked (row : FlatSchemaRow) : Prop :=
  row = anyRow (path row)
  \/ exists name, row = recursiveRow name (path row) (required row) (ref row).

(** No row repeats the line of an earlier one, the unchecked rows apart. *)
Definition noRepeats (rows : list FlatSchemaRow) : Prop :=
  forall i j a b, i < j -> rows !! i = Some a -> rows !! j = Some b ->
    sameLine a b -> unchecked b.

(** An array written in place: [type] is [array] and [items] is there,
    without [$ref], [properties], a truthy [additionalProperties] or
    composition. *)
Definition inlineArray (s : schema) : bool :=
  negb (truthy (s_ref s)) && bool_decide (s_type s = Some "array")
  && negb (isNone (s_items s)) && isNone (s_properties s)
  && negb (addlTruthy (s_additionalProperties s))
  && isNone (s_allOf s) && isNone (s_oneOf s) && isNone (s_anyOf s).

(** [x] is at or below a property of the root other than [k]. *)
Definition elsewhere (k x : string) : Prop :=
  exists k', segFree k' = true /\ k' <> k /\ under k' x.

(** The rows of the end-to-end example with other descriptions and no
    required flag: the same paths and references. *)
Definition endToEndTable : list FlatSchemaRow :=
  [Row "id" "integer" false "-" None None None;
   Row "tags" "array" false "-" None None None;
   Row "tags[]" "string" false "-" None None None].

(** [{ ...s, allOf: branches }] *)
Definition withAllOf (branches : list schema) (s : schema) : schema :=
  Schema (s_ref s) (s_type s) (s_description s) (s_properties s) (s_required s)
    (s_items s) (s_additionalProperties s) (Some branches) (s_oneOf s) (s_anyOf s)
    (s_enum s) (s_example s) (s_resolvedFrom s).

(** Two branches of an [allOf] that resolve to schemas with the same
    [properties], [required] and [additionalProperties]. *)
Definition sameBranch (rootSpec : registry) (b b' : schema) : Prop :=
  s_properties (resolveSchema b rootSpec) = s_properties (resolveSchema b' rootSpec)
  /\ s_required (resolveSchema b rootSpec) = s_required (resolveSchema b' rootSpec)
  /\ s_additionalProperties (resolveSchema b rootSpec)
     = s_additionalProperties (resolveSchema b' rootSpec).

(** * Properties *)

(** ** Fidelity validator *)

Section ValidatorFacts.

Variable ConversionOptions : Type.
Variable withJSONOutput : ConversionOptions -> ConversionOptions.
Variable parseContent : string -> result spec.
Variable convertSpecToDoc : string -> ConversionOptions -> result string.
Variable parseHTMLDocToSpec : string -> ConversionOptions -> result string.
Variable JSON_parse : string -> result spec.
Variable toUpperCase : string -> string.

Local Abbreviation validate :=
  (validateSpecFidelity ConversionOptions withJSONOutput parseContent
     convertSpecToDoc parseHTMLDocToSpec JSON_parse toUpperCase).
Local Abbreviation attempt :=
  (roundTrip ConversionOptions withJSONOutput parseContent
     convertSpecToDoc parseHTMLDocToSpec JSON_parse toUpperCase).

Lemma say_count line penalty t :
  missingCount (say line penalty t) = (missingCount t + penalty)%Z.
Proof. reflexivity. Qed.

Lemma compareOperation_count p m o1 o2 t :
  missingCount (compareOperation toUpperCase p m o1 o2 t) = missingCount t.
Proof.
  unfold compareOperation.
  repeat match goal with |- context [if ?b then _ else _] => destruct b end;
    rewrite ?say_count; lia.
Qed.

Lemma compareMethods_count p restMethods origMethods t :
  missingCount (fold_left (compareMethod toUpperCase p restMethods) origMethods t)
  = (missingCount t + Z.of_nat (missingMethods restMethods origMethods))%Z.
Proof.
  unfold missingMethods.
  revert t; induction origMethods as [|mo ms IH]; intros t; simpl.
  - lia.
  - rewrite IH. unfold compareMethod. rewrite filter_cons.
    destruct (objGet (fst mo) restMethods) eqn:E.
    + rewrite compareOperation_count.
      destruct (decide (Some o = None)); [discriminate|]. lia.
    + rewrite say_count. destruct (decide (None = None)); [|done].
      simpl length. lia.
Qed.

Lemma comparePath_count restored pm t :
  missingCount (comparePath toUpperCase restored t pm)
  = (missingCount t + pathPenalty restored pm)%Z.
Proof.
  unfold comparePath, pathPenalty.
  destruct (objGet (fst pm) (default [] (paths restored))).
  - apply compareMethods_count.
  - apply say_count.
Qed.

Lemma comparePaths_count original restored t :
  missingCount (comparePaths toUpperCase original restored t)
  = (missingCount t + pathsPenalty original restored)%Z.
Proof.
  unfold comparePaths, pathsPenalty.
  generalize (default [] (paths original)) as ps.
  intros ps; revert t; induction ps as [|pm ps IH]; intros t; simpl.
  - lia.
  - rewrite IH, comparePath_count. lia.
Qed.

Lemma compareInfo_count original restored t t' :
  compareInfo original restored t = Ok t' -> missingCount t' = missingCount t.
Proof.
  unfold compareInfo. case_bool_decide.
  - intros [= <-]. reflexivity.
  - destruct (info original), (info restored); try discriminate.
    intros [= <-]. rewrite say_count. lia.
Qed.

Lemma compareSpecs_count original restored t :
  compareSpecs toUpperCase original restored = Ok t ->
  missingCount t = deductionTotal original restored.
Proof.
  unfold compareSpecs.
  destruct (compareInfo original restored (Tally [] 0)) as [t0|e] eqn:E; [|discriminate].
  intros [= <-]. apply compareInfo_count in E. simpl in E.
  rewrite comparePaths_count.
  unfold compareComponents, compareTags, compareServers, deductionTotal, mismatch.
  repeat case_bool_decide; rewrite ?say_count, ?E; lia.
Qed.

Lemma validate_ok c o original doc json restored :
  parseContent c = Ok original ->
  convertSpecToDoc c o = Ok doc ->
  parseHTMLDocToSpec doc (withJSONOutput o) = Ok json ->
  JSON_parse json = Ok restored ->
  validate c o =
    match compareSpecs toUpperCase original restored with
    | Ok t => Ok (scoreOf t)
    | Throw e => Ok (validationFailed e)
    end.
Proof.
  intros H1 H2 H3 H4. unfold validateSpecFidelity, roundTrip.
  rewrite H1, H2, H3, H4.
  destruct (compareSpecs toUpperCase original restored); reflexivity.
Qed.


(** A title mismatch is reported, as the first line, and costs nothing. *)
Lemma compareInfo_title original restored t1 t2 :
  info original = Some t1 -> info restored = Some t2 -> t1 <> t2 ->
  compareInfo original restored (Tally [] 0)
  = Ok (Tally ["Title mismatch: " +:+ dquote +:+ showOpt t1 +:+ dquote +:+ " vs "
               +:+ dquote +:+ showOpt t2 +:+ dquote] 0).
Proof.
  intros H1 H2 Hne. unfold compareInfo. rewrite H1, H2. simpl.
  case_bool_decide; [contradiction|]. reflexivity.
Qed.

(** C8: [validateSpecFidelity] returns for every input and every behaviour
    of the pipeline stages.  When the [try] block throws [e], whichever
    stage threw (the parser, the projector, the extractor, the JSON codec
    or the comparison itself), the result has score 0 and the single
    report line [Validation Failed: ] followed by the message of [e]. *)
Theorem validateSpecFidelity_never_throws c o :
  exists f, validate c o = Ok f
    /\ (forall e, attempt c o = Throw e ->
          f = Fidelity 0 ["Validation Failed: " +:+ message e]
          /\ length (report f) = 1)
    /\ (forall e, parseContent c = Throw e -> attempt c o = Throw e)
    /\ (forall original e, parseContent c = Ok original ->
          convertSpecToDoc c o = Throw e -> attempt c o = Throw e)
    /\ (forall original doc e, parseContent c = Ok original ->
          convertSpecToDoc c o = Ok doc ->
          parseHTMLDocToSpec doc (withJSONOutput o) = Throw e ->
          attempt c o = Throw e)
    /\ (forall original doc json e, parseContent c = Ok original ->
          convertSpecToDoc c o = Ok doc ->
          parseHTMLDocToSpec doc (withJSONOutput o) = Ok json ->
          JSON_parse json = Throw e ->
          attempt c o = Throw e)
    /\ (forall original doc json restored e, parseContent c = Ok original ->
          convertSpecToDoc c o = Ok doc ->
          parseHTMLDocToSpec doc (withJSONOutput o) = Ok json ->
          JSON_parse json = Ok restored ->
          compareSpecs toUpperCase original restored = Throw e ->
          attempt c o = Throw e).
Proof.
  unfold validateSpecFidelity, tryCatch.
  destruct (attempt c o) as [f|e0] eqn:E.
  - exists f. split; [reflexivity|]. split; [discriminate|].
    unfold roundTrip in E.
    repeat split; intros; repeat
      match goal with
      | H : ?x = _, E : context [match ?x with _ => _ end] |- _ => rewrite H in E
      end; discriminate.
  - exists (validationFailed e0). split; [reflexivity|].
    split; [intros e [= <-]; split; reflexivity|].
    unfold roundTrip in E.
    repeat split; intros; repeat
      match goal with
      | H : ?x = _, E : context [match ?x with _ => _ end] |- _ => rewrite H in E
      end; congruence.
Qed.

End ValidatorFacts.

(** The scoring example: three paths of which two are missing score 90. *)
Example score_two_missing_paths :
  fixedValidator (threePaths None) (onePath "Pets" None)
  = Ok (Fidelity 90 ["Missing Path: /b"; "Missing Path: /c"]).
Proof. reflexivity. Qed.


(** A title mismatch alone leaves the score at 100. *)
Example score_title_mismatch :
  fixedValidator (onePath "Pets" None) (onePath "Imported API" None)
  = Ok (Fidelity 100 ["Title mismatch: " +:+ dquote +:+ "Pets" +:+ dquote +:+ " vs "
                      +:+ dquote +:+ "Imported API" +:+ dquote]).
Proof. reflexivity. Qed.


(** The comparison itself throws when the original has no [info] and the
    restored document has a title; the validator reports it. *)
Lemma validateSpecFidelity_never_throws_witness :
  fixedValidator (Spec None None None None None) (onePath "Imported API" None)
  = Ok (Fidelity 0 ["Validation Failed: Cannot read properties of undefined"])
  /\ failingValidator 0 (Error "Invalid format. Please provide valid JSON or YAML.")
     = Ok (Fidelity 0 ["Validation Failed: Invalid format. Please provide valid JSON or YAML."]).
Proof.
  split.
  - destruct (validateSpecFidelity_never_throws unit (fun o => o)
                (fun _ => Ok (Spec None None None None None)) (fun _ _ => Ok "<html>")
                (fun _ _ => Ok "{}") (fun _ => Ok (onePath "Imported API" None))
                (fun m => m) "spec" tt) as [f [Hf [Hcatch _]]].
    unfold fixedValidator. rewrite Hf.
    destruct (Hcatch undefinedAccess eq_refl) as [-> _]. reflexivity.
  - reflexivity.
Defined.

(** ** The visited sets are copied, never shared *)

Section StoreFacts.

Variable rootSpec : registry.
Variable selfS : Store.call.
Variable selfV : schema -> string -> bool -> list FlatSchemaRow -> gset string
                 -> option (list FlatSchemaRow).

Hypothesis self_agrees : forall s p r rows h l,
  l < length h ->
  Store.agrees rootSpec s h l (selfS s p r (rows, h) l) (selfV s p r rows (Store.contents h l)).

Lemma withCopy_sim h0 l V c p r st :
  l < length h0 -> Store.keeps h0 l V (snd st) ->
  Store.sim (Store.keeps h0 l V) (Store.withCopy selfS c p r l st) (selfV c p r (fst st) V).
Proof.
  intros Hl (Hlen & Hframe & Hat). destruct st as [rows h]; simpl in *.
  unfold Store.withCopy, Store.newSet; simpl.
  assert (HV : Store.contents h l = V) by (unfold Store.contents; rewrite Hat; done).
  rewrite HV.
  pose proof (self_agrees c p r rows (h ++ [V]) (length h)) as IH.
  rewrite length_app in IH; simpl in IH. specialize (IH ltac:(lia)).
  assert (Hc : Store.contents (h ++ [V]) (length h) = V).
  { unfold Store.contents. rewrite lookup_app_r by lia.
    rewrite Nat.sub_diag. done. }
  rewrite Hc in IH. unfold Store.agrees in IH. unfold Store.sim.
  destruct (selfS c p r (rows, h ++ [V]) (length h)) as [st'|]; [|exact IH].
  destruct IH as (Hrows & Hlen' & Hframe' & _). split; [exact Hrows|].
  rewrite length_app in Hlen'; simpl in Hlen'.
  assert (Hold : forall l', l' < length h -> snd st' !! l' = h !! l').
  { intros l' Hl'. rewrite Hframe'; [|rewrite length_app; simpl; lia|lia].
    apply lookup_app_l. exact Hl'. }
  repeat split.
  - lia.
  - intros l' Hl' Hne. rewrite Hold by lia. auto.
  - rewrite Hold by lia. exact Hat.
Qed.

Lemma forEach_sim {A} (I : Store.store -> Prop)
    (fS : A -> Store.state -> option Store.state)
    (fV : A -> list FlatSchemaRow -> option (list FlatSchemaRow)) xs :
  (forall x st, I (snd st) -> Store.sim I (fS x st) (fV x (fst st))) ->
  forall st, I (snd st) -> Store.sim I (Store.forEach fS xs st) (forEachRows fV xs (fst st)).
Proof.
  intros Hf. induction xs as [|x xs IH]; intros st HI; simpl.
  - split; [reflexivity|exact HI].
  - specialize (Hf x st HI). unfold Store.sim in Hf.
    destruct (fS x st) as [st'|].
    + destruct Hf as [-> HI']. apply IH, HI'.
    + rewrite Hf. reflexivity.
Qed.

Lemma flattenBody_agrees s p r rows h l :
  l < length h ->
  Store.agrees rootSpec s h l
    (Store.flattenBody selfS rootSpec s p r (rows, h) l)
    (flattenBody selfV rootSpec s p r rows (Store.contents h l)).
Proof.
  intros Hl. unfold Store.flattenBody, flattenBody, flattenBodyWith, Store.agrees, Store.leaves; simpl.
  assert (Hhl : h !! l = Some (Store.contents h l)).
  { unfold Store.contents. destruct (lookup_lt_is_Some_2 h l Hl) as [V ->]. done. }
  destruct (cycleAt (resolveSchema s rootSpec) (Store.contents h l)) as [name|] eqn:Hc.
  { simpl. repeat split; auto. }
  set (V := visit (resolveSchema s rootSpec) (Store.contents h l)).
  set (h1 := Store.markVisited (resolveSchema s rootSpec) h l).
  set (resolved := mergeAllOf rootSpec (resolveSchema s rootSpec)).
  assert (K1 : Store.keeps h l V h1).
  { unfold h1, V, Store.markVisited, visit, Store.add.
    destruct (s_resolvedFrom (resolveSchema s rootSpec)) as [name|];
      [destruct (Str.nonEmpty name)|].
    - repeat split.
      + rewrite length_insert. lia.
      + intros l' _ Hne. apply list_lookup_insert_ne. auto.
      + apply list_lookup_insert_eq. exact Hl.
    - repeat split; auto.
    - repeat split; auto. }
  pose proof (forEach_sim (Store.keeps h l V)
                (fun c st => Store.withCopy selfS c p r l st)
                (fun c rows => selfV c p r rows V) (polymorphic resolved)
                (fun c st HI => withCopy_sim h l V c p r st Hl HI) (rows, h1) K1) as S1.
  simpl in S1. unfold Store.sim in S1.
  destruct (Store.forEach _ (polymorphic resolved) (rows, h1)) as [[rows1 h2]|];
    [destruct S1 as [-> K2]|rewrite S1; reflexivity]; simpl in *.
  assert (S2 : Store.sim (Store.keeps h l V)
            (Store.flattenProperties selfS resolved p l
               (pushNode resolved p r (s_ref s) rows1, h2))
            (flattenProperties selfV resolved p V (pushNode resolved p r (s_ref s) rows1))).
  { unfold Store.flattenProperties, flattenProperties.
    destruct (s_properties resolved) as [props|]; [|split; [reflexivity|exact K2]].
    apply (forEach_sim (Store.keeps h l V)
             (fun kp st => Store.withCopy selfS (snd kp) _ _ l st)
             (fun kp rows => selfV (snd kp) _ _ rows V)); [|exact K2].
    intros kp st HI. apply withCopy_sim; auto. }
  unfold Store.sim in S2.
  destruct (Store.flattenProperties _ _ _ _ _) as [[rows2 h3]|];
    [destruct S2 as [-> K3]|rewrite S2; reflexivity]; simpl in *.
  assert (S3 : Store.sim (Store.keeps h l V)
            (Store.flattenAdditional selfS resolved p l (rows2, h3))
            (flattenAdditional selfV resolved p V rows2)).
  { unfold Store.flattenAdditional, flattenAdditional.
    destruct (s_additionalProperties resolved) as [[[]|value]|];
      try (split; [reflexivity|exact K3]).
    apply (withCopy_sim h l V value _ _ (rows2, h3)); auto. }
  unfold Store.sim in S3.
  destruct (Store.flattenAdditional _ _ _ _ _) as [[rows3 h4]|];
    [destruct S3 as [-> K4]|rewrite S3; reflexivity]; simpl in *.
  assert (S4 : Store.sim (Store.keeps h l V)
            (Store.flattenItems selfS resolved p l (rows3, h4))
            (flattenItems selfV resolved p V rows3)).
  { unfold Store.flattenItems, flattenItems.
    destruct (s_items resolved) as [items|]; [|split; [reflexivity|exact K4]].
    destruct (String.eqb (nodeType resolved) "array"); [|split; [reflexivity|exact K4]].
    apply (withCopy_sim h l V items _ _ (rows3, h4)); auto. }
  unfold Store.sim in S4.
  destruct (Store.flattenItems _ _ _ _ _) as [[rows4 h5]|]; [|exact S4].
  destruct S4 as [-> (Hlen & Hframe & Hat)]. simpl. repeat split; auto.
Qed.

End StoreFacts.

Lemma flattenSchema_agrees rootSpec fuel : forall s p r rows h l,
  l < length h ->
  Store.agrees rootSpec s h l
    (Store.flattenSchema fuel rootSpec s p r (rows, h) l)
    (flattenSchema fuel rootSpec s p r rows (Store.contents h l)).
Proof.
  induction fuel as [|fuel IH]; intros s p r rows h l Hl.
  - reflexivity.
  - simpl. apply flattenBody_agrees; auto.
Qed.

(** ** Flattener: fuel, and rows that are only ever appended *)

Section BodyFacts.

Variable rootSpec : registry.

Local Abbreviation selfT :=
  (schema -> string -> bool -> list FlatSchemaRow -> gset string
   -> option (list FlatSchemaRow)).

(** A property of one call: of its input rows and the rows it returns. *)
Variable P : list FlatSchemaRow -> list FlatSchemaRow -> Prop.
Hypothesis P_refl : forall rows, P rows rows.
Hypothesis P_trans : forall a b c, P a b -> P b c -> P a c.
Hypothesis P_push : forall rows row, P rows (rows ++ [row]).

Lemma forEachRows_invariant {A} (f : A -> list FlatSchemaRow -> option (list FlatSchemaRow)) xs :
  (forall x rows rows', f x rows = Some rows' -> P rows rows') ->
  forall rows rows', forEachRows f xs rows = Some rows' -> P rows rows'.
Proof.
  intros Hf. induction xs as [|x xs IH]; intros rows rows'; simpl.
  - intros [= <-]. apply P_refl.
  - destruct (f x rows) as [rows1|] eqn:E; [|discriminate].
    intros H. eapply P_trans; [eapply Hf, E|eapply IH, H].
Qed.

Lemma pushNode_invariant resolved p r oref rows :
  P rows (pushNode resolved p r oref rows).
Proof.
  unfold pushNode. destruct (emitsRow _ _ _); [|apply P_refl].
  destruct (existsb _ rows); [apply P_refl|apply P_push].
Qed.

Lemma flattenBody_invariant (self : selfT) :
  (forall s p r rows V rows', self s p r rows V = Some rows' -> P rows rows') ->
  forall s p r rows V rows',
    flattenBody self rootSpec s p r rows V = Some rows' -> P rows rows'.
Proof.
  intros Hself s p r rows V rows'. unfold flattenBody, flattenBodyWith.
  destruct (cycleAt _ V) as [name|]; [intros [= <-]; apply P_push|].
  set (V' := visit _ V). set (resolved := mergeAllOf _ _).
  destruct (forEachRows _ (polymorphic resolved) rows) as [rows1|] eqn:E1;
    [|discriminate]; simpl.
  destruct (flattenProperties self resolved p V' _) as [rows2|] eqn:E2;
    [|discriminate]; simpl.
  destruct (flattenAdditional self resolved p V' rows2) as [rows3|] eqn:E3;
    [|discriminate]; simpl.
  intros E4.
  apply P_trans with rows1.
  { eapply forEachRows_invariant; [|exact E1]. intros x a b Hx. exact (Hself _ _ _ _ _ _ Hx). }
  apply P_trans with (pushNode resolved p r (s_ref s) rows1);
    [apply pushNode_invariant|].
  apply P_trans with rows2.
  { unfold flattenProperties in E2.
    destruct (s_properties resolved); [|injection E2 as <-; apply P_refl].
    eapply forEachRows_invariant; [|exact E2]. intros x a b Hx. exact (Hself _ _ _ _ _ _ Hx). }
  apply P_trans with rows3.
  { unfold flattenAdditional in E3.
    destruct (s_additionalProperties resolved) as [[[]|a]|];
      try (injection E3 as <-; first [apply P_refl|apply P_push]).
    eapply Hself, E3. }
  unfold flattenItems in E4.
  destruct (s_items resolved); [|injection E4 as <-; apply P_refl].
  destruct (String.eqb _ _); [|injection E4 as <-; apply P_refl].
  eapply Hself, E4.
Qed.

End BodyFacts.

Lemma flattenSchema_invariant (P : list FlatSchemaRow -> list FlatSchemaRow -> Prop) :
  (forall rows, P rows rows) ->
  (forall a b c, P a b -> P b c -> P a c) ->
  (forall rows row, P rows (rows ++ [row])) ->
  forall fuel rootSpec s p r rows V rows',
    flattenSchema fuel rootSpec s p r rows V = Some rows' -> P rows rows'.
Proof.
  intros H1 H2 H3. induction fuel as [|fuel IH]; intros rootSpec s p r rows V rows'.
  - discriminate.
  - simpl. apply flattenBody_invariant; auto. intros; eapply IH; eauto.
Qed.

(** Rows are only ever appended to the shared array. *)
Lemma flattenSchema_extends fuel rootSpec s p r rows V rows' :
  flattenSchema fuel rootSpec s p r rows V = Some rows' ->
  exists added, rows' = rows ++ added.
Proof.
  apply (flattenSchema_invariant (fun a b => exists added, b = a ++ added)).
  - intros a. exists []. by rewrite app_nil_r.
  - intros a b c [x ->] [y ->]. exists (x ++ y). by rewrite app_assoc.
  - intros a row. by exists [row].
Qed.

Lemma forEachRows_extends {A} fuel (rootSpec : registry)
    (g : A -> schema * string * bool * gset string) xs rows rows' :
  forEachRows
    (fun x acc => flattenSchema fuel rootSpec (g x).1.1.1 (g x).1.1.2 (g x).1.2 acc (g x).2)
    xs rows = Some rows' ->
  exists added, rows' = rows ++ added.
Proof.
  revert rows. induction xs as [|x xs IH]; intros rows; simpl.
  - intros [= <-]. exists []. by rewrite app_nil_r.
  - destruct (flattenSchema fuel _ _ _ _ rows _) as [acc|] eqn:E; [|discriminate].
    intros H. apply flattenSchema_extends in E as [a ->].
    apply IH in H as [c ->]. exists (a ++ c). by rewrite app_assoc.
Qed.

Section FuelFacts.

Variable rootSpec : registry.

Local Abbreviation selfT :=
  (schema -> string -> bool -> list FlatSchemaRow -> gset string
   -> option (list FlatSchemaRow)).

Lemma forEachRows_mono {A} (f g : A -> list FlatSchemaRow -> option (list FlatSchemaRow)) xs :
  (forall x rows rows', f x rows = Some rows' -> g x rows = Some rows') ->
  forall rows rows', forEachRows f xs rows = Some rows' -> forEachRows g xs rows = Some rows'.
Proof.
  intros Hfg. induction xs as [|x xs IH]; intros rows rows'; simpl; [done|].
  destruct (f x rows) as [rows1|] eqn:E; [|discriminate].
  rewrite (Hfg _ _ _ E). apply IH.
Qed.

Lemma flattenBody_mono (self1 self2 : selfT) :
  (forall s p r rows V rows', self1 s p r rows V = Some rows' ->
                              self2 s p r rows V = Some rows') ->
  forall s p r rows V rows',
    flattenBody self1 rootSpec s p r rows V = Some rows' ->
    flattenBody self2 rootSpec s p r rows V = Some rows'.
Proof.
  intros H s p r rows V rows'. unfold flattenBody, flattenBodyWith.
  destruct (cycleAt _ V) as [name|]; [done|].
  set (V' := visit _ V). set (resolved := mergeAllOf _ _).
  destruct (forEachRows _ (polymorphic resolved) rows) as [rows1|] eqn:E1;
    [|discriminate]; simpl.
  erewrite forEachRows_mono; [| |exact E1]; [|intros x a b Hx; exact (H _ _ _ _ _ _ Hx)]. simpl.
  destruct (flattenProperties self1 resolved p V' _) as [rows2|] eqn:E2;
    [|discriminate]; simpl.
  assert (E2' : flattenProperties self2 resolved p V'
                  (pushNode resolved p r (s_ref s) rows1) = Some rows2).
  { unfold flattenProperties in *. destruct (s_properties resolved); [|done].
    eapply forEachRows_mono; [|exact E2]. intros x a b Hx. exact (H _ _ _ _ _ _ Hx). }
  rewrite E2'; simpl.
  destruct (flattenAdditional self1 resolved p V' rows2) as [rows3|] eqn:E3;
    [|discriminate]; simpl.
  assert (E3' : flattenAdditional self2 resolved p V' rows2 = Some rows3).
  { unfold flattenAdditional in *.
    destruct (s_additionalProperties resolved) as [[[]|a]|]; auto. }
  rewrite E3'; simpl.
  unfold flattenItems. destruct (s_items resolved); [|done].
  destruct (String.eqb _ _); auto.
Qed.

End FuelFacts.

(** More fuel does not change a result. *)
Lemma flattenSchema_fuel_mono rootSpec fuel : forall fuel' s p r rows V rows',
  fuel <= fuel' ->
  flattenSchema fuel rootSpec s p r rows V = Some rows' ->
  flattenSchema fuel' rootSpec s p r rows V = Some rows'.
Proof.
  induction fuel as [|fuel IH]; intros fuel' s p r rows V rows' Hle; [discriminate|].
  destruct fuel' as [|fuel']; [lia|]. simpl.
  apply flattenBody_mono. intros; eapply IH; eauto. lia.
Qed.

(** ** Flattener: termination when no [allOf] is involved *)

Lemma resolveSchema_cases s (rootSpec : registry) :
  resolveSchema s rootSpec = s
  \/ exists name target,
       rootSpec !! name = Some target /\ resolveSchema s rootSpec = resolvedFrom name target.
Proof.
  unfold resolveSchema. destruct (s_ref s) as [r|]; [|by left].
  destruct (Str.nonEmpty r); [|by left].
  destruct (rootSpec !! _) as [target|] eqn:E; [|by left].
  right. eauto.
Qed.

Lemma sum_list_elem_le {A} (f : A -> nat) x (l : list A) :
  x ∈ l -> f x <= sum_list (f <$> l).
Proof.
  induction l as [|y l IH]; [by intros ?%elem_of_nil|].
  intros [->|Hin]%elem_of_cons; csimpl; [lia|]. specialize (IH Hin). lia.
Qed.

Lemma children_weight c s : c ∈ children s -> weight c < weight s.
Proof.
  unfold children. destruct s as [rf ty d ps rq it ad ao oo an en ex rs]; simpl.
  rewrite !elem_of_app. intros [H|[H|[H|[H|H]]]].
  - destruct ps as [ps|]; simpl in H; [|by apply elem_of_nil in H].
    apply list_elem_of_fmap in H as [kp [-> Hin]].
    pose proof (sum_list_elem_le (fun kp => weight (snd kp)) kp ps Hin). simpl in *. lia.
  - destruct ad as [[b|a]|]; try by apply elem_of_nil in H.
    apply list_elem_of_singleton in H as ->. lia.
  - destruct it as [i|]; [|by apply elem_of_nil in H].
    apply list_elem_of_singleton in H as ->. lia.
  - destruct oo as [bs|]; simpl in H; [|by apply elem_of_nil in H].
    pose proof (sum_list_elem_le weight c bs H). lia.
  - destruct an as [bs|]; simpl in H; [|by apply elem_of_nil in H].
    pose proof (sum_list_elem_le weight c bs H). lia.
Qed.

Lemma children_noAllOf c s : noAllOf s = true -> c ∈ children s -> noAllOf c = true.
Proof.
  unfold children. destruct s as [rf ty d ps rq it ad ao oo an en ex rs]; simpl.
  rewrite !andb_true_iff. intros (((((_ & Hps) & Had) & Hit) & Hoo) & Han).
  rewrite !elem_of_app. intros [H|[H|[H|[H|H]]]].
  - destruct ps as [ps|]; simpl in H; [|by apply elem_of_nil in H].
    apply list_elem_of_fmap in H as [kp [-> Hin]].
    rewrite forallb_forall in Hps. apply Hps. by apply list_elem_of_In.
  - destruct ad as [[b|a]|]; try by apply elem_of_nil in H.
    by apply list_elem_of_singleton in H as ->.
  - destruct it as [i|]; [|by apply elem_of_nil in H].
    by apply list_elem_of_singleton in H as ->.
  - destruct oo as [bs|]; simpl in H; [|by apply elem_of_nil in H].
    rewrite forallb_forall in Hoo. apply Hoo. by apply list_elem_of_In.
  - destruct an as [bs|]; simpl in H; [|by apply elem_of_nil in H].
    rewrite forallb_forall in Han. apply Han. by apply list_elem_of_In.
Qed.

Lemma regBound_le (rootSpec : registry) name target :
  rootSpec !! name = Some target -> weight target <= regBound rootSpec.
Proof.
  intros H. unfold regBound. apply max_list_elem_of_le.
  apply list_elem_of_fmap. exists (name, target). split; [done|].
  by apply elem_of_map_to_list.
Qed.

Lemma forEachRows_is_Some {A} (f : A -> list FlatSchemaRow -> option (list FlatSchemaRow)) xs :
  (forall x rows, x ∈ xs -> is_Some (f x rows)) ->
  forall rows, is_Some (forEachRows f xs rows).
Proof.
  induction xs as [|x xs IH]; intros Hf rows; simpl; [by eexists|].
  destruct (Hf x rows) as [rows1 ->]; [by left|].
  apply IH. intros y rows' Hy. apply Hf. by right.
Qed.

Lemma flattenBody_is_Some rootSpec self s p r rows V :
  s_allOf (resolveSchema s rootSpec) = None ->
  (forall c p r rows, c ∈ children (resolveSchema s rootSpec) ->
     is_Some (self c p r rows (visit (resolveSchema s rootSpec) V))) ->
  is_Some (flattenBody self rootSpec s p r rows V).
Proof.
  intros HnoAll Hself. unfold flattenBody, flattenBodyWith.
  destruct (cycleAt _ V); [by eexists|].
  unfold mergeAllOf. rewrite HnoAll.
  set (resolved := resolveSchema s rootSpec) in *. set (V' := visit resolved V) in *.
  unfold children in Hself.
  destruct (forEachRows_is_Some (fun c rows => self c p r rows V') (polymorphic resolved))
    with (rows := rows) as [rows1 ->].
  { intros c rows0 Hc. apply Hself. rewrite !elem_of_app.
    unfold polymorphic in Hc. destruct (s_oneOf resolved); simpl; [auto|].
    destruct (s_anyOf resolved); simpl; [auto 6|]. by apply elem_of_nil in Hc. }
  simpl.
  assert (H2 : forall rows0, is_Some (flattenProperties self resolved p V' rows0)).
  { intros rows0. unfold flattenProperties.
    destruct (s_properties resolved) as [ps|] eqn:Eps; [|by eexists].
    apply forEachRows_is_Some. intros kp rows3 Hkp. apply Hself.
    rewrite !elem_of_app. left. simpl. apply list_elem_of_fmap. eauto. }
  destruct (H2 (pushNode resolved p r (s_ref s) rows1)) as [rows2 ->]. simpl.
  assert (H3 : is_Some (flattenAdditional self resolved p V' rows2)).
  { unfold flattenAdditional.
    destruct (s_additionalProperties resolved) as [[[]|a]|] eqn:Ead; try by eexists.
    apply Hself. rewrite !elem_of_app. right; left. by left. }
  destruct H3 as [rows3 ->]. simpl.
  unfold flattenItems. destruct (s_items resolved) as [i|] eqn:Eit; [|by eexists].
  destruct (String.eqb _ _); [|by eexists].
  apply Hself. rewrite !elem_of_app. right; right; left. by left.
Qed.

Lemma cycleAt_None_visit name target (V : gset string) :
  cycleAt (resolvedFrom name target) V = None -> name <> "" ->
  (name ∉ V) /\ visit (resolvedFrom name target) V = {[name]} ∪ V.
Proof.
  unfold cycleAt, visit; simpl. intros H Hne.
  assert (Hn : Str.nonEmpty name = true).
  { unfold Str.nonEmpty. destruct (String.eqb_spec name ""); done. }
  rewrite Hn in *. rewrite andb_true_l in H. case_bool_decide; [discriminate|]. done.
Qed.

Lemma visit_superset resolved (V : gset string) : V ⊆ visit resolved V.
Proof.
  unfold visit. destruct (s_resolvedFrom resolved) as [name|]; [|done].
  destruct (Str.nonEmpty name); set_solver.
Qed.

Lemma flattenSchema_terminates (rootSpec : registry) :
  rootSpec !! "" = None ->
  (forall name target, rootSpec !! name = Some target -> noAllOf target = true) ->
  forall fuel s p r rows V,
    noAllOf s = true -> fuelFor rootSpec s V <= fuel ->
    is_Some (flattenSchema fuel rootSpec s p r rows V).
Proof.
  intros Hempty Hreg. induction fuel as [|fuel IH]; intros s p r rows V Hs Hfuel.
  - unfold fuelFor in Hfuel. lia.
  - simpl. unfold fuelFor in Hfuel.
    destruct (cycleAt (resolveSchema s rootSpec) V) as [nm|] eqn:Hcyc.
    { unfold flattenBody, flattenBodyWith. rewrite Hcyc. by eexists. }
    destruct (resolveSchema_cases s rootSpec) as [Hres|(name & target & Hlook & Hres)].
    + rewrite Hres in Hcyc.
      apply flattenBody_is_Some; rewrite Hres.
      { destruct s; simpl in *. by destruct s_allOf0. }
      intros c p' r' rows' Hc. apply IH; [eapply children_noAllOf; eauto|].
      unfold fuelFor. pose proof (children_weight c s Hc).
      assert (size (dom rootSpec ∖ visit s V) <= size (dom rootSpec ∖ V)).
      { apply subseteq_size. pose proof (visit_superset s V). set_solver. }
      nia.
    + rewrite Hres in Hcyc.
      assert (Hne : name <> "") by (intros ->; congruence).
      destruct (cycleAt_None_visit _ _ _ Hcyc Hne) as [Hnotin Hvisit].
      pose proof (Hreg _ _ Hlook) as Htarget.
      apply flattenBody_is_Some; rewrite Hres.
      { destruct target; simpl in *. by destruct s_allOf0. }
      rewrite Hvisit.
      intros c p' r' rows' Hc.
      assert (Hc' : c ∈ children target) by (destruct target; exact Hc).
      apply IH; [eapply children_noAllOf; eauto|].
      unfold fuelFor. pose proof (children_weight c target Hc').
      pose proof (regBound_le _ _ _ Hlook).
      assert (size (dom rootSpec ∖ ({[name]} ∪ V)) < size (dom rootSpec ∖ V)).
      { apply subset_size. apply elem_of_dom_2 in Hlook. set_solver. }
      nia.
Qed.

(** ** Flattener: the cycle guard *)

Lemma cycleAt_Some resolved (V : gset string) name :
  cycleAt resolved V = Some name <->
  s_resolvedFrom resolved = Some name /\ name <> "" /\ name ∈ V.
Proof.
  unfold cycleAt. destruct (s_resolvedFrom resolved) as [n|]; [|naive_solver].
  unfold Str.nonEmpty. destruct (String.eqb_spec n ""); simpl.
  - naive_solver.
  - case_bool_decide; naive_solver.
Qed.

Lemma allOf_cycle_diverges fuel : forall p r rows V,
  flattenSchema fuel allOfReg (allOf [refTo "#/components/schemas/B"]) p r rows V = None.
Proof.
  induction fuel as [|fuel IH]; intros p r rows V; [reflexivity|].
  simpl. unfold flattenBody, flattenBodyWith.
  change (resolveSchema (allOf [refTo "#/components/schemas/B"]) allOfReg)
    with (allOf [refTo "#/components/schemas/B"]).
  change (cycleAt (allOf [refTo "#/components/schemas/B"]) V) with (@None string).
  change (visit (allOf [refTo "#/components/schemas/B"]) V) with V.
  assert (Hm : mergeAllOf allOfReg (allOf [refTo "#/components/schemas/B"])
               = Schema None None None
                   (Some [("x", allOf [refTo "#/components/schemas/B"])]) (Some [])
                   None None (Some [refTo "#/components/schemas/B"]) None None None None None)
    by (vm_compute; reflexivity).
  rewrite Hm. simpl. unfold flattenProperties. simpl. rewrite IH. reflexivity.
Qed.



Lemma abReg_noAllOf : map_Forall (fun _ target => noAllOf target = true) abReg.
Proof.
  intros name target. unfold abReg.
  rewrite lookup_insert_Some, lookup_singleton_Some. naive_solver.
Qed.


(** ** Flattener: the phases of one call *)

(** One call that the guard does not stop first runs the alternatives, then
    pushes the row of the node, then descends; the rows of each phase are
    appended to those of the phase before. *)
Lemma flattenSchema_phases fuel (rootSpec : registry) s p r rows (V : gset string) rows' :
  cycleAt (resolveSchema s rootSpec) V = None ->
  flattenSchema (S fuel) rootSpec s p r rows V = Some rows' ->
  exists rows1 below,
    forEachRows
      (fun b acc => flattenSchema fuel rootSpec b p r acc (visit (resolveSchema s rootSpec) V))
      (polymorphic (mergeAllOf rootSpec (resolveSchema s rootSpec))) rows = Some rows1
    /\ rows' = pushNode (mergeAllOf rootSpec (resolveSchema s rootSpec)) p r (s_ref s) rows1
               ++ below.
Proof.
  intros Hc. simpl. unfold flattenBody, flattenBodyWith. rewrite Hc.
  set (V' := visit _ V). set (resolved := mergeAllOf _ _).
  destruct (forEachRows _ (polymorphic resolved) rows) as [rows1|] eqn:E1;
    [|discriminate]; simpl.
  destruct (flattenProperties _ resolved p V' _) as [rows2|] eqn:E2;
    [|discriminate]; simpl.
  destruct (flattenAdditional _ resolved p V' rows2) as [rows3|] eqn:E3;
    [|discriminate]; simpl.
  intros E4. exists rows1.
  assert (H2 : exists a, rows2 = pushNode resolved p r (s_ref s) rows1 ++ a).
  { unfold flattenProperties in E2.
    destruct (s_properties resolved); [|injection E2 as <-; exists []; by rewrite app_nil_r].
    exact (forEachRows_extends fuel rootSpec
             (fun kp => (snd kp, childPathOf p (fst kp),
                         existsb (String.eqb (fst kp)) (default [] (s_required resolved)), V'))
             _ _ _ E2). }
  destruct H2 as [a ->].
  assert (H3 : exists b, rows3 = (pushNode resolved p r (s_ref s) rows1 ++ a) ++ b).
  { unfold flattenAdditional in E3.
    destruct (s_additionalProperties resolved) as [[[]|v]|].
    - injection E3 as <-. eauto.
    - injection E3 as <-. exists []. by rewrite app_nil_r.
    - by apply flattenSchema_extends in E3.
    - injection E3 as <-. exists []. by rewrite app_nil_r. }
  destruct H3 as [b ->].
  assert (H4 : exists c, rows' = ((pushNode resolved p r (s_ref s) rows1 ++ a) ++ b) ++ c).
  { unfold flattenItems in E4.
    destruct (s_items resolved); [|injection E4 as <-; exists []; by rewrite app_nil_r].
    destruct (String.eqb _ _); [|injection E4 as <-; exists []; by rewrite app_nil_r].
    by apply flattenSchema_extends in E4. }
  destruct H4 as [c ->]. exists (a ++ b ++ c). split; [reflexivity|].
  by rewrite <- !app_assoc.
Qed.

(** The two nested guards of the node row amount to one disjunction: the
    path is not empty, or the node arrived through a reference, or its type
    is array. *)
Lemma pushNode_spec resolved p r oref rows :
  pushNode resolved p r oref rows
  = if (Str.nonEmpty p || truthy oref || String.eqb (nodeType resolved) "array")
       && negb (existsb (sameRow p (nodeType resolved) (orElse (s_description resolved) ""))
                  rows)
    then rows ++ [nodeRow resolved p r oref]
    else rows.
Proof.
  unfold pushNode, emitsRow, nodeRow.
  destruct (Str.nonEmpty p), (truthy oref); simpl; rewrite ?orb_true_r; simpl;
    try (destruct (existsb _ rows); reflexivity).
  destruct (String.eqb_spec (nodeType resolved) "array") as [e|]; simpl; [|reflexivity].
  rewrite e. simpl. destruct (existsb _ rows); reflexivity.
Qed.

Lemma nodeType_spec resolved :
  nodeType resolved
  = match s_type resolved with
    | Some (String a t) => String a t
    | _ => match s_properties resolved with Some _ => "object" | None => "string" end
    end.
Proof.
  unfold nodeType, orElse. destruct (s_type resolved) as [[|a t]|]; reflexivity.
Qed.




(** ** Flattener: [oneOf] and [anyOf] *)

Lemma sameRow_spec p t d row :
  sameRow p t d row = true <-> path row = p /\ type row = t /\ description row = d.
Proof.
  unfold sameRow. rewrite !andb_true_iff, !String.eqb_eq. tauto.
Qed.




(** ** Flattener: [allOf] *)

Lemma objGet_objSet {A} k k' (v : A) o :
  objGet k (objSet k' v o) = if String.eqb k' k then Some v else objGet k o.
Proof.
  induction o as [|[k0 v0] o IH]; simpl.
  - destruct (String.eqb k' k); reflexivity.
  - destruct (String.eqb_spec k0 k') as [->|Hne]; simpl.
    + destruct (String.eqb k' k); reflexivity.
    + rewrite IH. destruct (String.eqb_spec k0 k) as [->|]; [|reflexivity].
      destruct (String.eqb_spec k' k) as [->|]; [contradiction|reflexivity].
  Qed.

Lemma objGet_None {A} k (o : list (string * A)) :
  k ∉ o.*1 -> objGet k o = None.
Proof.
  induction o as [|[k0 v0] o IH]; simpl; [done|].
  rewrite not_elem_of_cons. intros [Hne Hnin].
  destruct (String.eqb_spec k0 k); [congruence|auto].
Qed.

(** On a source without repeated keys, [Object.assign] gives every key of
    the source the value it has there and leaves the others. *)
Lemma objGet_objAssign {A} k (source : list (string * A)) : forall target,
  NoDup source.*1 ->
  objGet k (objAssign target source)
  = match objGet k source with Some v => Some v | None => objGet k target end.
Proof.
  unfold objAssign.
  induction source as [|[k0 v0] source IH]; intros target Hnd; simpl; [done|].
  apply NoDup_cons in Hnd as [Hnin Hnd]. rewrite IH by done.
  rewrite objGet_objSet.
  destruct (String.eqb_spec k0 k) as [->|]; [|reflexivity].
  rewrite objGet_None by done. reflexivity.
Qed.

Lemma mergeBranches_snoc (rootSpec : registry) bs b :
  mergeBranches rootSpec (bs ++ [b]) = mergeBranch rootSpec (mergeBranches rootSpec bs) b.
Proof. unfold mergeBranches. by rewrite fold_left_app. Qed.

(** C6: the branches of [allOf] are merged one after the other in the
    order of the array.  The merged [properties] give each name the
    definition of the last branch that defines it, [required] is the
    concatenation of the branches' lists, [additionalProperties] is that of
    the last branch that has a truthy one, and the three replace the keys of
    the node.  The example of the specification yields the single row of
    [x] with type [integer]. *)
Theorem allOf_merge (rootSpec : registry) :
  (forall bs b,
      mergeBranches rootSpec (bs ++ [b])
      = mergeBranch rootSpec (mergeBranches rootSpec bs) b)
  /\ (forall bs k,
        Forall (fun b => NoDup (default [] (s_properties (resolveSchema b rootSpec))).*1) bs ->
        objGet k (m_properties (mergeBranches rootSpec bs))
        = lastDefinition k ((fun b => resolveSchema b rootSpec) <$> bs))
  /\ (forall bs,
        m_required (mergeBranches rootSpec bs)
        = concat ((fun b => default [] (s_required (resolveSchema b rootSpec))) <$> bs))
  /\ (forall bs,
        m_additionalProperties (mergeBranches rootSpec bs)
        = lastAdditional ((fun b => resolveSchema b rootSpec) <$> bs))
  /\ (forall resolved bs,
        s_allOf resolved = Some bs ->
        s_properties (mergeAllOf rootSpec resolved)
        = Some (m_properties (mergeBranches rootSpec bs))
        /\ s_required (mergeAllOf rootSpec resolved)
           = Some (m_required (mergeBranches rootSpec bs))
        /\ s_additionalProperties (mergeAllOf rootSpec resolved)
           = match m_additionalProperties (mergeBranches rootSpec bs) with
             | Some a => Some a
             | None => s_additionalProperties resolved
             end)
  /\ flattenSchema 2 rootSpec
       (allOf [propsOnly [("x", typed "string")]; propsOnly [("x", typed "integer")]])
       "" false [] ∅
     = Some [plainRow "x" "integer"].
Proof.
  split; [apply mergeBranches_snoc|]. split.
  { intros bs k. induction bs as [|b bs IH] using rev_ind; intros Hnd; [reflexivity|].
    apply Forall_app in Hnd as [Hbs Hb]. apply Forall_inv in Hb.
    rewrite mergeBranches_snoc, fmap_app. unfold lastDefinition.
    rewrite fold_left_app. fold (lastDefinition k ((fun b => resolveSchema b rootSpec) <$> bs)).
    rewrite <- IH by done. unfold mergeBranch. csimpl.
    destruct (s_properties (resolveSchema b rootSpec)) as [ps|]; csimpl; [|reflexivity].
    simpl in Hb. by apply objGet_objAssign. }
  split.
  { intros bs. induction bs as [|b bs IH] using rev_ind; [reflexivity|].
    rewrite mergeBranches_snoc, fmap_app, concat_app. simpl.
    rewrite <- IH, app_nil_r.
    destruct (s_required (resolveSchema b rootSpec)); simpl; [done|by rewrite app_nil_r]. }
  split.
  { intros bs. induction bs as [|b bs IH] using rev_ind; [reflexivity|].
    rewrite mergeBranches_snoc, fmap_app. unfold lastAdditional.
    rewrite fold_left_app. fold (lastAdditional ((fun b => resolveSchema b rootSpec) <$> bs)).
    rewrite <- IH. reflexivity. }
  split.
  { intros resolved bs H. unfold mergeAllOf. rewrite H. simpl. done. }
  simpl. unfold flattenBody, flattenBodyWith.
  replace (resolveSchema _ rootSpec)
    with (allOf [propsOnly [("x", typed "string")]; propsOnly [("x", typed "integer")]])
    by reflexivity.
  reflexivity.
Qed.

(** ** Reconstructor: the array whose row comes first *)

(** C4: the reconstructor throws on the rows of an array property in the
    order the flattener emits them: the row of [tags] creates the property
    without [items], and the row of [tags[]] then reads [items] of it. *)
Theorem unflattenSchema_throws :
  unflattenSchema [plainRow "tags" "array"; plainRow "tags[]" "string"]
  = Throw undefinedAccess
  /\ flattenSchema 3 ∅ (object None [("tags", array (typed "string"))]) "" false [] ∅
     = Some [plainRow "tags" "array"; plainRow "tags[]" "string"].
Proof. split; vm_compute; reflexivity. Qed.

(** ** Reconstructor: the root *)

Lemma walk_root row part rest current current' :
  walk row (part :: rest) current = Ok current' ->
  s_description current' = s_description current
  /\ s_ref current' = s_ref current
  /\ s_type current'
     = if String.eqb (cleanPartOf part) "" then Some "array" else s_type current.
Proof.
  simpl. destruct (String.eqb (cleanPartOf part) "").
  - case_bool_decide as Ht.
    + destruct (s_items current) as [item|]; [|discriminate].
      destruct (walk row rest _); [|discriminate]. intros [= <-]. simpl. auto.
    + simpl. destruct (walk row rest _); [|discriminate]. intros [= <-]. simpl. auto.
  - destruct (_ || _).
    + destruct (addlTruthy (s_additionalProperties current)).
      * destruct (s_additionalProperties current) as [[b|v]|]; try discriminate.
        destruct (walk row rest _); [|discriminate]. intros [= <-]. simpl. auto.
      * simpl. destruct (walk row rest _); [|discriminate]. intros [= <-]. simpl. auto.
    + destruct (Str.endsWith part "[]").
      * destruct (s_items _) as [item|]; [|discriminate].
        destruct (walk row rest _); [|discriminate]. intros [= <-]. simpl. auto.
      * destruct (walk row rest _); [|discriminate]. intros [= <-]. simpl. auto.
Qed.

Lemma split_cons c s : exists part rest, Str.split c s = part :: rest.
Proof.
  destruct s as [|a s]; simpl; [eauto|].
  destruct (Ascii.eqb a c); [eauto|]. destruct (Str.split c s); eauto.
Qed.

Lemma unflattenRows_root rows : forall root skipped st',
  unflattenRows rows (root, skipped) = Ok st' ->
  s_description (fst st') = s_description root
  /\ s_ref (fst st') = s_ref root
  /\ s_type (fst st')
     = if existsb startsAtRootArray (processedRows rows skipped)
       then Some "array" else s_type root.
Proof.
  induction rows as [|row rows IH]; intros root skipped st'; simpl.
  - intros [= <-]. auto.
  - unfold unflattenRow. simpl.
    destruct (negb (Str.nonEmpty (path row))); simpl; [apply IH|].
    destruct (isSkipped skipped (path row)); simpl; [apply IH|].
    unfold startsAtRootArray at 1.
    destruct (split_cons "." (path row)) as (part & rest & Hsplit). rewrite Hsplit.
    destruct (walk row (part :: rest) root) as [root1|] eqn:Hwalk; [|discriminate].
    apply walk_root in Hwalk as (Hd & Hr & Ht).
    intros H. apply IH in H as (Hd' & Hr' & Ht').
    rewrite Hd', Hr', Ht', Hd, Hr, Ht. split; [done|]. split; [done|].
    destruct (String.eqb (cleanPartOf part) ""); simpl; [|done].
    by destruct (existsb _ _).
Qed.

Lemma unflattenRows_empty_paths rows : forall st,
  unflattenRows (filter (fun row => path row <> "") rows) st = unflattenRows rows st.
Proof.
  induction rows as [|row rows IH]; intros st; [reflexivity|].
  rewrite filter_cons. destruct (decide (path row <> "")) as [Hne|He]; simpl.
  - destruct (unflattenRow st row); [apply IH|reflexivity].
  - assert (path row = "") as Hp by (destruct (decide (path row = "")); tauto).
    unfold unflattenRow. rewrite Hp. simpl. apply IH.
Qed.

(** C10 as stated fails: the root becomes an array on a path whose first
    segment is empty without the suffix, as [.a] is. *)
Lemma unflattenSchema_root_array_without_suffix :
  exists root,
    unflattenSchema [plainRow ".a" "integer"] = Ok root
    /\ s_type root = Some "array"
    /\ Str.startsWith ".a" "[]" = false
    /\ Str.split "." ".a" = [""; "a"].
Proof. eexists. repeat split. Qed.

(** C10, as the code has it.  The rows with an empty path can be removed
    without changing the outcome.  When the reconstructor returns, the root
    has no description and no reference, and its type is [array] when some
    row that was not discarded has a first segment that is empty, with or
    without the suffix [[]], and [object] otherwise. *)
Theorem unflattenSchema_root rows :
  unflattenSchema (filter (fun row => path row <> "") rows) = unflattenSchema rows
  /\ forall root,
       unflattenSchema rows = Ok root ->
       s_description root = None
       /\ s_ref root = None
       /\ s_type root
          = Some (if existsb startsAtRootArray (processedRows rows []) then "array"
                  else "object").
Proof.
  split.
  - unfold unflattenSchema. by rewrite unflattenRows_empty_paths.
  - unfold unflattenSchema. intros root.
    destruct (unflattenRows rows (freshObject, [])) as [st'|] eqn:H; [|discriminate].
    intros [= <-]. apply unflattenRows_root in H as (-> & -> & ->).
    simpl. by destruct (existsb _ _).
Qed.

(** A row with an empty path between two others leaves no trace, and a
    first segment [[]] makes the root an array. *)
Lemma unflattenSchema_root_witness :
  unflattenSchema [plainRow "" "array"; plainRow "[]" "string"]
  = unflattenSchema [plainRow "[]" "string"]
  /\ exists root,
       unflattenSchema [plainRow "" "array"; plainRow "[]" "string"] = Ok root
       /\ s_description root = None /\ s_ref root = None /\ s_type root = Some "array".
Proof.
  split; [reflexivity|].
  eexists. split; [reflexivity|].
  exact (proj2 (unflattenSchema_root [plainRow "" "array"; plainRow "[]" "string"])
           _ eq_refl).
Defined.



(** ** Paths: segments, and what lies below a path *)

Lemma append_cons a s1 s2 : String a s1 +:+ s2 = String a (s1 +:+ s2).
Proof. reflexivity. Qed.

Lemma nonEmpty_true s : Str.nonEmpty s = true <-> s <> "".
Proof. unfold Str.nonEmpty. destruct (String.eqb_spec s ""); naive_solver. Qed.

Lemma nonEmpty_append s1 s2 : Str.nonEmpty s2 = true -> Str.nonEmpty (s1 +:+ s2) = true.
Proof.
  rewrite !nonEmpty_true. destruct s1; [done|]. rewrite append_cons. discriminate.
Qed.

Lemma split_no_sep c k :
  forallb (fun a => negb (Ascii.eqb a c)) (list_ascii_of_string k) = true ->
  Str.split c k = [k].
Proof.
  induction k as [|a k IH]; simpl; [done|].
  rewrite andb_true_iff, negb_true_iff. intros [-> Hk]. by rewrite IH.
Qed.

Lemma split_app_sep c s1 s2 :
  Str.split c (s1 +:+ String c s2) = Str.split c s1 ++ Str.split c s2.
Proof.
  induction s1 as [|a s1 IH].
  - change ("" +:+ String c s2) with (String c s2). simpl.
    by rewrite Ascii.eqb_refl.
  - rewrite append_cons. simpl. destruct (Ascii.eqb a c); rewrite IH; [done|].
    destruct (split_cons c s1) as (h & t & ->). reflexivity.
Qed.

Lemma pathOf_snoc ks k : pathOf (ks ++ [k]) = childPathOf (pathOf ks) k.
Proof. unfold pathOf. by rewrite fold_left_app. Qed.

Lemma childPathOf_nonEmpty p k : k <> "" -> Str.nonEmpty (childPathOf p k) = true.
Proof.
  intros Hk. unfold childPathOf. destruct (Str.nonEmpty p).
  - rewrite !nonEmpty_append; [done..|]. by apply nonEmpty_true.
  - by apply nonEmpty_true.
Qed.

(** [startsWith] finds a prefix. *)
Lemma startsWith_spec x y : Str.startsWith x y = true <-> exists rest, x = y +:+ rest.
Proof.
  unfold Str.startsWith. revert x. induction y as [|a y IH]; intros x.
  - split; [intros _; by exists x|by destruct x].
  - destruct x as [|b x]; simpl; [split; [done|intros [rest H]; discriminate]|].
    destruct (ascii_dec a b) as [->|Hne].
    + rewrite IH. split; intros [rest H]; exists rest.
      * by rewrite H.
      * rewrite append_cons in H. by injection H.
    + split; [done|]. intros [rest H]. rewrite append_cons in H. congruence.
Qed.

Lemma append_assoc (a b c : string) : (a +:+ b) +:+ c = a +:+ b +:+ c.
Proof. induction a as [|x a IH]; [done|]. rewrite !append_cons. by rewrite IH. Qed.

Lemma append_nil_r (a : string) : a +:+ "" = a.
Proof. induction a as [|x a IH]; [done|]. rewrite append_cons. by rewrite IH. Qed.

Lemma append_inv_head (a b c : string) : a +:+ b = a +:+ c -> b = c.
Proof. apply String.app_inj. Qed.

Lemma under_spec p x : under p x <-> exists t, tailLike t /\ x = p +:+ t.
Proof.
  unfold under, strictlyBelow. rewrite !startsWith_spec. split.
  - intros [->|[[rest H]|[rest H]]].
    + exists "". split; [by left|]. by rewrite append_nil_r.
    + exists (String "." rest). split; [right; eauto|]. by rewrite H, append_assoc.
    + exists (String "[" rest). split; [right; eauto|]. by rewrite H, append_assoc.
  - intros (t & [->|(rest & [->| ->])] & ->).
    + left. by rewrite append_nil_r.
    + right; left. exists rest. by rewrite append_assoc.
    + right; right. exists rest. by rewrite append_assoc.
Qed.

Lemma segFree_cons a k : segFree (String a k) = true ->
  a <> "."%char /\ a <> "["%char /\ segFree k = true.
Proof.
  unfold segFree. simpl. rewrite !andb_true_iff, !negb_true_iff.
  intros [[H1 H2] H3]. repeat split; [| |done].
  - intros ->. by rewrite Ascii.eqb_refl in H1.
  - intros ->. by rewrite Ascii.eqb_refl in H2.
Qed.

(** A path that starts with a segment starts with no other one. *)
Lemma segment_determined k k' t t' :
  segFree k = true -> segFree k' = true -> tailLike t -> tailLike t' ->
  k +:+ t = k' +:+ t' -> k = k'.
Proof.
  revert k'. induction k as [|a k IH]; intros [|b k'] Hk Hk' Ht Ht'.
  - done.
  - change ("" +:+ t) with t. rewrite append_cons. intros ->.
    apply segFree_cons in Hk' as (H1 & H2 & _).
    destruct Ht as [?|(rest & [?|?])]; congruence.
  - change ("" +:+ t') with t'. rewrite append_cons. intros <-.
    apply segFree_cons in Hk as (H1 & H2 & _).
    destruct Ht' as [?|(rest & [?|?])]; congruence.
  - rewrite !append_cons. intros [= -> H].
    apply segFree_cons in Hk as (_ & _ & Hk). apply segFree_cons in Hk' as (_ & _ & Hk').
    f_equal. by apply IH.
Qed.

Lemma childPathOf_stem p k : childPathOf p k = stem p +:+ k.
Proof. unfold childPathOf, stem. destruct (Str.nonEmpty p); [|done]. by rewrite append_assoc. Qed.

(** No path lies at or below two children of one node. *)
Lemma siblings_disjoint p k k' x :
  segFree k = true -> segFree k' = true ->
  under (childPathOf p k) x -> under (childPathOf p k') x -> k = k'.
Proof.
  intros Hk Hk'. rewrite !under_spec, !childPathOf_stem.
  intros (t & Ht & ->) (t' & Ht' & H). rewrite !append_assoc in H.
  apply append_inv_head in H. exact (segment_determined k k' t t' Hk Hk' Ht Ht' H).
Qed.

Lemma under_child p k x :
  Str.nonEmpty p = true -> under (childPathOf p k) x -> strictlyBelow p x.
Proof.
  intros Hp. unfold childPathOf. rewrite Hp. rewrite under_spec.
  intros (t & _ & ->). left. apply startsWith_spec. exists (k +:+ t).
  by rewrite !append_assoc.
Qed.

Lemma under_items p x : under (p +:+ "[]") x -> strictlyBelow p x.
Proof.
  rewrite under_spec. intros (t & _ & ->). right. apply startsWith_spec.
  exists ("]" +:+ t). by rewrite !append_assoc.
Qed.

Lemma not_strictlyBelow_self p : ~ strictlyBelow p p.
Proof.
  assert (H : forall t, t <> "" -> p <> p +:+ t).
  { intros t Ht Heq. induction p as [|a p IH]; [by symmetry in Heq|].
    rewrite append_cons in Heq. injection Heq as Heq. auto. }
  intros [[rest Hr]%startsWith_spec|[rest Hr]%startsWith_spec];
    rewrite append_assoc in Hr; by apply H in Hr.
Qed.

Lemma strictlyBelow_trans p q x : under p q -> strictlyBelow q x -> strictlyBelow p x.
Proof.
  intros Hq Hx. assert (Hu : under q x) by (by right).
  apply under_spec in Hq as (t & Ht & ->). 
  destruct Ht as [->|(rest & Hrest)].
  - by rewrite append_nil_r in Hx.
  - apply under_spec in Hu as (t' & _ & ->). rewrite append_assoc.
    destruct Hrest as [-> | ->]; [left|right]; apply startsWith_spec;
      exists (rest +:+ t'); by rewrite !append_assoc.
Qed.

Lemma under_refl p : under p p.
Proof. by left. Qed.

Lemma under_trans p q x : under p q -> under q x -> under p x.
Proof.
  intros Hq [->|Hx]; [done|]. right. by eapply strictlyBelow_trans.
Qed.

Lemma nonEmpty_append_l s1 s2 : Str.nonEmpty s1 = true -> Str.nonEmpty (s1 +:+ s2) = true.
Proof. rewrite !nonEmpty_true. destruct s1; [done|]. by rewrite append_cons. Qed.

Lemma childPathOf_below p k : Str.nonEmpty p = true -> strictlyBelow p (childPathOf p k).
Proof. intros Hp. apply (under_child p k); [done|apply under_refl]. Qed.

Lemma items_below p : strictlyBelow p (p +:+ "[]").
Proof. apply under_items, under_refl. Qed.

Lemma childPathOf_nonEmpty_l p k : Str.nonEmpty p = true -> Str.nonEmpty (childPathOf p k) = true.
Proof. intros Hp. unfold childPathOf. rewrite Hp. by apply nonEmpty_append_l. Qed.


(** ** The rows of a call lie at or below its path *)

Lemma polymorphic_mergeAllOf (rootSpec : registry) resolved :
  polymorphic (mergeAllOf rootSpec resolved) = polymorphic resolved.
Proof. unfold mergeAllOf. by destruct (s_allOf resolved). Qed.

Lemma flattenBody_descend self (rootSpec : registry) s p r rows (V : gset string) :
  cycleAt (resolveSchema s rootSpec) V = None ->
  polymorphic (resolveSchema s rootSpec) = [] ->
  flattenBody self rootSpec s p r rows V
  = descend self (mergeAllOf rootSpec (resolveSchema s rootSpec)) p
      (visit (resolveSchema s rootSpec) V)
      (pushNode (mergeAllOf rootSpec (resolveSchema s rootSpec)) p r (s_ref s) rows).
Proof.
  intros Hc Hp. unfold flattenBody, flattenBodyWith. rewrite Hc.
  by rewrite polymorphic_mergeAllOf, Hp.
Qed.

Lemma grows_refl U rows : grows U rows rows.
Proof. exists []. by rewrite app_nil_r. Qed.

Lemma grows_trans U a b c : grows U a b -> grows U b c -> grows U a c.
Proof.
  intros (x & -> & Hx) (y & -> & Hy). exists (x ++ y).
  split; [by rewrite app_assoc|by apply Forall_app].
Qed.

Lemma grows_weaken (U U' : string -> Prop) a b :
  (forall x, U x -> U' x) -> grows U a b -> grows U' a b.
Proof.
  intros HU (x & -> & Hx). exists x. split; [done|].
  eapply Forall_impl; [exact Hx|]. intros row. apply HU.
Qed.

Lemma grows_push (U : string -> Prop) rows row : U (path row) -> grows U rows (rows ++ [row]).
Proof. intros H. exists [row]. split; [done|]. by apply Forall_singleton. Qed.

Lemma forEachRows_grows {A} U (f : A -> list FlatSchemaRow -> option (list FlatSchemaRow)) xs :
  (forall x rows rows', x ∈ xs -> f x rows = Some rows' -> grows U rows rows') ->
  forall rows rows', forEachRows f xs rows = Some rows' -> grows U rows rows'.
Proof.
  induction xs as [|x xs IH]; intros Hf rows rows'; simpl.
  - intros [= <-]. apply grows_refl.
  - destruct (f x rows) as [rows1|] eqn:E; [|discriminate].
    intros H. eapply grows_trans; [eapply Hf, E; by left|].
    eapply IH, H. intros y a b Hy. apply Hf. by right.
Qed.

Section Grows.

Variable rootSpec : registry.
Variable self : schema -> string -> bool -> list FlatSchemaRow -> gset string
                -> option (list FlatSchemaRow).
Hypothesis self_grows : forall s p r rows V rows',
  Str.nonEmpty p = true -> self s p r rows V = Some rows' -> grows (under p) rows rows'.

Lemma descend_grows resolved p V rows rows' :
  Str.nonEmpty p = true ->
  descend self resolved p V rows = Some rows' -> grows (strictlyBelow p) rows rows'.
Proof.
  intros Hp. unfold descend.
  destruct (flattenProperties self resolved p V rows) as [rows2|] eqn:E2;
    [|discriminate]; simpl.
  destruct (flattenAdditional self resolved p V rows2) as [rows3|] eqn:E3;
    [|discriminate]; simpl.
  intros E4.
  assert (Hchild : forall k c r a b, self c (childPathOf p k) r a V = Some b ->
            grows (strictlyBelow p) a b).
  { intros k c r a b H. apply self_grows in H; [|by apply childPathOf_nonEmpty_l].
    eapply grows_weaken; [|exact H]. intros x. by apply under_child. }
  apply grows_trans with rows2.
  { unfold flattenProperties in E2.
    destruct (s_properties resolved); [|injection E2 as <-; apply grows_refl].
    eapply forEachRows_grows; [|exact E2]. intros x a b _ Hx. exact (Hchild _ _ _ _ _ Hx). }
  apply grows_trans with rows3.
  { unfold flattenAdditional in E3.
    destruct (s_additionalProperties resolved) as [[[]|v]|];
      try (injection E3 as <-; apply grows_refl).
    - injection E3 as <-. apply grows_push. simpl. by apply childPathOf_below.
    - exact (Hchild _ _ _ _ _ E3). }
  unfold flattenItems in E4.
  destruct (s_items resolved); [|injection E4 as <-; apply grows_refl].
  destruct (String.eqb _ _); [|injection E4 as <-; apply grows_refl].
  apply self_grows in E4; [|by apply nonEmpty_append_l].
  eapply grows_weaken; [|exact E4]. intros x. apply under_items.
Qed.

Lemma pushNode_grows resolved p r oref rows :
  grows (under p) rows (pushNode resolved p r oref rows).
Proof.
  unfold pushNode. destruct (emitsRow _ _ _); [|apply grows_refl].
  destruct (existsb _ rows); [apply grows_refl|]. apply grows_push. simpl. apply under_refl.
Qed.

Lemma flattenBody_grows s p r rows V rows' :
  Str.nonEmpty p = true ->
  flattenBody self rootSpec s p r rows V = Some rows' -> grows (under p) rows rows'.
Proof.
  intros Hp. unfold flattenBody, flattenBodyWith.
  destruct (cycleAt _ V) as [name|].
  { intros [= <-]. apply grows_push. simpl. apply under_refl. }
  set (V' := visit _ V). set (resolved := mergeAllOf _ _).
  destruct (forEachRows _ (polymorphic resolved) rows) as [rows1|] eqn:E1;
    [|discriminate]; simpl.
  intros E. change (descend self resolved p V' (pushNode resolved p r (s_ref s) rows1)
                    = Some rows') in E.
  apply grows_trans with rows1.
  { eapply forEachRows_grows; [|exact E1]. intros x a b _ Hx.
    exact (self_grows _ _ _ _ _ _ Hp Hx). }
  eapply grows_trans; [apply pushNode_grows|].
  apply descend_grows in E; [|done].
  eapply grows_weaken; [|exact E]. intros x Hx. by right.
Qed.

End Grows.

(** A call at a path that is not empty appends rows at or below it. *)
Lemma flattenSchema_grows fuel (rootSpec : registry) : forall s p r rows V rows',
  Str.nonEmpty p = true ->
  flattenSchema fuel rootSpec s p r rows V = Some rows' -> grows (under p) rows rows'.
Proof.
  induction fuel as [|fuel IH]; intros s p r rows V rows' Hp; [discriminate|].
  simpl. by apply flattenBody_grows.
Qed.

(** ** The rows of a call do not depend on rows elsewhere *)

Lemma alike_app p a b x : alike p a b -> alike p (a ++ x) (b ++ x).
Proof. intros H q t d Hq. by rewrite !existsb_app, H. Qed.

Lemma alike_under p p' a b : under p p' -> alike p a b -> alike p' a b.
Proof. intros Hp H q t d Hq. apply H. by eapply under_trans. Qed.

Lemma unoccupied_alike p a b : unoccupied p a -> unoccupied p b -> alike p a b.
Proof.
  assert (H : forall a q t d, unoccupied p a -> under p q -> existsb (sameRow q t d) a = false).
  { intros a' q t d Ha Hq. destruct (existsb _ a') eqn:E; [|done].
    apply existsb_exists in E as (row & Hin%list_elem_of_In & Hsame).
    apply sameRow_spec in Hsame as [Hpath _]. destruct (Ha row Hin). by rewrite Hpath. }
  intros Ha Hb q t d Hq. by rewrite !H.
Qed.

Lemma forEachRows_alike {A} (f : A -> list FlatSchemaRow -> option (list FlatSchemaRow))
    (at_ : A -> string) p xs :
  (forall x, x ∈ xs ->
     under p (at_ x)
     /\ forall a b rows', alike (at_ x) a b -> f x a = Some rows' ->
          exists added, rows' = a ++ added /\ f x b = Some (b ++ added)) ->
  forall a b rows', alike p a b -> forEachRows f xs a = Some rows' ->
    exists added, rows' = a ++ added /\ forEachRows f xs b = Some (b ++ added).
Proof.
  induction xs as [|x xs IH]; intros Hf a b rows' Hab; simpl.
  - intros [= <-]. exists []. by rewrite !app_nil_r.
  - destruct (f x a) as [a1|] eqn:E; [|discriminate]. intros H.
    destruct (Hf x) as [Hx Hfx]; [by left|].
    destruct (Hfx a b a1 (alike_under _ _ _ _ Hx Hab) E) as (add1 & -> & ->).
    destruct (IH (fun y Hy => Hf y (list_elem_of_further _ _ _ Hy)) (a ++ add1) (b ++ add1) rows'
                (alike_app _ _ _ _ Hab) H) as (add2 & -> & ->).
    exists (add1 ++ add2). by rewrite !app_assoc.
Qed.

Section Alike.

Variable rootSpec : registry.
Variable self : schema -> string -> bool -> list FlatSchemaRow -> gset string
                -> option (list FlatSchemaRow).
Hypothesis self_alike : forall s p r a b V rows',
  Str.nonEmpty p = true -> alike p a b -> self s p r a V = Some rows' ->
  exists added, rows' = a ++ added /\ self s p r b V = Some (b ++ added).

Lemma descend_alike resolved p V a b rows' :
  Str.nonEmpty p = true -> alike p a b ->
  descend self resolved p V a = Some rows' ->
  exists added, rows' = a ++ added /\ descend self resolved p V b = Some (b ++ added).
Proof.
  intros Hp Hab. unfold descend.
  destruct (flattenProperties self resolved p V a) as [a2|] eqn:E2; [|discriminate]; simpl.
  destruct (flattenAdditional self resolved p V a2) as [a3|] eqn:E3; [|discriminate]; simpl.
  intros E4.
  assert (Hchild : forall k, under p (childPathOf p k)).
  { intros k. right. by apply childPathOf_below. }
  assert (H2 : exists add, a2 = a ++ add
                 /\ flattenProperties self resolved p V b = Some (b ++ add)).
  { unfold flattenProperties in *.
    destruct (s_properties resolved) as [ps|];
      [|injection E2 as <-; exists []; by rewrite !app_nil_r].
    eapply (forEachRows_alike _ (fun kp => childPathOf p (fst kp)) p); [|exact Hab|exact E2].
    intros kp _. split; [apply Hchild|]. intros a' b' r' Hab' H.
    eapply self_alike; [|exact Hab'|exact H]. by apply childPathOf_nonEmpty_l. }
  destruct H2 as (add2 & -> & ->). simpl.
  pose proof (alike_app _ _ _ add2 Hab) as Hab2.
  assert (H3 : exists add, a3 = (a ++ add2) ++ add
                 /\ flattenAdditional self resolved p V (b ++ add2) = Some ((b ++ add2) ++ add)).
  { unfold flattenAdditional in *.
    destruct (s_additionalProperties resolved) as [[[]|v]|];
      try (injection E3 as <-; exists []; by rewrite !app_nil_r).
    - injection E3 as <-. eauto.
    - eapply self_alike; [|exact (alike_under _ _ _ _ (Hchild _) Hab2)|exact E3].
      by apply childPathOf_nonEmpty_l. }
  destruct H3 as (add3 & -> & ->). simpl.
  pose proof (alike_app _ _ _ add3 Hab2) as Hab3.
  assert (H4 : exists add, rows' = ((a ++ add2) ++ add3) ++ add
                 /\ flattenItems self resolved p V ((b ++ add2) ++ add3)
                    = Some (((b ++ add2) ++ add3) ++ add)).
  { unfold flattenItems in *.
    destruct (s_items resolved); [|injection E4 as <-; exists []; by rewrite !app_nil_r].
    destruct (String.eqb _ _); [|injection E4 as <-; exists []; by rewrite !app_nil_r].
    eapply self_alike; [|exact (alike_under _ _ _ _ (or_intror (items_below p)) Hab3)|exact E4].
    by apply nonEmpty_append_l. }
  destruct H4 as (add4 & -> & ->).
  exists (add2 ++ add3 ++ add4). by rewrite !app_assoc.
Qed.

Lemma pushNode_alike resolved p r oref a b :
  alike p a b ->
  exists added, pushNode resolved p r oref a = a ++ added
                /\ pushNode resolved p r oref b = b ++ added.
Proof.
  intros Hab. unfold pushNode.
  destruct (emitsRow _ _ _); [|exists []; by rewrite !app_nil_r].
  rewrite <- (Hab _ _ _ (under_refl p)).
  destruct (existsb _ a); [exists []; by rewrite !app_nil_r|eauto].
Qed.

Lemma flattenBody_alike s p r a b V rows' :
  Str.nonEmpty p = true -> alike p a b ->
  flattenBody self rootSpec s p r a V = Some rows' ->
  exists added, rows' = a ++ added
                /\ flattenBody self rootSpec s p r b V = Some (b ++ added).
Proof.
  intros Hp Hab. unfold flattenBody, flattenBodyWith.
  destruct (cycleAt _ V) as [name|]; [intros [= <-]; eauto|].
  set (V' := visit _ V). set (resolved := mergeAllOf _ _).
  destruct (forEachRows _ (polymorphic resolved) a) as [a1|] eqn:E1; [|discriminate]; simpl.
  intros E. change (descend self resolved p V' (pushNode resolved p r (s_ref s) a1)
                    = Some rows') in E.
  change (exists added, rows' = a ++ added
            /\ (forEachRows (fun s0 rows => self s0 p r rows V') (polymorphic resolved) b
                 ≫= fun rows1 => descend self resolved p V'
                                   (pushNode resolved p r (s_ref s) rows1))
               = Some (b ++ added)).
  assert (Hbranch : forall x, x ∈ polymorphic resolved ->
            under p p
            /\ forall a' b' r', alike p a' b' -> self x p r a' V' = Some r' ->
                 exists added, r' = a' ++ added /\ self x p r b' V' = Some (b' ++ added)).
  { intros x _. split; [apply under_refl|]. intros a' b' r' Hab' H.
    eapply self_alike; [exact Hp|exact Hab'|exact H]. }
  destruct (forEachRows_alike (fun s0 rows => self s0 p r rows V') (fun _ => p) p
              (polymorphic resolved) Hbranch a b a1 Hab E1) as (add1 & -> & ->).
  simpl.
  destruct (pushNode_alike resolved p r (s_ref s) _ _ (alike_app _ _ _ add1 Hab))
    as (add2 & Ha2 & Hb2).
  rewrite Ha2 in E. rewrite Hb2.
  destruct (descend_alike resolved p V' _ _ rows' Hp
              (alike_app _ _ _ add2 (alike_app _ _ _ add1 Hab)) E) as (add3 & -> & ->).
  exists (add1 ++ add2 ++ add3). by rewrite !app_assoc.
Qed.

End Alike.

(** A call appends the same rows to two arrays that its duplicate test
    cannot tell apart. *)
Lemma flattenSchema_alike fuel (rootSpec : registry) : forall s p r a b V rows',
  Str.nonEmpty p = true -> alike p a b ->
  flattenSchema fuel rootSpec s p r a V = Some rows' ->
  exists added, rows' = a ++ added
                /\ flattenSchema fuel rootSpec s p r b V = Some (b ++ added).
Proof.
  induction fuel as [|fuel IH]; intros s p r a b V rows' Hp Hab; [discriminate|].
  simpl. by apply flattenBody_alike.
Qed.


(** ** Grafting: the tree under construction *)

Lemma objSet_objSet {A} k (v v' : A) o : objSet k v' (objSet k v o) = objSet k v' o.
Proof.
  induction o as [|[k0 v0] o IH]; simpl.
  - by rewrite String.eqb_refl.
  - destruct (String.eqb k0 k) eqn:E; simpl; rewrite E; [done|by rewrite IH].
Qed.

Lemma objSet_fresh {A} k (v : A) o : k ∉ o.*1 -> objSet k v o = o ++ [(k, v)].
Proof.
  induction o as [|[k0 v0] o IH]; simpl; [done|].
  rewrite not_elem_of_cons. intros [Hne Hnin].
  destruct (String.eqb_spec k0 k); [congruence|]. by rewrite IH.
Qed.

Lemma unflattenRows_app rows1 rows2 st :
  unflattenRows (rows1 ++ rows2) st
  = match unflattenRows rows1 st with
    | Ok st' => unflattenRows rows2 st'
    | Throw e => Throw e
    end.
Proof.
  revert st. induction rows1 as [|row rows1 IH]; intros st; simpl; [done|].
  destruct (unflattenRow st row); [apply IH|done].
Qed.

Lemma closedMaps_unfold n :
  closedMaps n
  = match s_additionalProperties n with
    | Some (AddlBool b) => negb b
    | Some (AddlSchema v) => closedMaps v
    | None => true
    end
    && match s_properties n with
       | Some ps => forallb (fun kp => closedMaps (snd kp)) ps
       | None => true
       end.
Proof. by destruct n. Qed.

Lemma closedMaps_writeLeaf row n :
  closedMaps n = true -> closedMaps (writeLeaf false row n) = true.
Proof.
  intros Hn. unfold writeLeaf. destruct (truthy (ref row)); [reflexivity|].
  rewrite closedMaps_unfold in Hn. apply andb_true_iff in Hn as [Ha Hp].
  destruct (negb _ && negb _); rewrite closedMaps_unfold; simpl; rewrite Ha; simpl; done.
Qed.

Lemma objGet_elem {A} k (o : list (string * A)) v : objGet k o = Some v -> (k, v) ∈ o.
Proof.
  induction o as [|[k0 v0] o IH]; simpl; [done|].
  destruct (String.eqb_spec k0 k) as [->|]; [intros [= ->]; by left|].
  intros H. right. by apply IH.
Qed.

Lemma closedMaps_child n k :
  closedMaps n = true ->
  closedMaps (default freshObject (objGet k (default [] (s_properties n)))) = true.
Proof.
  intros Hn. destruct (objGet k _) as [c|] eqn:E; [|reflexivity]. simpl.
  rewrite closedMaps_unfold in Hn. apply andb_true_iff in Hn as [_ Hp].
  destruct (s_properties n) as [ps|]; [|done]. simpl in E.
  apply objGet_elem, list_elem_of_In in E. rewrite forallb_forall in Hp.
  exact (Hp _ E).
Qed.

Lemma closedMaps_value n :
  closedMaps n = true ->
  closedMaps (match s_additionalProperties n with
              | Some (AddlSchema v) => v
              | _ => freshObject
              end) = true.
Proof.
  intros Hn. rewrite closedMaps_unfold in Hn. apply andb_true_iff in Hn as [Ha _].
  by destruct (s_additionalProperties n) as [[b|v]|].
Qed.

Lemma forallb_objSet {A} (P : A -> bool) k v (o : list (string * A)) :
  forallb (fun kp => P (snd kp)) o = true -> P v = true ->
  forallb (fun kp => P (snd kp)) (objSet k v o) = true.
Proof.
  intros Ho Hv. induction o as [|[k0 v0] o IH]; simpl in *; [by rewrite Hv|].
  apply andb_true_iff in Ho as [H0 Ho].
  destruct (String.eqb k0 k); simpl; [by rewrite Hv|]. by rewrite H0, IH.
Qed.

Lemma closedMaps_setProperties n k c :
  closedMaps n = true -> closedMaps c = true ->
  closedMaps (setProperties (Some (objSet k c (default [] (s_properties n)))) n) = true.
Proof.
  intros Hn Hc. rewrite closedMaps_unfold in Hn |- *.
  apply andb_true_iff in Hn as [Ha Hp].
  unfold setProperties. simpl. rewrite Ha. simpl. apply forallb_objSet; [|done].
  by destruct (s_properties n).
Qed.

Lemma closedMaps_setAdditional n v :
  closedMaps n = true -> closedMaps v = true ->
  closedMaps (setAdditionalProperties (Some (AddlSchema v)) n) = true.
Proof.
  intros Hn Hv. rewrite closedMaps_unfold in Hn |- *.
  apply andb_true_iff in Hn as [_ Hp].
  unfold setAdditionalProperties. simpl. by rewrite Hv, Hp.
Qed.

Lemma graft_closed f : keepsClosed f -> forall ks, keepsClosed (graft ks f).
Proof.
  intros Hf. induction ks as [|k ks IH]; intros n Hn; simpl; [by apply Hf|].
  destruct (String.eqb k "<key>").
  - apply closedMaps_setAdditional; [done|]. apply IH. by apply closedMaps_value.
  - apply closedMaps_setProperties; [done|]. apply IH. by apply closedMaps_child.
Qed.

Lemma graft_app ks ks' f n : graft (ks ++ ks') f n = graft ks (graft ks' f) n.
Proof.
  revert n. induction ks as [|k ks IH]; intros n; simpl; [done|].
  destruct (String.eqb k "<key>"); by rewrite IH.
Qed.

Lemma graft_graft ks f g n :
  graft ks f (graft ks g n) = graft ks (fun x => f (g x)) n.
Proof.
  revert n. induction ks as [|k ks IH]; intros n; simpl; [done|].
  destruct (String.eqb k "<key>"); simpl.
  - by rewrite IH.
  - rewrite objGet_objSet, String.eqb_refl. simpl. by rewrite objSet_objSet, IH.
Qed.

(** ** Segments and the descent of the reconstructor *)

Lemma segFree_no_dot k :
  segFree k = true ->
  forallb (fun a => negb (Ascii.eqb a ".")) (list_ascii_of_string k) = true.
Proof.
  unfold segFree. induction k as [|a k IH]; simpl; [done|].
  rewrite !andb_true_iff. intros [[H1 _] H2]. auto.
Qed.

Lemma safeKey_spec k :
  safeKey k = true ->
  k <> "" /\ segFree k = true /\ Str.endsWith k "[]" = false
  /\ String.eqb k "<key>" = false /\ String.eqb k "*" = false.
Proof.
  unfold safeKey. rewrite !andb_true_iff, !negb_true_iff, nonEmpty_true.
  intros ((((H1 & H2) & H3) & H4) & H5). auto.
Qed.

Lemma segOK_spec k :
  segOK k = true -> k <> "" /\ segFree k = true /\ Str.split "." k = [k].
Proof.
  unfold segOK. intros [H|H]%orb_true_iff.
  - apply safeKey_spec in H as (H1 & H2 & _).
    auto using split_no_sep, segFree_no_dot.
  - apply String.eqb_eq in H as ->. by repeat split.
Qed.

Lemma safeKey_segOK k : safeKey k = true -> segOK k = true.
Proof. unfold segOK. by intros ->. Qed.

Section Segments.

Local Abbreviation seg := (fun k => segOK k = true).

Lemma pathOf_nonEmpty ks : Forall seg ks -> ks <> [] -> Str.nonEmpty (pathOf ks) = true.
Proof.
  destruct ks as [|k ks _] using rev_ind; [done|].
  intros [_ Hk%Forall_inv]%Forall_app _. rewrite pathOf_snoc.
  apply childPathOf_nonEmpty. by apply segOK_spec in Hk as [? _].
Qed.

Lemma split_pathOf ks : Forall seg ks -> ks <> [] -> Str.split "." (pathOf ks) = ks.
Proof.
  induction ks as [|k ks IH] using rev_ind; [done|].
  intros [Hks Hk%Forall_inv]%Forall_app _. rewrite pathOf_snoc.
  apply segOK_spec in Hk as (_ & _ & Hsplit).
  destruct ks as [|k0 ks0].
  - exact Hsplit.
  - unfold childPathOf. rewrite pathOf_nonEmpty by done.
    change ("." +:+ k) with (String "." k).
    rewrite split_app_sep, IH by done. by rewrite Hsplit.
Qed.

(** Along a chain of segments the descent of the reconstructor returns, and
    it is [graft]. *)
Lemma walk_graft row : forall ks n,
  Forall seg ks -> ks <> [] -> closedMaps n = true ->
  walk row ks n = Ok (graft ks (writeLeaf false row) n).
Proof.
  induction ks as [|k ks IH]; intros n Hks Hne Hn; [done|].
  apply Forall_cons in Hks as [Hk Hks].
  destruct (String.eqb_spec k "<key>") as [->|Hkey].
  - assert (Hw : walk row ("<key>" :: ks) n
                 = match walk row ks
                           (if match ks with [] => true | _ => false end
                            then writeLeaf false row
                                   (match s_additionalProperties n with
                                    | Some (AddlSchema v) => v
                                    | _ => freshObject
                                    end)
                            else match s_additionalProperties n with
                                 | Some (AddlSchema v) => v
                                 | _ => freshObject
                                 end)
                   with
                   | Ok value' => Ok (setAdditionalProperties (Some (AddlSchema value')) n)
                   | Throw e => Throw e
                   end).
    { rewrite closedMaps_unfold in Hn. apply andb_true_iff in Hn as [Ha _].
      simpl. unfold addlTruthy.
      destruct (s_additionalProperties n) as [[[]|v]|] eqn:E; try done; simpl;
        rewrite ?E; by destruct (walk row ks _). }
    rewrite Hw. simpl. destruct ks as [|k2 ks]; [reflexivity|].
    rewrite IH; [done..|]. by apply closedMaps_value.
  - unfold segOK in Hk. apply orb_true_iff in Hk as [Hk|Hk];
      [|by apply String.eqb_eq in Hk].
    apply safeKey_spec in Hk as (Hne' & _ & Hends & Hkey' & Hstar).
    assert (Hw : walk row (k :: ks) n
                 = match walk row ks
                           (if match ks with [] => true | _ => false end
                            then writeLeaf false row
                                   (default freshObject (objGet k (default [] (s_properties n))))
                            else default freshObject (objGet k (default [] (s_properties n))))
                   with
                   | Ok child =>
                       Ok (setProperties (Some (objSet k child (default [] (s_properties n)))) n)
                   | Throw e => Throw e
                   end).
    { simpl. unfold cleanPartOf. rewrite Hends, Hkey', Hstar.
      destruct (String.eqb_spec k ""); [contradiction|]. reflexivity. }
    rewrite Hw. simpl. rewrite Hkey'. destruct ks as [|k2 ks]; [reflexivity|].
    rewrite IH; [done..|]. by apply closedMaps_child.
Qed.

End Segments.

Lemma isSkipped_app sk sk' x : isSkipped (sk ++ sk') x = isSkipped sk x || isSkipped sk' x.
Proof. unfold isSkipped. apply existsb_app. Qed.

Lemma isSkipped_true sk q x : q ∈ sk -> strictlyBelow q x -> isSkipped sk x = true.
Proof.
  intros Hq Hx. unfold isSkipped. apply existsb_exists. exists q.
  split; [by apply list_elem_of_In|]. apply orb_true_iff. exact Hx.
Qed.

Lemma isSkipped_false (U : string -> Prop) sk x :
  Forall U sk -> (forall q, U q -> ~ strictlyBelow q x) -> isSkipped sk x = false.
Proof.
  intros Hsk Hno. destruct (isSkipped sk x) eqn:E; [|done].
  unfold isSkipped in E. apply existsb_exists in E as (q & Hq%list_elem_of_In & Hx).
  apply orb_true_iff in Hx. rewrite Forall_forall in Hsk. destruct (Hno q (Hsk q Hq) Hx).
Qed.

(** Rows below a skipped prefix change nothing. *)
Lemma unflattenRows_skipped p rows root sk :
  Forall (fun row => strictlyBelow p (path row)) rows -> p ∈ sk ->
  unflattenRows rows (root, sk) = Ok (root, sk).
Proof.
  intros Hrows Hp. induction Hrows as [|row rows Hrow _ IH]; [done|].
  simpl. unfold unflattenRow. simpl.
  destruct (Str.nonEmpty (path row)); [|exact IH]. simpl.
  by rewrite (isSkipped_true sk p _ Hp Hrow).
Qed.

(** One row at a chain of segments, when no prefix of it is skipped. *)
Lemma unflattenRow_at row ks root sk :
  Forall (fun k => segOK k = true) ks -> ks <> [] -> path row = pathOf ks ->
  closedMaps root = true -> isSkipped sk (path row) = false ->
  unflattenRow (root, sk) row
  = Ok (graft ks (writeLeaf false row) root,
        if truthy (ref row) then sk ++ [path row] else sk).
Proof.
  intros Hks Hne Hpath Hroot Hskip. unfold unflattenRow. simpl.
  rewrite Hskip.
  assert (Hn : Str.nonEmpty (path row) = true) by (rewrite Hpath; by apply pathOf_nonEmpty).
  assert (Hs : Str.split "." (path row) = ks) by (rewrite Hpath; by apply split_pathOf).
  by rewrite Hn, Hs, walk_graft.
Qed.

(** ** Replaying rows on the tree under construction *)

Lemma replays_at ks U added f sk' : replays ks U added f sk' -> replaysAt ks U added f sk'.
Proof.
  intros (H1 & H2 & H3 & H4). split; [done|]. split; [done|]. split; [done|].
  intros f0 root sk Hc Hsk. by rewrite H4, graft_graft.
Qed.

Lemma replaysAt_lift ks k U added f sk' :
  replays (ks ++ [k]) U added f sk' -> replaysAt ks U added (graft [k] f) sk'.
Proof.
  intros (H1 & H2 & H3 & H4). split; [done|]. split; [done|].
  split; [by apply graft_closed|].
  intros f0 root sk Hc Hsk. by rewrite H4, graft_app, graft_graft.
Qed.

Lemma replaysAt_nil ks U : replaysAt ks U [] (fun x => x) [].
Proof.
  split; [constructor|]. split; [constructor|]. split; [by intros x|].
  intros f0 root sk _ _. simpl. by rewrite app_nil_r.
Qed.

Lemma replaysAt_weaken ks (U U' : string -> Prop) added F sk' :
  (forall x, U x -> U' x) -> replaysAt ks U added F sk' -> replaysAt ks U' added F sk'.
Proof.
  intros HU (H1 & H2 & H3 & H4). split; [|split; [|split; [done|]]].
  - eapply Forall_impl; [exact H1|]. intros row. apply HU.
  - eapply Forall_impl; [exact H2|]. exact HU.
  - intros f0 root sk Hc Hsk. apply H4; [done|]. intros x Hx. apply Hsk, HU, Hx.
Qed.

(** Rows replayed one group after the other, when no prefix recorded by the
    first group skips a row of the second. *)
Lemma replaysAt_app ks (U1 U2 : string -> Prop) a1 a2 F1 F2 sk1 sk2 :
  replaysAt ks U1 a1 F1 sk1 -> replaysAt ks U2 a2 F2 sk2 ->
  (forall q x, U1 q -> U2 x -> ~ strictlyBelow q x) ->
  replaysAt ks (fun x => U1 x \/ U2 x) (a1 ++ a2) (fun x => F2 (F1 x)) (sk1 ++ sk2).
Proof.
  intros (A1 & A2 & A3 & A4) (B1 & B2 & B3 & B4) Hdis. split; [|split; [|split]].
  - apply Forall_app. split; (eapply Forall_impl; [eassumption|]); simpl; auto.
  - apply Forall_app. split; (eapply Forall_impl; [eassumption|]); simpl; auto.
  - intros x Hx. by apply B3, A3.
  - intros f0 root sk Hc Hsk. rewrite unflattenRows_app.
    rewrite A4; [|done|intros x Hx; apply Hsk; by left].
    rewrite (B4 (fun x => F1 (f0 x))).
    + by rewrite app_assoc.
    + rewrite <- graft_graft. by apply graft_closed.
    + intros x Hx. rewrite isSkipped_app, Hsk by (by right). simpl.
      apply (isSkipped_false U1); [done|]. intros q Hq. by apply Hdis.
Qed.


(** ** Plain trees: the round trip of a subtree *)

Lemma schema_weight_ind (P : schema -> Prop) :
  (forall s, (forall c, weight c < weight s -> P c) -> P s) -> forall s, P s.
Proof.
  intros H s. assert (Hn : forall n c, weight c < n -> P c).
  { induction n as [|n IH]; intros c Hc; [lia|].
    apply H. intros c' Hc'. apply IH. lia. }
  apply (Hn (S (weight s))). lia.
Qed.

Lemma property_weight s ps kp :
  s_properties s = Some ps -> kp ∈ ps -> weight (snd kp) < weight s.
Proof.
  intros Hps Hin. apply children_weight. unfold children. rewrite Hps.
  rewrite elem_of_app. left. simpl. apply list_elem_of_fmap. eauto.
Qed.

Lemma resolveSchema_plain s (rootSpec : registry) :
  truthy (s_ref s) = false -> resolveSchema s rootSpec = s.
Proof.
  unfold resolveSchema, truthy. destruct (s_ref s) as [r|]; [|done]. by intros ->.
Qed.

Lemma nodeType_nonEmpty s : Str.nonEmpty (nodeType s) = true.
Proof.
  unfold nodeType, orElse. destruct (s_type s) as [t|].
  - destruct (Str.nonEmpty t) eqn:E; [done|]. by destruct (s_properties s).
  - by destruct (s_properties s).
Qed.

Lemma orElse_nonEmpty t d : Str.nonEmpty t = true -> orElse (Some t) d = t.
Proof. unfold orElse. by intros ->. Qed.

Lemma orElse_idem o : orElse (Some (orElse o "")) "" = orElse o "".
Proof. unfold orElse. destruct o as [t|]; [|done]. by destruct (Str.nonEmpty t) eqn:E; [rewrite E|]. Qed.

Lemma filter_all {A} (P : A -> Prop) `{forall x, Decision (P x)} (l : list A) :
  Forall P l -> filter P l = l.
Proof.
  induction 1 as [|x l Hx Hl IH]; [done|]. by rewrite filter_cons_True, IH.
Qed.

Lemma unoccupied_app p a b : unoccupied p (a ++ b) <-> unoccupied p a /\ unoccupied p b.
Proof.
  unfold unoccupied. split.
  - intros H. split; intros row Hrow; apply H; set_solver.
  - intros [Ha Hb] row Hrow. apply elem_of_app in Hrow as [?|?]; auto.
Qed.

Lemma unoccupied_nil p : unoccupied p [].
Proof. intros row H. by apply elem_of_nil in H. Qed.

Lemma unoccupied_added (U : string -> Prop) p added :
  Forall (fun row => U (path row)) added -> (forall x, U x -> ~ under p x) ->
  unoccupied p added.
Proof. rewrite Forall_forall. intros H HU row Hrow. apply HU, H, Hrow. Qed.

Lemma forget_paths (U : string -> Prop) a b :
  forget <$> a = forget <$> b ->
  Forall (fun row => U (path row)) b -> Forall (fun row => U (path row)) a.
Proof.
  revert b. induction a as [|x a IH]; intros [|y b] Heq Hb; try done.
  csimpl in Heq. injection Heq as Hxy _ _ Heq. apply Forall_cons in Hb as [Hy Hb].
  constructor; [by rewrite Hxy|by eapply IH].
Qed.

Lemma forEachRows_fmap {A B} (g : A -> B) f xs rows :
  forEachRows f (g <$> xs) rows = forEachRows (fun x => f (g x)) xs rows.
Proof.
  revert rows. induction xs as [|x xs IH]; intros rows; csimpl; [done|].
  destruct (f (g x) rows); [apply IH|done].
Qed.

Lemma cycleAt_empty resolved : cycleAt resolved ∅ = None.
Proof.
  unfold cycleAt. destruct (s_resolvedFrom resolved) as [name|]; [|done].
  rewrite bool_decide_eq_false_2 by set_solver. by rewrite andb_false_r.
Qed.

Lemma pushNode_unoccupied resolved p r oref rows :
  Str.nonEmpty p = true -> unoccupied p rows ->
  pushNode resolved p r oref rows = rows ++ [nodeRow resolved p r oref].
Proof.
  intros Hp Hun. unfold pushNode, nodeRow, emitsRow. rewrite Hp. simpl.
  destruct (existsb _ rows) eqn:E; [|done].
  apply existsb_exists in E as (row & Hin%list_elem_of_In & Hsame).
  apply sameRow_spec in Hsame as [Hpath _]. destruct (Hun row Hin). by left.
Qed.

Lemma under_childPathOf p k x :
  Str.nonEmpty p = true -> under (childPathOf p k) x -> under p x.
Proof. intros Hp H. right. by eapply under_child. Qed.

Lemma not_under_child_self p k : k <> "" -> ~ under (childPathOf p k) p.
Proof.
  intros Hk H. destruct (Str.nonEmpty p) eqn:Hp.
  - by apply under_child, not_strictlyBelow_self in H.
  - apply under_spec in H as (t & _ & H). unfold childPathOf in H. rewrite Hp in H.
    assert (p = "") as -> by (apply dec_stable; intros Hn%nonEmpty_true; congruence).
    destruct k; [done|]. by rewrite append_cons in H.
Qed.

Section PlainTree.

Variable rootSpec : registry.

Local Abbreviation seg := (fun k => segOK k = true).
Local Abbreviation restored := (fun kp : string * schema => (fst kp, restoreNode (snd kp))).

(** A call at a node whose row is pushed first: the row, then rows strictly
    below, and the same rows below whatever else the array holds. *)
Lemma flattenSchema_head fuel s p r a rows' :
  Str.nonEmpty p = true -> unoccupied p a ->
  polymorphic (resolveSchema s rootSpec) = [] ->
  flattenSchema fuel rootSpec s p r a ∅ = Some rows' ->
  exists below,
    rows' = a ++ nodeRow (mergeAllOf rootSpec (resolveSchema s rootSpec)) p r (s_ref s) :: below
    /\ Forall (fun row => strictlyBelow p (path row)) below
    /\ forall b r', unoccupied p b ->
         flattenSchema fuel rootSpec s p r' b ∅
         = Some (b ++ nodeRow (mergeAllOf rootSpec (resolveSchema s rootSpec)) p r' (s_ref s)
                   :: below).
Proof.
  intros Hp Ha Hpoly. destruct fuel as [|fuel]; [discriminate|]. simpl.
  rewrite flattenBody_descend by (done || apply cycleAt_empty).
  rewrite pushNode_unoccupied by done. intros E.
  set (R := mergeAllOf _ _) in *. set (V := visit _ _) in *.
  pose proof (descend_grows (flattenSchema fuel rootSpec)
                (flattenSchema_grows fuel rootSpec) R p V _ _ Hp E) as (below & -> & Hbelow).
  exists below. split; [by rewrite <- app_assoc|]. split; [done|].
  intros b r' Hb.
  rewrite flattenBody_descend by (done || apply cycleAt_empty).
  rewrite pushNode_unoccupied by done. fold R V.
  assert (Hal : alike p (a ++ [nodeRow R p r (s_ref s)]) (b ++ [nodeRow R p r' (s_ref s)])).
  { intros q t d Hq. rewrite !existsb_app. f_equal.
    exact (unoccupied_alike p a b Ha Hb q t d Hq). }
  destruct (descend_alike (flattenSchema fuel rootSpec)
              (flattenSchema_alike fuel rootSpec) R p V _ _ _ Hp Hal E)
    as (add & Hadd & ->).
  apply app_inv_head in Hadd as <-. by rewrite <- app_assoc.
Qed.

Lemma isNone_true {A} (o : option A) : isNone o = true -> o = None.
Proof. by destruct o. Qed.

Lemma plainTree_unfold s :
  plainTree rootSpec s
  = if truthy (s_ref s) then
      refOnly s
      && match polymorphic (resolveSchema s rootSpec) with [] => true | _ => false end
    else
      negb (truthy (s_resolvedFrom s))
      && isNone (s_items s) && isNone (s_allOf s) && isNone (s_oneOf s) && isNone (s_anyOf s)
      && match s_additionalProperties s with
         | Some (AddlSchema v) => plainTree rootSpec v
         | Some (AddlBool b) => negb b
         | None => true
         end
      && match s_properties s with
         | Some ps =>
             forallb (fun kp => safeKey (fst kp) && plainTree rootSpec (snd kp)) ps
             && bool_decide (NoDup ps.*1)
         | None => true
         end.
Proof. by destruct s. Qed.

Lemma plainTree_plain s :
  plainTree rootSpec s = true -> truthy (s_ref s) = false ->
  truthy (s_resolvedFrom s) = false /\ s_items s = None
  /\ s_allOf s = None /\ s_oneOf s = None /\ s_anyOf s = None
  /\ (forall v, s_additionalProperties s = Some (AddlSchema v) -> plainTree rootSpec v = true)
  /\ s_additionalProperties s <> Some (AddlBool true)
  /\ forall ps, s_properties s = Some ps ->
       NoDup ps.*1
       /\ forall kp, kp ∈ ps -> safeKey (fst kp) = true /\ plainTree rootSpec (snd kp) = true.
Proof.
  rewrite plainTree_unfold. intros H Href. rewrite Href in H.
  rewrite !andb_true_iff, negb_true_iff in H.
  destruct H as ((((((H1 & H2) & H3) & H4) & H5) & H6) & H7).
  do 5 (split; [by auto using isNone_true|]).
  split; [intros v Hv; by rewrite Hv in H6|].
  split; [intros Hv; by rewrite Hv in H6|].
  intros ps Hps. rewrite Hps in H7. apply andb_true_iff in H7 as [Hall Hnd].
  apply bool_decide_eq_true in Hnd. split; [done|].
  intros kp Hin. rewrite forallb_forall in Hall.
  specialize (Hall kp (proj1 (list_elem_of_In _ _) Hin)).
  by apply andb_true_iff in Hall.
Qed.

Lemma plainTree_reference s :
  plainTree rootSpec s = true -> truthy (s_ref s) = true ->
  refOnly s = true /\ polymorphic (resolveSchema s rootSpec) = [].
Proof.
  rewrite plainTree_unfold. intros H Href. rewrite Href in H.
  apply andb_true_iff in H as [H1 H2]. split; [done|].
  by destruct (polymorphic _).
Qed.

Lemma refOnly_eq s :
  refOnly s = true ->
  Schema (s_ref s) None None None None None None None None None None None None = s.
Proof.
  unfold refOnly. rewrite !andb_true_iff.
  intros (((((((((((H1 & H2) & H3) & H4) & H5) & H6) & H7) & H8) & H9) & H10) & H11) & H12).
  apply isNone_true in H1, H2, H3, H4, H5, H6, H7, H8, H9, H10, H11, H12.
  destruct s; simpl in *. by subst.
Qed.

Lemma restoreNode_unfold s :
  restoreNode s
  = if truthy (s_ref s) then
      Schema (s_ref s) None None None None None None None None None None None None
    else
      Schema None (Some (nodeType s)) (Some (orElse (s_description s) ""))
        (match s_properties s with
         | Some (kp :: ps) =>
             Some ((fun kp => (fst kp, restoreNode (snd kp))) <$> (kp :: ps))
         | _ =>
             if String.eqb (nodeType s) "object" || String.eqb (nodeType s) "array"
             then Some [] else None
         end)
        None None (restoredAddl s) None None None None None None.
Proof. by destruct s. Qed.

Lemma flattenBody_plainNode self s p r rows (V : gset string) :
  truthy (s_ref s) = false -> truthy (s_resolvedFrom s) = false ->
  s_allOf s = None -> s_oneOf s = None -> s_anyOf s = None ->
  flattenBody self rootSpec s p r rows V
  = descend self s p V (pushNode s p r (s_ref s) rows).
Proof.
  intros Hr Hf Hall Hone Hany.
  unfold flattenBody, flattenBodyWith. rewrite resolveSchema_plain by done.
  assert (Hc : cycleAt s V = None).
  { unfold cycleAt. unfold truthy in Hf. destruct (s_resolvedFrom s); [|done]. by rewrite Hf. }
  assert (Hv : visit s V = V).
  { unfold visit. unfold truthy in Hf. destruct (s_resolvedFrom s); [|done]. by rewrite Hf. }
  rewrite Hc, Hv. unfold mergeAllOf, polymorphic. rewrite Hall, Hone, Hany. reflexivity.
Qed.

(** The loop over the properties of a node at the chain [ks]. *)
Lemma properties_loop ks fuel :
  Forall seg ks ->
  forall ps,
    NoDup ps.*1 ->
    (forall kp, kp ∈ ps -> safeKey (fst kp) = true /\ subtreeOK rootSpec (snd kp)) ->
    forall (req : string * schema -> bool) rows1 rows',
      (forall kp, kp ∈ ps -> unoccupied (childPathOf (pathOf ks) (fst kp)) rows1) ->
      forEachRows
        (fun kp acc =>
           flattenSchema fuel rootSpec (snd kp) (childPathOf (pathOf ks) (fst kp))
             (req kp) acc ∅) ps rows1 = Some rows' ->
      exists added F sk',
        rows' = rows1 ++ added
        /\ replaysAt ks
             (fun x => exists kp, kp ∈ ps /\ under (childPathOf (pathOf ks) (fst kp)) x)
             added F sk'
        /\ (forall n,
              (forall k, k ∈ ps.*1 -> k ∉ (default [] (s_properties n)).*1) ->
              F n = match ps with
                    | [] => n
                    | _ => setProperties
                             (Some (default [] (s_properties n) ++ (restored <$> ps))) n
                    end)
        /\ (forall (req' : string * schema -> bool) b,
              (forall kp, kp ∈ ps -> unoccupied (childPathOf (pathOf ks) (fst kp)) b) ->
              exists added',
                forEachRows
                  (fun kp acc =>
                     flattenSchema fuel rootSpec (restoreNode (snd kp))
                       (childPathOf (pathOf ks) (fst kp)) (req' kp) acc ∅) ps b
                = Some (b ++ added')
                /\ forget <$> added' = forget <$> added).
Proof.
  intros Hks. induction ps as [|kp ps IH]; intros Hnd Hall req rows1 rows' Hun; simpl.
  - intros [= <-]. exists [], (fun n => n), []. split; [by rewrite app_nil_r|].
    split; [apply replaysAt_nil|]. split; [done|].
    intros req' b _. exists []. by rewrite app_nil_r.
  - destruct (flattenSchema fuel _ _ _ _ rows1 _) as [acc|] eqn:E; [|discriminate].
    intros Hrest. apply NoDup_cons in Hnd as [Hk Hnd].
    destruct (Hall kp) as [Hsafe Hsub]; [by left|].
    pose proof (safeKey_spec _ Hsafe) as (Hne & Hfree & _).
    assert (Hchain : Forall seg (ks ++ [fst kp])).
    { apply Forall_app. split; [done|]. apply Forall_singleton. by apply safeKey_segOK. }
    assert (Hcne : ks ++ [fst kp] <> []) by (by destruct ks).
    rewrite <- pathOf_snoc in E.
    destruct (Hsub (ks ++ [fst kp]) fuel (req kp) rows1 acc Hchain Hcne)
      as (add1 & f1 & sk1 & -> & Hrep1 & Hf1 & Hthird1); [|exact E|].
    { rewrite pathOf_snoc. apply Hun. by left. }
    assert (Hother : forall kp' x, kp' ∈ ps ->
              under (pathOf (ks ++ [fst kp])) x ->
              ~ under (childPathOf (pathOf ks) (fst kp')) x).
    { intros kp' x Hin Hx Hx'. rewrite pathOf_snoc in Hx.
      destruct (Hall kp') as [Hsafe' _]; [by right|].
      apply safeKey_spec in Hsafe' as (_ & Hfree' & _).
      pose proof (siblings_disjoint _ _ _ _ Hfree Hfree' Hx Hx') as Heq.
      apply Hk. rewrite Heq. apply list_elem_of_fmap. eauto. }
    destruct (IH Hnd (fun kp' Hin => Hall kp' (list_elem_of_further _ _ _ Hin)) req
                (rows1 ++ add1) rows')
      as (add2 & F2 & sk2 & -> & Hrep2 & HF2 & Hthird2); [|exact Hrest|].
    { intros kp' Hin. apply unoccupied_app. split; [apply Hun; by right|].
      eapply unoccupied_added; [exact (proj1 Hrep1)|]. intros x Hx. by apply Hother. }
    exists (add1 ++ add2), (fun n => F2 (graft [fst kp] f1 n)), (sk1 ++ sk2).
    split; [by rewrite app_assoc|]. split; [|split].
    + eapply replaysAt_weaken;
        [|apply (replaysAt_app ks _ _ _ _ _ _ _ _ (replaysAt_lift _ _ _ _ _ _ Hrep1) Hrep2)].
      * intros x [Hx|(kp' & Hin & Hx)].
        -- exists kp. split; [by left|]. by rewrite <- pathOf_snoc.
        -- exists kp'. split; [by right|done].
      * intros q x Hq (kp' & Hin & Hx) Hbelow.
        apply (Hother kp' x Hin); [|done]. eapply under_trans; [exact Hq|by right].
    + intros n Hnotin.
      assert (Hg : graft [fst kp] f1 n
                   = setProperties
                       (Some (default [] (s_properties n) ++ [restored kp])) n).
      { simpl. apply safeKey_spec in Hsafe as (_ & _ & _ & -> & _).
        rewrite objGet_None by (apply Hnotin; by left). simpl.
        rewrite Hf1, objSet_fresh by (apply Hnotin; by left). reflexivity. }
      rewrite Hg, HF2.
      * destruct ps; [reflexivity|]. simpl. by rewrite <- app_assoc.
      * intros k Hin. simpl. rewrite fmap_app. simpl.
        rewrite not_elem_of_app. split; [apply Hnotin; by right|].
        intros ->%list_elem_of_singleton. done.
    + intros req' b Hb.
      destruct (Hthird1 b (req' kp)) as (add1' & E1' & Hforget1).
      { rewrite pathOf_snoc. apply Hb. by left. }
      rewrite pathOf_snoc in E1'. rewrite E1'.
      destruct (Hthird2 req' (b ++ add1')) as (add2' & E2' & Hforget2).
      { intros kp' Hin. apply unoccupied_app. split; [apply Hb; by right|].
        eapply unoccupied_added;
          [exact (forget_paths _ _ _ Hforget1 (proj1 Hrep1))|].
        intros x Hx. by apply Hother. }
      exists (add1' ++ add2'). rewrite E2'. split; [by rewrite app_assoc|].
      by rewrite !fmap_app, Hforget1, Hforget2.
Qed.

Lemma flattenProperties_forEach self s p (V : gset string) rows :
  flattenProperties self s p V rows
  = forEachRows
      (fun kp acc =>
         self (snd kp) (childPathOf p (fst kp))
           (existsb (String.eqb (fst kp)) (default [] (s_required s))) acc V)
      (default [] (s_properties s)) rows.
Proof. unfold flattenProperties. by destruct (s_properties s). Qed.

(** The descents of a node of objects and maps at the chain [ks]. *)
Lemma node_descend s ks fuel rows1 rows' :
  Forall seg ks ->
  s_items s = None -> s_additionalProperties s <> Some (AddlBool true) ->
  (forall v, s_additionalProperties s = Some (AddlSchema v) -> subtreeOK rootSpec v) ->
  NoDup (default [] (s_properties s)).*1 ->
  (forall kp, kp ∈ default [] (s_properties s) ->
     safeKey (fst kp) = true /\ subtreeOK rootSpec (snd kp)) ->
  (forall k, k <> "" -> unoccupied (childPathOf (pathOf ks) k) rows1) ->
  descend (flattenSchema fuel rootSpec) s (pathOf ks) ∅ rows1 = Some rows' ->
  exists added F sk',
    rows' = rows1 ++ added
    /\ replaysAt ks (childU (pathOf ks)) added F sk'
    /\ (forall n, s_additionalProperties n = None -> default [] (s_properties n) = [] ->
          F n = let n' := match default [] (s_properties s) with
                          | [] => n
                          | _ => setProperties
                                   (Some (restored <$> default [] (s_properties s))) n
                          end in
                match restoredAddl s with
                | Some a => setAdditionalProperties (Some a) n'
                | None => n'
                end)
    /\ (forall s' b,
          default [] (s_properties s') = restored <$> default [] (s_properties s) ->
          s_additionalProperties s' = restoredAddl s -> s_items s' = None ->
          (forall k, k <> "" -> unoccupied (childPathOf (pathOf ks) k) b) ->
          exists added',
            descend (flattenSchema fuel rootSpec) s' (pathOf ks) ∅ b = Some (b ++ added')
            /\ forget <$> added' = forget <$> added).
Proof.
  intros Hks Hitems Hopen Hvalue Hnd Hprops Hun. unfold descend.
  rewrite flattenProperties_forEach.
  set (ps := default [] (s_properties s)) in *.
  destruct (forEachRows _ ps rows1) as [rows2|] eqn:E2; [|discriminate]. simpl.
  destruct (properties_loop ks fuel Hks ps Hnd Hprops
              (fun kp => existsb (String.eqb (fst kp)) (default [] (s_required s)))
              rows1 rows2)
    as (add1 & F1 & sk1 & -> & Hrep1 & HF1 & Hthird1); [|exact E2|].
  { intros kp Hin. apply Hun. destruct (Hprops kp Hin) as [Hsafe _].
    by apply safeKey_spec in Hsafe as [? _]. }
  assert (Hkeys : forall x,
            (exists kp, kp ∈ ps /\ under (childPathOf (pathOf ks) (fst kp)) x) ->
            childU (pathOf ks) x /\ ~ under (childPathOf (pathOf ks) "<key>") x).
  { intros x (kp & Hin & Hx). destruct (Hprops kp Hin) as [Hsafe _].
    apply safeKey_spec in Hsafe as (Hne & Hfree & _ & Hkey & _). split.
    - by exists (fst kp).
    - intros Hx'.
      pose proof (siblings_disjoint (pathOf ks) (fst kp) "<key>" x Hfree eq_refl Hx Hx')
        as Heq.
      rewrite Heq in Hkey. done. }
  assert (Hmap : forall x, under (childPathOf (pathOf ks) "<key>") x -> childU (pathOf ks) x).
  { intros x Hx. by exists "<key>". }
  assert (Hprops' : forall n, default [] (s_properties n) = [] ->
            F1 n = match ps with
                   | [] => n
                   | _ => setProperties (Some (restored <$> ps)) n
                   end).
  { intros n Hn. rewrite HF1; [by rewrite Hn|]. intros k _. rewrite Hn. apply not_elem_of_nil. }
  assert (Hthird1' : forall s' b,
            default [] (s_properties s') = restored <$> ps ->
            (forall k, k <> "" -> unoccupied (childPathOf (pathOf ks) k) b) ->
            exists add1',
              flattenProperties (flattenSchema fuel rootSpec) s' (pathOf ks) ∅ b
              = Some (b ++ add1')
              /\ forget <$> add1' = forget <$> add1).
  { intros s' b Hs' Hb. rewrite flattenProperties_forEach, Hs', forEachRows_fmap.
    apply (Hthird1 (fun kp => existsb (String.eqb (fst kp)) (default [] (s_required s')))).
    intros kp Hin. apply Hb. destruct (Hprops kp Hin) as [Hsafe _].
    by apply safeKey_spec in Hsafe as [? _]. }
  unfold flattenAdditional at 1. unfold restoredAddl.
  destruct (s_additionalProperties s) as [[[]|v]|] eqn:Hv; [done| | |]; simpl.
  - unfold flattenItems. rewrite Hitems. intros [= <-].
    exists add1, F1, sk1. split; [done|]. split; [|split].
    + eapply replaysAt_weaken; [|exact Hrep1]. intros x Hx. by apply Hkeys.
    + intros n _ Hn. cbv zeta. by apply Hprops'.
    + intros s' b Hs' Ha' Hi' Hb. destruct (Hthird1' s' b Hs' Hb) as (add1' & -> & Hf).
      exists add1'. simpl. unfold flattenAdditional, flattenItems. by rewrite Ha', Hi'.
  - destruct (flattenSchema fuel _ v _ _ _ _) as [rows3|] eqn:E3; [|discriminate]. simpl.
    unfold flattenItems. rewrite Hitems. intros [= <-].
    assert (Hchain : Forall seg (ks ++ ["<key>"])).
    { apply Forall_app. split; [done|]. by apply Forall_singleton. }
    assert (Hcne : ks ++ ["<key>"] <> []) by (by destruct ks).
    rewrite <- pathOf_snoc in E3.
    destruct (Hvalue v eq_refl (ks ++ ["<key>"]) fuel false (rows1 ++ add1) rows3 Hchain Hcne)
      as (add2 & f2 & sk2 & -> & Hrep2 & Hf2 & Hthird2); [|exact E3|].
    { rewrite pathOf_snoc. apply unoccupied_app. split; [by apply Hun|].
      eapply unoccupied_added; [exact (proj1 Hrep1)|]. intros x Hx. by apply Hkeys. }
    exists (add1 ++ add2), (fun n => graft ["<key>"] f2 (F1 n)), (sk1 ++ sk2).
    split; [by rewrite app_assoc|]. split; [|split].
    + eapply replaysAt_weaken;
        [|apply (replaysAt_app ks _ _ _ _ _ _ _ _ Hrep1 (replaysAt_lift _ _ _ _ _ _ Hrep2))].
      * intros x [Hx|Hx]; [by apply Hkeys|]. rewrite pathOf_snoc in Hx. by apply Hmap.
      * intros q x Hq Hx Hbelow. rewrite pathOf_snoc in Hx.
        destruct (Hkeys q Hq) as [_ Hno]. destruct Hq as (kp & Hin & Hq).
        destruct (Hkeys x) as [_ Hno']; [|done].
        exists kp. split; [done|]. eapply under_trans; [exact Hq|by right].
    + intros n Ha Hn. cbv zeta. simpl graft. rewrite (Hprops' n Hn).
      assert (Hnone : s_additionalProperties
                        match ps with
                        | [] => n
                        | _ => setProperties (Some (restored <$> ps)) n
                        end = None) by (by destruct ps).
      rewrite Hnone, Hf2. by destruct ps.
    + intros s' b Hs' Ha' Hi' Hb. destruct (Hthird1' s' b Hs' Hb) as (add1' & -> & Hf).
      simpl. unfold flattenAdditional, flattenItems. rewrite Ha', Hi'.
      destruct (Hthird2 (b ++ add1') false) as (add2' & E2' & Hf').
      { rewrite pathOf_snoc. apply unoccupied_app. split; [by apply Hb|].
        eapply unoccupied_added; [exact (forget_paths _ _ _ Hf (proj1 Hrep1))|].
        intros x Hx. by apply Hkeys. }
      rewrite pathOf_snoc in E2'. rewrite E2'. simpl.
      exists (add1' ++ add2'). split; [by rewrite app_assoc|].
      by rewrite !fmap_app, Hf, Hf'.
  - unfold flattenItems. rewrite Hitems. intros [= <-].
    exists add1, F1, sk1. split; [done|]. split; [|split].
    + eapply replaysAt_weaken; [|exact Hrep1]. intros x Hx. by apply Hkeys.
    + intros n _ Hn. cbv zeta. by apply Hprops'.
    + intros s' b Hs' Ha' Hi' Hb. destruct (Hthird1' s' b Hs' Hb) as (add1' & -> & Hf).
      exists add1'. simpl. unfold flattenAdditional, flattenItems. by rewrite Ha', Hi'.
Qed.

Lemma nodeType_restoreNode s :
  truthy (s_ref s) = false -> nodeType (restoreNode s) = nodeType s.
Proof.
  intros Href. rewrite restoreNode_unfold, Href. unfold nodeType at 1. simpl.
  apply orElse_nonEmpty, nodeType_nonEmpty.
Qed.

Lemma restoreNode_properties s :
  truthy (s_ref s) = false ->
  default [] (s_properties (restoreNode s)) = restored <$> default [] (s_properties s).
Proof.
  intros Href. rewrite restoreNode_unfold, Href. simpl.
  destruct (s_properties s) as [[|kp ps]|]; try reflexivity; by destruct (_ || _).
Qed.

Lemma forget_nodeRow s p r r' oref :
  truthy (s_ref s) = false ->
  forget (nodeRow (restoreNode s) p r' oref) = forget (nodeRow s p r (s_ref s)).
Proof.
  intros Href. unfold forget, nodeRow. simpl. rewrite nodeType_restoreNode by done.
  rewrite restoreNode_unfold, Href. simpl.
  pose proof (orElse_idem (s_description s)) as Hd. unfold orElse at 1 in Hd.
  by rewrite Hd.
Qed.

Lemma children_unoccupied p rows row :
  Str.nonEmpty p = true -> unoccupied p rows -> path row = p ->
  forall k, k <> "" -> unoccupied (childPathOf p k) (rows ++ [row]).
Proof.
  intros Hp Hun Hrow k Hk. apply unoccupied_app. split.
  - intros x Hx Hu. apply (Hun x Hx). by eapply under_childPathOf.
  - intros x ->%list_elem_of_singleton. rewrite Hrow. by apply not_under_child_self.
Qed.

Lemma childU_under p x : Str.nonEmpty p = true -> childU p x -> under p x.
Proof. intros Hp (k & _ & _ & Hx). by eapply under_childPathOf. Qed.

(** Every tree of the class is rebuilt by its rows, at any chain of
    segments. *)
Lemma plainTree_subtree : forall s, plainTree rootSpec s = true -> subtreeOK rootSpec s.
Proof.
  induction s as [s IH] using schema_weight_ind.
  intros Hs ks fuel r rows0 rows' Hks Hne Hun E.
  pose proof (pathOf_nonEmpty ks Hks Hne) as Hp.
  destruct (truthy (s_ref s)) eqn:Href.
  - destruct (plainTree_reference s Hs Href) as [Honly Hpoly].
    destruct (flattenSchema_head fuel s _ r rows0 rows' Hp Hun Hpoly E)
      as (below & -> & Hbelow & Hagain).
    set (own := nodeRow _ (pathOf ks) r (s_ref s)) in *.
    exists (own :: below), (writeLeaf false own), [pathOf ks].
    split; [done|]. split; [|split].
    + split; [|split; [|split]].
      * constructor; [apply under_refl|].
        eapply Forall_impl; [exact Hbelow|]. intros row Hrow. by right.
      * apply Forall_singleton, under_refl.
      * intros x. apply closedMaps_writeLeaf.
      * intros root sk Hroot Hsk. simpl.
        rewrite (unflattenRow_at own ks root sk Hks Hne eq_refl Hroot (Hsk _ (under_refl _))).
        simpl. rewrite Href.
        apply (unflattenRows_skipped (pathOf ks)); [done|]. set_solver.
    + unfold writeLeaf. simpl. rewrite Href. by rewrite restoreNode_unfold, Href.
    + intros b r' Hb. rewrite restoreNode_unfold, Href, refOnly_eq by done.
      eexists. split; [apply Hagain, Hb|]. reflexivity.
  - destruct (plainTree_plain s Hs Href)
      as (Hfrom & Hitems & Hall & Hone & Hany & Hvalue & Hopen & Hprops).
    destruct fuel as [|fuel]; [discriminate|]. simpl in E.
    rewrite flattenBody_plainNode, pushNode_unoccupied in E by done.
    set (own := nodeRow s (pathOf ks) r (s_ref s)) in *.
    assert (Hnd : NoDup (default [] (s_properties s)).*1).
    { destruct (s_properties s) as [ps|] eqn:Hps; [|constructor].
      by destruct (Hprops ps eq_refl). }
    assert (Hkids : forall kp, kp ∈ default [] (s_properties s) ->
              safeKey (fst kp) = true /\ subtreeOK rootSpec (snd kp)).
    { intros kp Hin. destruct (s_properties s) as [ps|] eqn:Hps;
        [|by apply elem_of_nil in Hin].
      destruct (Hprops ps eq_refl) as [_ Hall']. destruct (Hall' kp Hin) as [Hsafe Htree].
      split; [done|]. apply IH; [by eapply property_weight|done]. }
    assert (Hval : forall v, s_additionalProperties s = Some (AddlSchema v) ->
              subtreeOK rootSpec v).
    { intros v Hv. apply IH; [|by apply Hvalue].
      apply children_weight. unfold children. rewrite Hv. set_solver. }
    destruct (node_descend s ks fuel _ rows' Hks Hitems Hopen Hval Hnd Hkids
                (children_unoccupied _ rows0 own Hp Hun eq_refl) E)
      as (added & F & sk' & -> & (HU & Hsk' & Hclosed & Hreplay) & HF & Hthird).
    exists (own :: added), (fun n => F (writeLeaf false own n)), sk'.
    split; [by rewrite <- app_assoc|]. split; [|split].
    + split; [|split; [|split]].
      * constructor; [apply under_refl|].
        eapply Forall_impl; [exact HU|]. intros row. by apply childU_under.
      * eapply Forall_impl; [exact Hsk'|]. intros x. by apply childU_under.
      * intros x Hx. apply Hclosed. by apply closedMaps_writeLeaf.
      * intros root sk Hroot Hsk. simpl.
        rewrite (unflattenRow_at own ks root sk Hks Hne eq_refl Hroot (Hsk _ (under_refl _))).
        simpl. rewrite Href. apply Hreplay.
        -- apply graft_closed; [|done]. intros x. apply closedMaps_writeLeaf.
        -- intros x Hx. by apply Hsk, childU_under.
    + assert (Hleaf : writeLeaf false own freshObject
                      = Schema None (Some (nodeType s)) (Some (orElse (s_description s) ""))
                          (if String.eqb (nodeType s) "object" || String.eqb (nodeType s) "array"
                           then Some [] else None)
                          None None None None None None None None None).
      { unfold writeLeaf, own, nodeRow. simpl. rewrite Href. simpl.
        destruct (String.eqb (nodeType s) "object"), (String.eqb (nodeType s) "array");
          reflexivity. }
      rewrite Hleaf, HF; [| reflexivity | by destruct (_ || _)].
      rewrite restoreNode_unfold, Href. cbv zeta.
      destruct (s_properties s) as [[|kp ps]|]; simpl; by destruct (restoredAddl s).
    + intros b r' Hb.
      assert (Href' : truthy (s_ref (restoreNode s)) = false)
        by (by rewrite restoreNode_unfold, Href).
      simpl. rewrite flattenBody_plainNode, pushNode_unoccupied;
        [|done|done|by rewrite restoreNode_unfold, Href..].
      destruct (Hthird (restoreNode s)
                  (b ++ [nodeRow (restoreNode s) (pathOf ks) r' (s_ref (restoreNode s))]))
        as (added' & -> & Hforget).
      * by apply restoreNode_properties.
      * by rewrite restoreNode_unfold, Href.
      * by rewrite restoreNode_unfold, Href.
      * by apply children_unoccupied.
      * exists (nodeRow (restoreNode s) (pathOf ks) r' (s_ref (restoreNode s)) :: added').
        split; [by rewrite <- app_assoc|]. csimpl. f_equal; [|done].
        by apply forget_nodeRow.
Qed.

Lemma childU_nonEmpty x : childU "" x -> x <> "".
Proof.
  intros (k & Hk & _ & Hx) ->. apply under_spec in Hx as (t & _ & Hx).
  destruct k; [done|]. unfold childPathOf in Hx. simpl in Hx. discriminate.
Qed.

(** A plain tree holds no [allOf]. *)
Lemma plainTree_noAllOf : forall s, plainTree rootSpec s = true -> noAllOf s = true.
Proof.
  induction s as [s IH] using schema_weight_ind. intros Hs.
  destruct (truthy (s_ref s)) eqn:Href.
  - destruct (plainTree_reference s Hs Href) as [Honly _].
    rewrite <- (refOnly_eq s Honly). reflexivity.
  - destruct (plainTree_plain s Hs Href)
      as (_ & Hitems & Hall & Hone & Hany & Hvalue & _ & Hprops).
    assert (Hps : match s_properties s with
                  | Some ps => forallb (fun kp => noAllOf (snd kp)) ps
                  | None => true
                  end = true).
    { destruct (s_properties s) as [ps|] eqn:Hps; [|done].
      apply forallb_forall. intros kp Hin%list_elem_of_In.
      destruct (Hprops ps eq_refl) as [_ Hall']. destruct (Hall' kp Hin) as [_ Htree].
      apply IH; [by eapply property_weight|done]. }
    assert (Hv : match s_additionalProperties s with
                 | Some (AddlSchema a) => noAllOf a
                 | _ => true
                 end = true).
    { destruct (s_additionalProperties s) as [[b|v]|] eqn:Hv; try done.
      apply IH; [|by apply Hvalue]. apply children_weight. unfold children.
      rewrite Hv. set_solver. }
    destruct s; simpl in *. by rewrite Hall, Hone, Hany, Hitems, Hps, Hv.
Qed.

End PlainTree.

(** ** The round trip *)




(** ** Registries without reference cycles *)

Lemma resolveSchema_resolvesTo s (rootSpec : registry) :
  match resolvesTo rootSpec s with
  | Some name =>
      exists target, rootSpec !! name = Some target
                     /\ resolveSchema s rootSpec = resolvedFrom name target
  | None => resolveSchema s rootSpec = s
  end.
Proof.
  unfold resolvesTo, resolveSchema. destruct (s_ref s) as [r|]; [|done].
  destruct (Str.nonEmpty r); [|done].
  destruct (rootSpec !! _) as [target|] eqn:E; [|done]. eauto.
Qed.

Lemma members_weight c s : c ∈ members s -> weight c < weight s.
Proof.
  unfold members. rewrite elem_of_app. intros [H|H]; [by apply children_weight|].
  destruct s as [rf ty d ps rq it ad ao oo an en ex rs]; simpl in *.
  destruct ao as [bs|]; simpl in H; [|by apply elem_of_nil in H].
  pose proof (sum_list_elem_le weight c bs H). lia.
Qed.

Lemma forallb_elem_of {A} (f : A -> bool) (l : list A) :
  forallb f l = true <-> forall x, x ∈ l -> f x = true.
Proof.
  rewrite forallb_forall. split; intros H x Hx; apply H; by apply list_elem_of_In.
Qed.

Lemma refsBelow_spec (rootSpec : registry) rank b s :
  refsBelow rootSpec rank b s = true <->
  truthy (s_resolvedFrom s) = false
  /\ (forall name, resolvesTo rootSpec s = Some name -> rank name < b)
  /\ forall c, c ∈ members s -> refsBelow rootSpec rank b c = true.
Proof.
  unfold members, children.
  destruct s as [rf ty d ps rq it ad ao oo an en ex rs]; simpl.
  rewrite !andb_true_iff, negb_true_iff.
  split.
  - intros (((((((H1 & H2) & H3) & H4) & H5) & H6) & H7) & H8).
    split; [done|]. split.
    { intros name Hn. rewrite Hn in H2. by apply Nat.ltb_lt. }
    intros c. rewrite !elem_of_app. intros [[H|[H|[H|[H|H]]]]|H].
    + destruct ps as [ps|]; simpl in H; [|by apply elem_of_nil in H].
      apply list_elem_of_fmap in H as [kp [-> Hin]].
      by apply (proj1 (forallb_elem_of _ _) H3).
    + destruct ad as [[?|a]|]; try by apply elem_of_nil in H.
      by apply list_elem_of_singleton in H as ->.
    + destruct it as [i|]; [|by apply elem_of_nil in H].
      by apply list_elem_of_singleton in H as ->.
    + destruct oo as [bs|]; simpl in H; [|by apply elem_of_nil in H].
      by apply (proj1 (forallb_elem_of _ _) H7).
    + destruct an as [bs|]; simpl in H; [|by apply elem_of_nil in H].
      by apply (proj1 (forallb_elem_of _ _) H8).
    + destruct ao as [bs|]; simpl in H; [|by apply elem_of_nil in H].
      by apply (proj1 (forallb_elem_of _ _) H6).
  - intros (H1 & H2 & H3).
    repeat split; try done.
    + destruct (resolvesTo _ _) as [name|] eqn:E; [|done].
      apply Nat.ltb_lt, H2. by rewrite <- E.
    + destruct ps as [ps|]; [|done]. apply forallb_elem_of. intros kp Hkp.
      apply H3. rewrite !elem_of_app. left; left. simpl.
      apply list_elem_of_fmap. eauto.
    + destruct ad as [[?|a]|]; try done. apply H3. rewrite !elem_of_app.
      left; right; left. by left.
    + destruct it as [i|]; [|done]. apply H3. rewrite !elem_of_app.
      left; right; right; left. by left.
    + destruct ao as [bs|]; [|done]. apply forallb_elem_of. intros c Hin.
      apply H3. rewrite !elem_of_app. by right.
    + destruct oo as [bs|]; [|done]. apply forallb_elem_of. intros c Hin.
      apply H3. rewrite !elem_of_app. left; right; right; right. by left.
    + destruct an as [bs|]; [|done]. apply forallb_elem_of. intros c Hin.
      apply H3. rewrite !elem_of_app. left; right; right; right. by right.
Qed.

Lemma refsBelow_mono (rootSpec : registry) rank b b' : b <= b' ->
  forall s, refsBelow rootSpec rank b s = true -> refsBelow rootSpec rank b' s = true.
Proof.
  intros Hle. induction s as [s IH] using schema_weight_ind.
  rewrite !refsBelow_spec. intros (H1 & H2 & H3). split; [done|]. split.
  - intros name Hn. specialize (H2 name Hn). lia.
  - intros c Hc. apply IH; [by apply members_weight|by apply H3].
Qed.

Lemma objSet_values {A} (good : A -> Prop) k v (o : list (string * A)) :
  good v -> (forall kv, kv ∈ o -> good (snd kv)) ->
  forall kv, kv ∈ objSet k v o -> good (snd kv).
Proof.
  intros Hv. induction o as [|[k0 v0] o IH]; intros Ho kv; simpl.
  - by intros ->%list_elem_of_singleton.
  - destruct (String.eqb k0 k).
    + intros [->|Hin]%elem_of_cons; [done|]. apply Ho. by right.
    + intros [->|Hin]%elem_of_cons; [apply (Ho (k0, v0)); by left|].
      apply IH; [|done]. intros kv' Hkv'. apply Ho. by right.
Qed.

Lemma objAssign_values {A} (good : A -> Prop) (source : list (string * A)) :
  (forall kv, kv ∈ source -> good (snd kv)) ->
  forall target, (forall kv, kv ∈ target -> good (snd kv)) ->
  forall kv, kv ∈ objAssign target source -> good (snd kv).
Proof.
  unfold objAssign. induction source as [|[k v] source IH]; intros Hs target Ht; simpl.
  - exact Ht.
  - apply IH.
    + intros kv Hkv. apply Hs. by right.
    + apply objSet_values; [|done]. apply (Hs (k, v)). by left.
Qed.

Section Acyclic.

Variable rootSpec : registry.
Variable rank : string -> nat.
Hypothesis no_cycle : acyclic rootSpec rank.

Local Abbreviation below := (refsBelow rootSpec rank).

(** What [resolveSchema] returns has its members below the bound, once the
    bound is lowered to the rank of the component entered. *)
Lemma resolved_members b s :
  below b s = true ->
  exists b', b' <= b
    /\ (forall c, c ∈ members (resolveSchema s rootSpec) -> below b' c = true)
    /\ (forall V : gset string, (forall n, n ∈ V -> b <= rank n) ->
          cycleAt (resolveSchema s rootSpec) V = None
          /\ forall n, n ∈ visit (resolveSchema s rootSpec) V -> b' <= rank n).
Proof.
  intros Hs. pose proof (proj1 (refsBelow_spec _ _ _ _) Hs) as (Hrf & Hrank & Hmem).
  pose proof (resolveSchema_resolvesTo s rootSpec) as Hres.
  destruct (resolvesTo rootSpec s) as [name|] eqn:E.
  - destruct Hres as (target & Hlook & ->). specialize (Hrank name eq_refl).
    pose proof (no_cycle name target Hlook) as Htarget. simpl in Htarget.
    apply refsBelow_spec in Htarget as (_ & _ & Htm).
    exists (rank name). split; [lia|]. split.
    { intros c Hc. apply Htm. by destruct target. }
    intros V HV. unfold cycleAt, visit. simpl.
    destruct (Str.nonEmpty name); simpl.
    + case_bool_decide as Hin; [specialize (HV _ Hin); lia|]. split; [done|].
      intros n [->%elem_of_singleton|Hn]%elem_of_union; [lia|].
      specialize (HV _ Hn). lia.
    + split; [done|]. intros n Hn. specialize (HV _ Hn). lia.
  - rewrite Hres. exists b. split; [lia|]. split; [done|].
    intros V HV. unfold cycleAt, visit. unfold truthy in Hrf.
    destruct (s_resolvedFrom s) as [nm|]; [rewrite Hrf|]; simpl; auto.
Qed.

(** The schemas that a call descends into after the [allOf] merge. *)
Lemma merged_children b resolved :
  (forall c, c ∈ members resolved -> below b c = true) ->
  forall c, c ∈ children (mergeAllOf rootSpec resolved) -> below b c = true.
Proof.
  intros Hmem. unfold mergeAllOf.
  destruct (s_allOf resolved) as [bs|] eqn:Hall.
  2:{ intros c Hc. apply Hmem. unfold members. rewrite elem_of_app. by left. }
  assert (Hbs : forall br, br ∈ bs -> below b br = true).
  { intros br Hbr. apply Hmem. unfold members. rewrite elem_of_app, Hall. by right. }
  assert (Hown : forall c, c ∈ children resolved -> below b c = true).
  { intros c Hc. apply Hmem. unfold members. rewrite elem_of_app. by left. }
  assert (Hbranch : forall br, br ∈ bs ->
            forall c, c ∈ children (resolveSchema br rootSpec) -> below b c = true).
  { intros br Hbr c Hc.
    destruct (resolved_members b br (Hbs br Hbr)) as (b' & Hle & Hm & _).
    apply (refsBelow_mono _ _ b' b Hle). apply Hm.
    unfold members. rewrite elem_of_app. by left. }
  assert (Hmerged : forall l,
            (forall br, br ∈ l -> br ∈ bs) ->
            forall m,
              ((forall kv, kv ∈ m_properties m -> below b (snd kv) = true)
               /\ (forall a, m_additionalProperties m = Some (AddlSchema a) ->
                              below b a = true)) ->
              (forall kv, kv ∈ m_properties (fold_left (mergeBranch rootSpec) l m) ->
                          below b (snd kv) = true)
              /\ (forall a, m_additionalProperties (fold_left (mergeBranch rootSpec) l m)
                             = Some (AddlSchema a) -> below b a = true)).
  { induction l as [|br l IHl]; intros Hsub m Hm; [exact Hm|]. simpl.
    apply IHl; [intros br' Hin; apply Hsub; by right|].
    destruct Hm as [Hp Ha]. pose proof (Hbranch br (Hsub br ltac:(by left))) as Hc.
    unfold children in Hc. unfold mergeBranch. simpl. split.
    - destruct (s_properties (resolveSchema br rootSpec)) as [ps|]; [|exact Hp].
      apply (objAssign_values (fun v => below b v = true)); [|exact Hp].
      intros kv Hkv. apply Hc. rewrite !elem_of_app. left. simpl.
      apply list_elem_of_fmap. eauto.
    - intros a. destruct (addlTruthy _) eqn:Et; [|apply Ha].
      intros Heq. apply Hc. rewrite Heq, !elem_of_app. right; left. by left. }
  destruct (Hmerged bs (fun _ H => H) (Merged [] [] None)) as [Hp Ha].
  { split; [intros kv Hkv; by apply elem_of_nil in Hkv|discriminate]. }
  fold (mergeBranches rootSpec bs) in Hp, Ha.
  intros c. unfold children. simpl. rewrite !elem_of_app.
  intros [H|[H|[H|[H|H]]]].
  - apply list_elem_of_fmap in H as [kv [-> Hkv]]. by apply Hp.
  - destruct (m_additionalProperties (mergeBranches rootSpec bs)) as [[?|a]|] eqn:Em.
    + by apply elem_of_nil in H.
    + apply list_elem_of_singleton in H as ->. by apply Ha.
    + apply Hown. unfold children. rewrite !elem_of_app. right; left. exact H.
  - apply Hown. unfold children. rewrite !elem_of_app. right; right; left. exact H.
  - apply Hown. unfold children. rewrite !elem_of_app. right; right; right. by left.
  - apply Hown. unfold children. rewrite !elem_of_app. right; right; right. by right.
Qed.

Lemma forEachRows_ext {A} (f g : A -> list FlatSchemaRow -> option (list FlatSchemaRow)) xs :
  (forall x rows, x ∈ xs -> f x rows = g x rows) ->
  forall rows, forEachRows f xs rows = forEachRows g xs rows.
Proof.
  induction xs as [|x xs IH]; intros H rows; simpl; [done|].
  rewrite H by (by left). destruct (g x rows); [|done].
  apply IH. intros y rows' Hy. apply H. by right.
Qed.

Lemma flattenBodyWith_unmarked mark1 mark2 self1 self2 s p r rows (V : gset string) b :
  below b s = true -> (forall n, n ∈ V -> b <= rank n) ->
  (forall c p r rows (V' : gset string) b',
      below b' c = true -> (forall n, n ∈ V' -> b' <= rank n) ->
      self1 c p r rows V' = self2 c p r rows V') ->
  flattenBodyWith mark1 self1 rootSpec s p r rows V
  = flattenBodyWith mark2 self2 rootSpec s p r rows V.
Proof.
  intros Hs HV Hself. unfold flattenBodyWith.
  destruct (resolved_members b s Hs) as (b' & Hle & Hmem & Hguard).
  destruct (Hguard V HV) as [-> HV'].
  pose proof (merged_children b' _ Hmem) as Hch.
  set (resolved := mergeAllOf rootSpec (resolveSchema s rootSpec)) in *.
  set (V' := visit (resolveSchema s rootSpec) V) in *.
  unfold children in Hch.
  assert (E1 : forall rows0,
            forEachRows (fun c acc => self1 c p r acc V') (polymorphic resolved) rows0
            = forEachRows (fun c acc => self2 c p r acc V') (polymorphic resolved) rows0).
  { apply forEachRows_ext. intros c rows0 Hc. apply (Hself _ _ _ _ _ b'); [|done].
    apply Hch. rewrite !elem_of_app. unfold polymorphic in Hc.
    destruct (s_oneOf resolved); simpl; [auto|].
    destruct (s_anyOf resolved); simpl; [auto 6|]. by apply elem_of_nil in Hc. }
  rewrite E1. destruct (forEachRows _ (polymorphic resolved) rows) as [rows1|]; [|done].
  simpl.
  assert (E2 : forall rows0,
            flattenProperties self1 resolved p V' rows0
            = flattenProperties self2 resolved p V' rows0).
  { intros rows0. unfold flattenProperties.
    destruct (s_properties resolved) as [ps|] eqn:Eps; [|done].
    apply forEachRows_ext. intros kp rows2 Hkp. apply (Hself _ _ _ _ _ b'); [|done].
    apply Hch. rewrite !elem_of_app. left. simpl. apply list_elem_of_fmap. eauto. }
  rewrite E2. destruct (flattenProperties self2 resolved p V' _) as [rows2|]; [|done].
  simpl.
  assert (E3 : flattenAdditional self1 resolved p V' rows2
               = flattenAdditional self2 resolved p V' rows2).
  { unfold flattenAdditional.
    destruct (s_additionalProperties resolved) as [[[]|a]|] eqn:Ead; try done.
    apply (Hself _ _ _ _ _ b'); [|done].
    apply Hch. rewrite !elem_of_app. right; left. by left. }
  rewrite E3. destruct (flattenAdditional self2 resolved p V' rows2) as [rows3|]; [|done].
  simpl. unfold flattenItems. destruct (s_items resolved) as [i|] eqn:Eit; [|done].
  destruct (String.eqb _ _); [|done].
  apply (Hself _ _ _ _ _ b'); [|done].
  apply Hch. rewrite !elem_of_app. right; right; left. by left.
Qed.

Lemma flattenSchemaWith_unmarked mark1 mark2 fuel :
  forall s p r rows (V : gset string) b,
    below b s = true -> (forall n, n ∈ V -> b <= rank n) ->
    flattenSchemaWith mark1 fuel rootSpec s p r rows V
    = flattenSchemaWith mark2 fuel rootSpec s p r rows V.
Proof.
  induction fuel as [|fuel IH]; intros s p r rows V b Hs HV; [done|].
  simpl. apply (flattenBodyWith_unmarked _ _ _ _ _ _ _ _ _ b); [exact Hs|exact HV|].
  intros c p' r' rows' V' b' Hc HV'. by apply (IH _ _ _ _ _ b').
Qed.

End Acyclic.

Lemma flattenSchemaWith_recursiveRow fuel (rootSpec : registry) :
  forall s p r rows (V : gset string),
    flattenSchemaWith recursiveRow fuel rootSpec s p r rows V
    = flattenSchema fuel rootSpec s p r rows V.
Proof.
  induction fuel as [|fuel IH]; intros s p r rows V; [done|].
  simpl. unfold flattenBody, flattenBodyWith.
  destruct (cycleAt _ V); [done|].
  set (resolved := mergeAllOf _ _). set (V' := visit _ V).
  rewrite (forEachRows_ext _ (fun c acc => flattenSchema fuel rootSpec c p r acc V'))
    by (intros; apply IH).
  destruct (forEachRows _ (polymorphic resolved) rows) as [rows1|]; [|done]. simpl.
  assert (E2 : forall rows0,
            flattenProperties (flattenSchemaWith recursiveRow fuel rootSpec) resolved p V' rows0
            = flattenProperties (flattenSchema fuel rootSpec) resolved p V' rows0).
  { intros rows0. unfold flattenProperties. destruct (s_properties resolved); [|done].
    apply forEachRows_ext. intros; apply IH. }
  rewrite E2. destruct (flattenProperties _ resolved p V' _) as [rows2|]; [|done]. simpl.
  assert (E3 : flattenAdditional (flattenSchemaWith recursiveRow fuel rootSpec) resolved p V' rows2
               = flattenAdditional (flattenSchema fuel rootSpec) resolved p V' rows2).
  { unfold flattenAdditional.
    destruct (s_additionalProperties resolved) as [[[]|a]|]; done. }
  rewrite E3. clear E3.
  destruct (flattenAdditional _ resolved p V' rows2) as [rows3|]; simpl; [|done].
  unfold flattenItems. destruct (s_items resolved); [|done].
  destruct (String.eqb _ _); [|done]. apply IH.
Qed.

(** C9: with the visited sets kept as objects in a store, a call of
    [flattenSchema] returns the rows of the call by value on the contents of
    its set, leaves every set that existed before it untouched except its
    own, and adds to its own set nothing but the name it resolved: each
    recursive call, for a property, an alternative, a map value or the
    items of an array, works on a copy.  When the references of the
    registry form no cycle, the guard is never reached, however often a
    component is used: the rows do not depend on the row the guard would
    append.  Two cycles in two sibling properties are each stopped at their
    own re-entry, and a component used by two siblings is expanded under
    both. *)
Theorem visited_sets_are_copied :
  (forall fuel (rootSpec : registry) s p r rows (h : list (gset string)) l,
      l < length h ->
      match Store.flattenSchema fuel rootSpec s p r (rows, h) l with
      | None => flattenSchema fuel rootSpec s p r rows (Store.contents h l) = None
      | Some st' =>
          flattenSchema fuel rootSpec s p r rows (Store.contents h l) = Some (fst st')
          /\ length h <= length (snd st')
          /\ (forall l', l' < length h -> l' <> l -> snd st' !! l' = h !! l')
          /\ snd st' !! l
             = Some (match cycleAt (resolveSchema s rootSpec) (Store.contents h l) with
                     | Some _ => Store.contents h l
                     | None => visit (resolveSchema s rootSpec) (Store.contents h l)
                     end)
      end)
  /\ (forall (rootSpec : registry) rank s b mark fuel p r rows,
        acyclic rootSpec rank -> refsBelow rootSpec rank b s = true ->
        flattenSchemaWith mark fuel rootSpec s p r rows ∅
        = flattenSchema fuel rootSpec s p r rows ∅)
  /\ flattenSchemaWith otherMark 3 abReg (refTo "#/components/schemas/A") "" false [] ∅
     = Some [Row "" "object" false "" None None (Some "#/components/schemas/A");
             Row "prop" "object" false "" None None (Some "#/components/schemas/B");
             otherMark "A" "prop.prop" false (Some "#/components/schemas/A")]
  /\ fst <$> Store.flattenSchema 4 selfReg twoCycles "" false ([], [∅]) 0
     = Some [Row "a" "object" false "" None None (Some "#/components/schemas/A");
             Row "a.self" "Recursive (A)" false "Recursive reference detected"
               None None (Some "#/components/schemas/A");
             Row "b" "object" false "" None None (Some "#/components/schemas/B");
             Row "b.self" "Recursive (B)" false "Recursive reference detected"
               None None (Some "#/components/schemas/B")]
  /\ fst <$> Store.flattenSchema 4 leafReg usedTwice "" false ([], [∅]) 0
     = Some [Row "a" "string" false "" None None (Some "#/components/schemas/X");
             Row "b" "string" false "" None None (Some "#/components/schemas/X")].
Proof.
  split; [|split; [|split; [|split]]].
  - intros fuel rootSpec s p r rows h l Hl.
    exact (flattenSchema_agrees rootSpec fuel s p r rows h l Hl).
  - intros rootSpec rank s b mark fuel p r rows Hac Hs.
    rewrite <- flattenSchemaWith_recursiveRow.
    apply (flattenSchemaWith_unmarked rootSpec rank Hac mark recursiveRow fuel s p r rows ∅ b Hs).
    intros n Hn. by apply not_elem_of_empty in Hn.
  - vm_compute. reflexivity.
  - vm_compute. reflexivity.
  - vm_compute. reflexivity.
Qed.

Lemma leafReg_acyclic : acyclic leafReg (fun _ => 0).
Proof.
  intros name target. unfold leafReg. rewrite lookup_singleton_Some.
  intros [<- <-]. vm_compute. reflexivity.
Qed.

Lemma usedTwice_refsBelow : refsBelow leafReg (fun _ => 0) 1 usedTwice = true.
Proof. vm_compute. reflexivity. Qed.

(** The component [X], used by two sibling properties, is flattened with
    any other row for the guard as it is with the row of the source. *)
Lemma visited_sets_are_copied_witness :
  flattenSchemaWith otherMark 4 leafReg usedTwice "" false [] ∅
  = flattenSchema 4 leafReg usedTwice "" false [] ∅.
Proof.
  exact (proj1 (proj2 visited_sets_are_copied) leafReg (fun _ => 0) usedTwice 1
           otherMark 4 "" false [] leafReg_acyclic usedTwice_refsBelow).
Defined.

(** ** Flattener: what every call keeps *)

Lemma appends_refl Q rows : appends Q rows rows.
Proof. exists []. by rewrite app_nil_r. Qed.

Lemma appends_trans Q a b c : appends Q a b -> appends Q b c -> appends Q a c.
Proof.
  intros (x & -> & Hx) (y & -> & Hy). exists (x ++ y).
  split; [by rewrite app_assoc|by apply Forall_app].
Qed.

Lemma appends_push (Q : FlatSchemaRow -> Prop) rows row : Q row -> appends Q rows (rows ++ [row]).
Proof. intros H. exists [row]. split; [done|]. by apply Forall_singleton. Qed.

Lemma forEachRows_appends {A} Q (f : A -> list FlatSchemaRow -> option (list FlatSchemaRow)) xs :
  (forall x rows rows', f x rows = Some rows' -> appends Q rows rows') ->
  forall rows rows', forEachRows f xs rows = Some rows' -> appends Q rows rows'.
Proof.
  intros Hf. induction xs as [|x xs IH]; intros rows rows'; simpl.
  - intros [= <-]. apply appends_refl.
  - destruct (f x rows) as [rows1|] eqn:E; [|discriminate].
    intros H. eapply appends_trans; [eapply Hf, E|eapply IH, H].
Qed.

Section RowsInvariant.

Variable rootSpec : registry.
Variable Q : FlatSchemaRow -> Prop.
Hypothesis Q_mark : forall name p r oref, Q (recursiveRow name p r oref).
Hypothesis Q_node : forall resolved p r oref, Q (nodeRow resolved p r oref).
Hypothesis Q_any : forall p, Q (anyRow p).

Variable self : schema -> string -> bool -> list FlatSchemaRow -> gset string
                -> option (list FlatSchemaRow).
Hypothesis self_appends : forall s p r rows V rows',
  self s p r rows V = Some rows' -> appends Q rows rows'.

Lemma flattenBody_appends s p r rows V rows' :
  flattenBody self rootSpec s p r rows V = Some rows' -> appends Q rows rows'.
Proof.
  unfold flattenBody, flattenBodyWith.
  destruct (cycleAt _ V) as [name|]; [intros [= <-]; apply appends_push, Q_mark|].
  set (V' := visit _ V). set (resolved := mergeAllOf _ _).
  destruct (forEachRows _ (polymorphic resolved) rows) as [rows1|] eqn:E1;
    [|discriminate]; simpl.
  destruct (flattenProperties self resolved p V' _) as [rows2|] eqn:E2;
    [|discriminate]; simpl.
  destruct (flattenAdditional self resolved p V' rows2) as [rows3|] eqn:E3;
    [|discriminate]; simpl.
  intros E4.
  apply appends_trans with rows1.
  { eapply forEachRows_appends; [|exact E1]. intros x a b Hx.
    exact (self_appends _ _ _ _ _ _ Hx). }
  apply appends_trans with (pushNode resolved p r (s_ref s) rows1).
  { unfold pushNode. destruct (emitsRow _ _ _); [|apply appends_refl].
    destruct (existsb _ rows1); [apply appends_refl|].
    apply appends_push. apply (Q_node resolved p r (s_ref s)). }
  apply appends_trans with rows2.
  { unfold flattenProperties in E2.
    destruct (s_properties resolved); [|injection E2 as <-; apply appends_refl].
    eapply forEachRows_appends; [|exact E2]. intros x a b Hx.
    exact (self_appends _ _ _ _ _ _ Hx). }
  apply appends_trans with rows3.
  { unfold flattenAdditional in E3.
    destruct (s_additionalProperties resolved) as [[[]|a]|];
      try (injection E3 as <-; first [apply appends_refl|apply appends_push, Q_any]).
    eapply self_appends, E3. }
  unfold flattenItems in E4.
  destruct (s_items resolved); [|injection E4 as <-; apply appends_refl].
  destruct (String.eqb _ _); [|injection E4 as <-; apply appends_refl].
  eapply self_appends, E4.
Qed.

End RowsInvariant.

Lemma flattenSchema_rows (Q : FlatSchemaRow -> Prop) :
  (forall name p r oref, Q (recursiveRow name p r oref)) ->
  (forall resolved p r oref, Q (nodeRow resolved p r oref)) ->
  (forall p, Q (anyRow p)) ->
  forall fuel rootSpec s p r rows V rows',
    flattenSchema fuel rootSpec s p r rows V = Some rows' -> appends Q rows rows'.
Proof.
  intros H1 H2 H3. induction fuel as [|fuel IH]; intros rootSpec s p r rows V rows'.
  - discriminate.
  - simpl. apply flattenBody_appends; auto. intros; eapply IH; eauto.
Qed.

(** X1.  A call of the flattener only appends to the rows it is given.
    Every row it appends has a type that is not empty; and when the current
    path is not empty, the path of every appended row is that path or
    continues it with a dot or a bracket. *)
Theorem flattenSchema_appends fuel (rootSpec : registry) s p r rows V rows' :
  flattenSchema fuel rootSpec s p r rows V = Some rows' ->
  exists added,
    rows' = rows ++ added
    /\ Forall (fun row => Str.nonEmpty (type row) = true) added
    /\ (Str.nonEmpty p = true -> Forall (fun row => under p (path row)) added).
Proof.
  intros E.
  destruct (flattenSchema_rows (fun row => Str.nonEmpty (type row) = true)) with (4 := E)
    as (added & -> & Htypes).
  - reflexivity.
  - intros resolved p0 r0 oref. apply nodeType_nonEmpty.
  - reflexivity.
  - exists added. split; [done|]. split; [done|]. intros Hp.
    destruct (flattenSchema_grows _ _ _ _ _ _ _ _ Hp E) as (added' & Heq & Hunder).
    by apply app_inv_head in Heq as ->.
Qed.

(** An array of strings under [tags]: two rows, at [tags] and at [tags[]]. *)
Lemma flattenSchema_appends_witness :
  flattenSchema 2 ∅ (array (typed "string")) "tags" false [plainRow "id" "integer"] ∅
  = Some [plainRow "id" "integer"; plainRow "tags" "array"; plainRow "tags[]" "string"]
  /\ exists added,
       [plainRow "id" "integer"; plainRow "tags" "array"; plainRow "tags[]" "string"]
       = [plainRow "id" "integer"] ++ added
       /\ Forall (fun row => Str.nonEmpty (type row) = true) added
       /\ (Str.nonEmpty "tags" = true -> Forall (fun row => under "tags" (path row)) added).
Proof.
  assert (E : flattenSchema 2 ∅ (array (typed "string")) "tags" false
                [plainRow "id" "integer"] ∅
              = Some [plainRow "id" "integer"; plainRow "tags" "array";
                      plainRow "tags[]" "string"]) by (vm_compute; reflexivity).
  split; [exact E|]. exact (flattenSchema_appends _ _ _ _ _ _ _ _ E).
Defined.

(** X2.  What a call appends at a path that is not empty does not depend on
    the rows that are there already, as long as none of them is at that path
    or below it: a subtree flattens to the same rows wherever it is reached
    from. *)
Theorem flattenSchema_context_free fuel (rootSpec : registry) s p r a b V rows' :
  Str.nonEmpty p = true -> unoccupied p a -> unoccupied p b ->
  flattenSchema fuel rootSpec s p r a V = Some rows' ->
  exists added,
    rows' = a ++ added
    /\ flattenSchema fuel rootSpec s p r b V = Some (b ++ added).
Proof.
  intros Hp Ha Hb E.
  exact (flattenSchema_alike fuel rootSpec s p r a b V rows' Hp
           (unoccupied_alike p a b Ha Hb) E).
Qed.

Lemma unoccupied_singleton p row : ~ under p (path row) -> unoccupied p [row].
Proof. intros H x Hx. by apply list_elem_of_singleton in Hx as ->. Qed.

(** The array of strings under [tags], after a row at [id] and alone. *)
Lemma flattenSchema_context_free_witness :
  exists added,
    flattenSchema 2 ∅ (array (typed "string")) "tags" false [plainRow "id" "integer"] ∅
    = Some ([plainRow "id" "integer"] ++ added)
    /\ flattenSchema 2 ∅ (array (typed "string")) "tags" false [] ∅ = Some ([] ++ added).
Proof.
  assert (E : flattenSchema 2 ∅ (array (typed "string")) "tags" false
                [plainRow "id" "integer"] ∅
              = Some [plainRow "id" "integer"; plainRow "tags" "array";
                      plainRow "tags[]" "string"]) by (vm_compute; reflexivity).
  assert (Ha : unoccupied "tags" [plainRow "id" "integer"]).
  { apply unoccupied_singleton. intros [H|[H|H]]; discriminate. }
  destruct (flattenSchema_context_free 2 ∅ (array (typed "string")) "tags" false
              [plainRow "id" "integer"] [] ∅ _ eq_refl Ha (unoccupied_nil _) E)
    as (added & Heq & Hb).
  exists added. split; [by rewrite <- Heq|exact Hb].
Defined.

(** ** Flattener: references are resolved one level deep *)

Lemma bare_spec t :
  bare t = true ->
  s_type t = None /\ s_properties t = None /\ s_additionalProperties t = None
  /\ s_items t = None /\ s_allOf t = None /\ s_oneOf t = None /\ s_anyOf t = None.
Proof.
  unfold bare. rewrite !andb_true_iff.
  intros ((((((H1 & H2) & H3) & H4) & H5) & H6) & H7).
  repeat split; by apply isNone_true.
Qed.

(** X3.  A reference is resolved once.  When the component it names has
    no type, properties, map values, items or composition of its own (as a
    component that is only a [$ref] to another one), the node flattens to a
    single row of type [string] that carries the reference: what the
    component points to is not looked at. *)
Theorem flattenSchema_alias_not_followed (rootSpec : registry) s t rf p r fuel :
  s_ref s = Some rf -> Str.nonEmpty rf = true ->
  rootSpec !! Str.lastSegment (Str.split "/" rf) = Some t ->
  bare t = true ->
  flattenSchema (S fuel) rootSpec s p r [] ∅
  = Some [Row p "string" r (orElse (s_description t) "") (s_enum t) (s_example t) (Some rf)].
Proof.
  intros Hrf Hne Ht (Hty & Hps & Had & Hit & Hall & Hone & Hany)%bare_spec.
  assert (Hres : resolveSchema s rootSpec
                 = resolvedFrom (Str.lastSegment (Str.split "/" rf)) t).
  { unfold resolveSchema. by rewrite Hrf, Hne, Ht. }
  simpl. unfold flattenBody, flattenBodyWith. rewrite Hres, cycleAt_empty.
  unfold mergeAllOf, polymorphic, resolvedFrom. simpl. rewrite Hall, Hone, Hany. simpl.
  unfold pushNode, nodeType, emitsRow, flattenProperties, flattenAdditional, flattenItems.
  simpl. rewrite Hty, Hps, Had, Hit, Hrf. simpl. unfold truthy. rewrite Hne.
  simpl. by rewrite !orb_true_r.
Qed.

(** A reference to [Alias], which is only a reference to [Pet]: one row,
    and nothing of [Pet]. *)
Lemma flattenSchema_alias_not_followed_witness :
  flattenSchema 5 aliasReg (refTo "#/components/schemas/Alias") "owner" true [] ∅
  = Some [Row "owner" "string" true "" None None (Some "#/components/schemas/Alias")].
Proof.
  exact (flattenSchema_alias_not_followed aliasReg (refTo "#/components/schemas/Alias")
           (refTo "#/components/schemas/Pet") "#/components/schemas/Alias" "owner" true 4
           eq_refl eq_refl eq_refl eq_refl).
Defined.

(** ** Flattener: a node that is its own property after the [allOf] merge *)

Lemma forEachRows_None {A} (f : A -> list FlatSchemaRow -> option (list FlatSchemaRow)) xs x :
  x ∈ xs -> (forall rows, f x rows = None) -> forall rows, forEachRows f xs rows = None.
Proof.
  intros Hin Hx. induction xs as [|y xs IH]; intros rows; [by apply elem_of_nil in Hin|].
  simpl. apply elem_of_cons in Hin as [<-|Hin]; [by rewrite Hx|].
  destruct (f y rows); [by apply IH|done].
Qed.

(** X4.  The branches of [allOf] are resolved without the cycle guard.
    When the merge gives a node a property whose schema is that node again
    (a component with a property that is [allOf] of a reference to the
    component), no depth of recursion suffices: the call never returns. *)
Theorem flattenSchema_allOf_self_reference (rootSpec : registry) x k branches :
  truthy (s_ref x) = false -> truthy (s_resolvedFrom x) = false ->
  s_allOf x = Some branches ->
  objGet k (m_properties (mergeBranches rootSpec branches)) = Some x ->
  forall fuel p r rows V, flattenSchema fuel rootSpec x p r rows V = None.
Proof.
  intros Href Hfrom Hall Hself.
  induction fuel as [|fuel IH]; intros p r rows V; [reflexivity|].
  simpl. unfold flattenBody, flattenBodyWith. rewrite resolveSchema_plain by done.
  assert (Hc : cycleAt x V = None).
  { unfold cycleAt. unfold truthy in Hfrom. destruct (s_resolvedFrom x); [|done].
    by rewrite Hfrom. }
  rewrite Hc. unfold mergeAllOf. rewrite Hall.
  destruct (forEachRows _ (polymorphic _) rows) as [rows1|]; [|reflexivity]. simpl.
  unfold flattenProperties. simpl.
  rewrite (forEachRows_None _ _ (k, x)); [reflexivity| |].
  - by apply objGet_elem.
  - intros rows0. simpl. apply IH.
Qed.

(** The component [B] of [allOfReg], whose property [x] is [allOf] of a
    reference to [B]: neither the property nor the component flattens. *)
Lemma flattenSchema_allOf_self_reference_witness :
  objGet "x" (m_properties (mergeBranches allOfReg [refTo "#/components/schemas/B"]))
  = Some (allOf [refTo "#/components/schemas/B"])
  /\ flattenSchema 1000 allOfReg (allOf [refTo "#/components/schemas/B"]) "" false [] ∅
     = None
  /\ flattenSchema 1000 allOfReg (refTo "#/components/schemas/B") "" false [] ∅ = None.
Proof.
  assert (Hself : objGet "x" (m_properties
                                (mergeBranches allOfReg [refTo "#/components/schemas/B"]))
                  = Some (allOf [refTo "#/components/schemas/B"]))
    by (vm_compute; reflexivity).
  pose proof (flattenSchema_allOf_self_reference allOfReg
                (allOf [refTo "#/components/schemas/B"]) "x"
                [refTo "#/components/schemas/B"] eq_refl eq_refl eq_refl Hself) as Hnever.
  split; [exact Hself|]. split; [apply Hnever|].
  change (flattenBody (flattenSchema 999 allOfReg) allOfReg
            (refTo "#/components/schemas/B") "" false [] ∅ = None).
  unfold flattenBody, flattenBodyWith.
  assert (Hres : resolveSchema (refTo "#/components/schemas/B") allOfReg
                 = resolvedFrom "B" (propsOnly [("x", allOf [refTo "#/components/schemas/B"])]))
    by (vm_compute; reflexivity).
  rewrite Hres, cycleAt_empty.
  change (mergeAllOf allOfReg
            (resolvedFrom "B" (propsOnly [("x", allOf [refTo "#/components/schemas/B"])])))
    with (resolvedFrom "B" (propsOnly [("x", allOf [refTo "#/components/schemas/B"])])).
  unfold polymorphic, flattenProperties. cbn [forEachRows resolvedFrom propsOnly s_oneOf
    s_anyOf s_properties mbind option_bind fst snd].
  by rewrite Hnever.
Defined.

(** ** Reconstructor: one step of the descent *)

Lemma walk_cons row part rest current :
  walk row (part :: rest) current
  = let isLast := match rest with [] => true | _ => false end in
    let cleanPart := cleanPartOf part in
    if String.eqb cleanPart "" then
      let current :=
        if bool_decide (s_type current = Some "array") then current
        else setProperties None (setItems (Some freshObject) (setType (Some "array") current)) in
      match s_items current with
      | None => Throw undefinedAccess
      | Some item =>
          match walk row rest (if isLast then writeLeaf true row item else item) with
          | Ok item' => Ok (setItems (Some item') current)
          | Throw e => Throw e
          end
      end
    else if String.eqb cleanPart "<key>" || String.eqb cleanPart "*" then
      let current :=
        if addlTruthy (s_additionalProperties current) then current
        else setAdditionalProperties (Some (AddlSchema freshObject)) current in
      match s_additionalProperties current with
      | Some (AddlSchema value) =>
          match walk row rest (if isLast then writeLeaf false row value else value) with
          | Ok value' => Ok (setAdditionalProperties (Some (AddlSchema value')) current)
          | Throw e => Throw e
          end
      | _ => Throw (TypeError "Cannot create property on boolean")
      end
    else
      let props := default [] (s_properties current) in
      if Str.endsWith part "[]" then
        let child := default freshArray (objGet cleanPart props) in
        match s_items child with
        | None => Throw undefinedAccess
        | Some item =>
            match walk row rest (if isLast then writeLeaf true row item else item) with
            | Ok item' =>
                Ok (setProperties
                      (Some (objSet cleanPart (setItems (Some item') child) props)) current)
            | Throw e => Throw e
            end
        end
      else
        let child := default freshObject (objGet cleanPart props) in
        match walk row rest (if isLast then writeLeaf false row child else child) with
        | Ok child' => Ok (setProperties (Some (objSet cleanPart child' props)) current)
        | Throw e => Throw e
        end.
Proof. reflexivity. Qed.

(** ** Reconstructor: the keys it writes *)

Lemma reconstructed_unfold n :
  reconstructed n
  = isNone (s_required n) && isNone (s_allOf n) && isNone (s_oneOf n) && isNone (s_anyOf n)
    && isNone (s_enum n) && isNone (s_example n) && isNone (s_resolvedFrom n)
    && match s_additionalProperties n with
       | Some (AddlBool _) => false
       | Some (AddlSchema v) => reconstructed v
       | None => true
       end
    && match s_items n with Some i => reconstructed i | None => true end
    && match s_properties n with
       | Some ps => forallb (fun kp => reconstructed (snd kp)) ps
       | None => true
       end.
Proof. by destruct n. Qed.

Lemma reconstructed_spec n :
  reconstructed n = true <->
  flagsOff n = true
  /\ match s_additionalProperties n with
     | Some (AddlBool _) => false
     | Some (AddlSchema v) => reconstructed v
     | None => true
     end = true
  /\ match s_items n with Some i => reconstructed i | None => true end = true
  /\ match s_properties n with
     | Some ps => forallb (fun kp => reconstructed (snd kp)) ps
     | None => true
     end = true.
Proof. rewrite reconstructed_unfold. unfold flagsOff. rewrite !andb_true_iff. tauto. Qed.

Lemma reconstructed_writeLeaf b row n :
  reconstructed n = true -> reconstructed (writeLeaf b row n) = true.
Proof.
  intros (H1 & H2 & H3 & H4)%reconstructed_spec. unfold writeLeaf.
  destruct (truthy (ref row)); [reflexivity|].
  destruct (b && _), (negb _ && negb _); apply reconstructed_spec; simpl; auto.
Qed.

Lemma reconstructed_child n k fresh :
  reconstructed n = true -> reconstructed fresh = true ->
  reconstructed (default fresh (objGet k (default [] (s_properties n)))) = true.
Proof.
  intros (_ & _ & _ & H4)%reconstructed_spec Hfresh.
  destruct (objGet k _) as [c|] eqn:E; [|done]. simpl.
  destruct (s_properties n) as [ps|]; [|done]. simpl in E.
  apply objGet_elem, list_elem_of_In in E. rewrite forallb_forall in H4.
  exact (H4 _ E).
Qed.

Lemma reconstructed_items n i :
  reconstructed n = true -> s_items n = Some i -> reconstructed i = true.
Proof. intros (_ & _ & H3 & _)%reconstructed_spec Hi. by rewrite Hi in H3. Qed.

Lemma reconstructed_value n :
  reconstructed n = true ->
  match s_additionalProperties n with
  | Some (AddlBool _) => False
  | Some (AddlSchema v) => reconstructed v = true
  | None => True
  end.
Proof.
  intros (_ & H2 & _ & _)%reconstructed_spec.
  by destruct (s_additionalProperties n) as [[]|].
Qed.

Lemma reconstructed_setProperties n k c :
  reconstructed n = true -> reconstructed c = true ->
  reconstructed (setProperties (Some (objSet k c (default [] (s_properties n)))) n) = true.
Proof.
  intros (H1 & H2 & H3 & H4)%reconstructed_spec Hc. apply reconstructed_spec.
  simpl. repeat split; try done. apply forallb_objSet; [|done].
  by destruct (s_properties n).
Qed.

Lemma reconstructed_setItems n i :
  reconstructed n = true -> reconstructed i = true ->
  reconstructed (setItems (Some i) n) = true.
Proof.
  intros (H1 & H2 & H3 & H4)%reconstructed_spec Hi. by apply reconstructed_spec.
Qed.

Lemma reconstructed_setAdditional n v :
  reconstructed n = true -> reconstructed v = true ->
  reconstructed (setAdditionalProperties (Some (AddlSchema v)) n) = true.
Proof.
  intros (H1 & H2 & H3 & H4)%reconstructed_spec Hv. by apply reconstructed_spec.
Qed.

Lemma reconstructed_rootArray n :
  reconstructed n = true ->
  reconstructed
    (setProperties None (setItems (Some freshObject) (setType (Some "array") n))) = true.
Proof. intros (H1 & H2 & H3 & H4)%reconstructed_spec. by apply reconstructed_spec. Qed.

(** The descent keeps a tree within the keys the reconstructor writes. *)
Lemma walk_reconstructed row : forall parts n n',
  reconstructed n = true -> walk row parts n = Ok n' -> reconstructed n' = true.
Proof.
  induction parts as [|part rest IH]; intros n n' Hn; [by intros [= <-]|].
  rewrite walk_cons. cbv zeta.
  destruct (String.eqb (cleanPartOf part) "").
  - set (cur := if bool_decide _ then _ else _).
    assert (Hcur : reconstructed cur = true).
    { unfold cur. case_bool_decide; [done|by apply reconstructed_rootArray]. }
    destruct (s_items cur) as [item|] eqn:Hi; [|discriminate].
    pose proof (reconstructed_items _ _ Hcur Hi) as Hitem.
    destruct (walk row rest _) as [item'|] eqn:E; [|discriminate]. intros [= <-].
    apply reconstructed_setItems; [done|]. eapply IH; [|exact E].
    destruct rest; [by apply reconstructed_writeLeaf|done].
  - destruct (_ || _).
    + set (cur := if addlTruthy _ then _ else _).
      assert (Hcur : reconstructed cur = true).
      { unfold cur. destruct (addlTruthy _); [done|].
        by apply reconstructed_setAdditional. }
      pose proof (reconstructed_value _ Hcur) as Hv.
      destruct (s_additionalProperties cur) as [[b|v]|]; try discriminate.
      destruct (walk row rest _) as [v'|] eqn:E; [|discriminate]. intros [= <-].
      apply reconstructed_setAdditional; [done|]. eapply IH; [|exact E].
      destruct rest; [by apply reconstructed_writeLeaf|done].
    + destruct (Str.endsWith part "[]").
      * pose proof (reconstructed_child n (cleanPartOf part) freshArray Hn eq_refl) as Hchild.
        destruct (s_items _) as [item|] eqn:Hi; [|discriminate].
        pose proof (reconstructed_items _ _ Hchild Hi) as Hitem.
        destruct (walk row rest _) as [item'|] eqn:E; [|discriminate]. intros [= <-].
        apply reconstructed_setProperties; [done|].
        apply reconstructed_setItems; [done|]. eapply IH; [|exact E].
        destruct rest; [by apply reconstructed_writeLeaf|done].
      * pose proof (reconstructed_child n (cleanPartOf part) freshObject Hn eq_refl) as Hchild.
        destruct (walk row rest _) as [c'|] eqn:E; [|discriminate]. intros [= <-].
        apply reconstructed_setProperties; [done|]. eapply IH; [|exact E].
        destruct rest; [by apply reconstructed_writeLeaf|done].
Qed.

Lemma unflattenRows_reconstructed rows : forall st st',
  reconstructed (fst st) = true -> unflattenRows rows st = Ok st' ->
  reconstructed (fst st') = true.
Proof.
  induction rows as [|row rows IH]; intros st st' Hst; simpl; [by intros [= <-]|].
  destruct (unflattenRow st row) as [st1|] eqn:E; [|discriminate].
  apply IH. unfold unflattenRow in E.
  destruct (negb _); [by injection E as <-|].
  destruct (isSkipped _ _); [by injection E as <-|].
  destruct (walk row _ (fst st)) as [root|] eqn:Ew; [|discriminate].
  injection E as <-. simpl. by eapply walk_reconstructed.
Qed.

(** X5.  Whatever the rows, the tree the reconstructor returns has no
    other keys than [$ref], [type], [description], [properties], [items] and
    [additionalProperties], at any depth, and its [additionalProperties] is
    always a schema: [required], [enum], [example] and the composition
    keywords never come back. *)
Theorem unflattenSchema_keys rows t :
  unflattenSchema rows = Ok t -> reconstructed t = true.
Proof.
  unfold unflattenSchema.
  destruct (unflattenRows rows (freshObject, [])) as [st|] eqn:E; [|discriminate].
  intros [= <-]. by apply (unflattenRows_reconstructed rows (freshObject, []) st).
Qed.

(** The rows of a required scalar, a reference and a map. *)
Lemma unflattenSchema_keys_witness :
  unflattenSchema profileRows = Ok (restoreRoot profile)
  /\ reconstructed (restoreRoot profile) = true.
Proof.
  assert (E : unflattenSchema profileRows = Ok (restoreRoot profile))
    by (vm_compute; reflexivity).
  split; [exact E|]. exact (unflattenSchema_keys _ _ E).
Defined.

(** ** Reconstructor: rows without array items and empty segments *)

Lemma walk_plain_returns row : forall parts n,
  Forall (fun part => plainPart part = true) parts -> reconstructed n = true ->
  exists n', walk row parts n = Ok n'.
Proof.
  induction parts as [|part rest IH]; intros n Hparts Hn; [by eexists|].
  apply Forall_cons in Hparts as [Hpart Hrest].
  apply andb_true_iff in Hpart as [Hne Hends]. apply negb_true_iff in Hends.
  rewrite walk_cons. cbv zeta. unfold cleanPartOf. rewrite Hends.
  apply nonEmpty_true in Hne. destruct (String.eqb_spec part ""); [contradiction|].
  destruct (_ || _).
  - set (cur := if addlTruthy _ then _ else _).
    assert (Hcur : reconstructed cur = true).
    { unfold cur. destruct (addlTruthy _); [done|].
      by apply reconstructed_setAdditional. }
    pose proof (reconstructed_value _ Hcur) as Hv.
    assert (Htruthy : addlTruthy (s_additionalProperties cur) = true).
    { unfold cur. by destruct (addlTruthy (s_additionalProperties n)) eqn:E. }
    destruct (s_additionalProperties cur) as [[b|v]|]; try done.
    destruct (IH (if match rest with [] => true | _ => false end
                  then writeLeaf false row v else v)) as [v' ->]; [done| |by eexists].
    destruct rest; [by apply reconstructed_writeLeaf|done].
  - pose proof (reconstructed_child n part freshObject Hn eq_refl) as Hchild.
    destruct (IH (if match rest with [] => true | _ => false end
                  then writeLeaf false row
                         (default freshObject (objGet part (default [] (s_properties n))))
                  else default freshObject (objGet part (default [] (s_properties n)))))
      as [c' ->]; [done| |by eexists].
    destruct rest; [by apply reconstructed_writeLeaf|done].
Qed.

(** X6.  The reconstructor returns on every list of rows in which no path
    has an empty segment or an array item: it can only throw on a path with
    [[]] or with two dots in a row. *)
Theorem unflattenSchema_returns_without_arrays rows :
  Forall (fun row => plainPath (path row) = true) rows ->
  exists t, unflattenSchema rows = Ok t.
Proof.
  intros Hrows. unfold unflattenSchema.
  assert (H : forall st, reconstructed (fst st) = true ->
            exists st', unflattenRows rows st = Ok st').
  { induction Hrows as [|row rows Hrow _ IH]; intros st Hst; [by eexists|].
    simpl.
    assert (Hstep : exists st1, unflattenRow st row = Ok st1).
    { unfold unflattenRow. unfold plainPath in Hrow.
      destruct (Str.nonEmpty (path row)); simpl in *; [|by eexists].
      destruct (isSkipped _ _); [by eexists|].
      destruct (walk_plain_returns row (Str.split "." (path row)) (fst st)) as [root ->];
        [by apply Forall_forall; intros part Hin%list_elem_of_In;
            rewrite forallb_forall in Hrow; apply Hrow|done|by eexists]. }
    destruct Hstep as [st1 E]. rewrite E. apply IH.
    by apply (unflattenRows_reconstructed [row] st st1 Hst); simpl; rewrite E. }
  destruct (H (freshObject, []) eq_refl) as [st ->]. by eexists.
Qed.

Lemma unflattenSchema_returns_without_arrays_witness :
  exists t, unflattenSchema profileRows = Ok t.
Proof.
  apply unflattenSchema_returns_without_arrays.
  repeat constructor.
Defined.

(** ** Reconstructor: the rows below a reference *)

Lemma unflattenRow_skipped_grows st row st' :
  unflattenRow st row = Ok st' -> exists extra, snd st' = snd st ++ extra.
Proof.
  unfold unflattenRow.
  destruct (negb _); [intros [= <-]; exists []; by rewrite app_nil_r|].
  destruct (isSkipped _ _); [intros [= <-]; exists []; by rewrite app_nil_r|].
  destruct (walk row _ _); [|discriminate]. intros [= <-]. simpl.
  destruct (truthy (ref row)); [eauto|]. exists []. by rewrite app_nil_r.
Qed.

Lemma unflattenRows_skipped_grows rows : forall st st',
  unflattenRows rows st = Ok st' -> exists extra, snd st' = snd st ++ extra.
Proof.
  induction rows as [|row rows IH]; intros st st'; simpl.
  - intros [= <-]. exists []. by rewrite app_nil_r.
  - destruct (unflattenRow st row) as [st1|] eqn:E; [|discriminate].
    intros H. apply unflattenRow_skipped_grows in E as [e1 E1].
    apply IH in H as [e2 E2]. exists (e1 ++ e2). by rewrite E2, E1, app_assoc.
Qed.

Lemma isSkipped_spec sk x : isSkipped sk x = true <-> exists q, q ∈ sk /\ strictlyBelow q x.
Proof.
  unfold isSkipped. rewrite existsb_exists. split.
  - intros (q & Hq%list_elem_of_In & Hx%orb_true_iff). eauto.
  - intros (q & Hq%list_elem_of_In & Hx). exists q. split; [done|].
    by apply orb_true_iff.
Qed.

(** After a row with a reference, a prefix of its path is on record. *)
Lemma unflattenRow_reference st row st' :
  unflattenRow st row = Ok st' ->
  truthy (ref row) = true -> Str.nonEmpty (path row) = true ->
  exists q, q ∈ snd st' /\ under q (path row).
Proof.
  unfold unflattenRow. intros E Href Hp. rewrite Hp in E. simpl in E.
  destruct (isSkipped (snd st) (path row)) eqn:Hskip.
  - injection E as <-. apply isSkipped_spec in Hskip as (q & Hq & Hbelow).
    exists q. split; [done|by right].
  - destruct (walk row _ _); [|discriminate]. injection E as <-. simpl. rewrite Href.
    exists (path row). split; [set_solver|apply under_refl].
Qed.

Lemma unflattenRows_all_skipped below root sk :
  Forall (fun row => isSkipped sk (path row) = true) below ->
  unflattenRows below (root, sk) = Ok (root, sk).
Proof.
  induction 1 as [|row below Hrow _ IH]; [done|].
  simpl. unfold unflattenRow. simpl. rewrite Hrow.
  by destruct (negb _).
Qed.



(** ** Reconstructor: a row read twice *)

Lemma writeLeaf_idempotent b row n :
  writeLeaf b row (writeLeaf b row n) = writeLeaf b row n.
Proof.
  unfold writeLeaf. destruct (truthy (ref row)); [reflexivity|].
  destruct (b && _), (negb _ && negb _); reflexivity.
Qed.

Lemma setItems_same n i : s_items n = Some i -> setItems (Some i) n = n.
Proof. destruct n; simpl. by intros ->. Qed.

Lemma setAdditionalProperties_same n a :
  s_additionalProperties n = Some a -> setAdditionalProperties (Some a) n = n.
Proof. destruct n; simpl. by intros ->. Qed.

Lemma setProperties_same n ps : s_properties n = Some ps -> setProperties (Some ps) n = n.
Proof. destruct n; simpl. by intros ->. Qed.

Lemma objSet_same {A} k (v : A) o : objGet k o = Some v -> objSet k v o = o.
Proof.
  induction o as [|[k0 v0] o IH]; simpl; [done|].
  destruct (String.eqb k0 k) eqn:E; [by intros [= ->]|]. intros H. by rewrite IH.
Qed.

(** The descent, run again on its own result, changes nothing. *)
Lemma walk_idempotent row : forall parts n n',
  walk row parts n = Ok n' -> walk row parts n' = Ok n'.
Proof.
  induction parts as [|part rest IH]; intros n n'; [by intros [= <-]|].
  rewrite !walk_cons. cbv zeta.
  assert (Hlast : forall (f : schema -> schema) c c',
            (forall x, f (f x) = f x) ->
            walk row rest (if match rest with [] => true | _ => false end then f c else c)
            = Ok c' ->
            walk row rest (if match rest with [] => true | _ => false end then f c' else c')
            = Ok c').
  { intros f c c' Hf. destruct rest as [|part2 rest2].
    - simpl. intros [= <-]. by rewrite Hf.
    - apply IH. }
  destruct (String.eqb (cleanPartOf part) "").
  - set (cur := if bool_decide _ then _ else _).
    assert (Hty : s_type cur = Some "array").
    { unfold cur. by case_bool_decide. }
    destruct (s_items cur) as [item|] eqn:Hi; [|discriminate].
    destruct (walk row rest _) as [item'|] eqn:E; [|discriminate]. intros [= <-].
    simpl. rewrite Hty. rewrite bool_decide_eq_true_2 by done. simpl.
    rewrite (Hlast (writeLeaf true row) item item' (writeLeaf_idempotent true row) E).
    reflexivity.
  - destruct (_ || _).
    + set (cur := if addlTruthy _ then _ else _).
      destruct (s_additionalProperties cur) as [[b|v]|] eqn:Hv; try discriminate.
      destruct (walk row rest _) as [v'|] eqn:E; [|discriminate]. intros [= <-].
      simpl.
      rewrite (Hlast (writeLeaf false row) v v' (writeLeaf_idempotent false row) E).
      reflexivity.
    + destruct (Str.endsWith part "[]").
      * set (props := default [] (s_properties n)).
        set (child := default freshArray (objGet (cleanPartOf part) props)).
        destruct (s_items child) as [item|] eqn:Hi; [|discriminate].
        destruct (walk row rest _) as [item'|] eqn:E; [|discriminate]. intros [= <-].
        simpl. rewrite objGet_objSet, String.eqb_refl. simpl.
        rewrite (Hlast (writeLeaf true row) item item' (writeLeaf_idempotent true row) E).
        by rewrite objSet_objSet.
      * set (props := default [] (s_properties n)).
        set (child := default freshObject (objGet (cleanPartOf part) props)).
        destruct (walk row rest _) as [c'|] eqn:E; [|discriminate]. intros [= <-].
        simpl. rewrite objGet_objSet, String.eqb_refl. simpl.
        rewrite (Hlast (writeLeaf false row) child c' (writeLeaf_idempotent false row) E).
        by rewrite objSet_objSet.
Qed.

Lemma sameSkips_refl sk : sameSkips sk sk.
Proof. by intros x. Qed.

Lemma sameSkips_app sk1 sk2 extra :
  sameSkips sk1 sk2 -> sameSkips (sk1 ++ extra) (sk2 ++ extra).
Proof. intros H x. by rewrite !isSkipped_app, H. Qed.

Lemma sameSkips_twice sk p : sameSkips (sk ++ [p] ++ [p]) (sk ++ [p]).
Proof. intros x. rewrite !isSkipped_app. by destruct (isSkipped sk x), (isSkipped [p] x). Qed.

(** Lists that skip the same paths lead to the same tree. *)
Lemma unflattenRows_sameSkips rows : forall root sk1 sk2,
  sameSkips sk1 sk2 ->
  match unflattenRows rows (root, sk1), unflattenRows rows (root, sk2) with
  | Ok st1, Ok st2 => fst st1 = fst st2 /\ sameSkips (snd st1) (snd st2)
  | Throw e1, Throw e2 => e1 = e2
  | _, _ => False
  end.
Proof.
  induction rows as [|row rows IH]; intros root sk1 sk2 Hsk; simpl; [done|].
  unfold unflattenRow. simpl. rewrite (Hsk (path row)).
  destruct (negb _); simpl; [by apply IH|].
  destruct (isSkipped sk2 (path row)); [by apply IH|].
  destruct (walk row _ root) as [root'|e]; [|done].
  destruct (truthy (ref row)); apply IH; [by apply sameSkips_app|done].
Qed.

(** X8.  A row that is read twice in a row has the effect of being read
    once, whatever comes before and after it. *)
Theorem unflattenSchema_row_twice rows row rest :
  unflattenSchema (rows ++ row :: row :: rest) = unflattenSchema (rows ++ row :: rest).
Proof.
  unfold unflattenSchema. rewrite !unflattenRows_app.
  destruct (unflattenRows rows (freshObject, [])) as [[root sk]|e]; [|reflexivity].
  cbn [unflattenRows].
  destruct (unflattenRow (root, sk) row) as [[root1 sk1]|e] eqn:E; [|reflexivity].
  assert (Hagain : exists sk2, unflattenRow (root1, sk1) row = Ok (root1, sk2)
                               /\ sameSkips sk2 sk1).
  { unfold unflattenRow in *. simpl in *.
    destruct (negb (Str.nonEmpty (path row))) eqn:Hp; simpl in *.
    { injection E as <- <-. eauto using sameSkips_refl. }
    destruct (isSkipped sk (path row)) eqn:Hskip.
    { injection E as <- <-. rewrite Hskip. eauto using sameSkips_refl. }
    destruct (walk row _ root) as [root'|] eqn:Ew; [|discriminate].
    injection E as <- <-.
    assert (Hnot : isSkipped (if truthy (ref row) then sk ++ [path row] else sk) (path row)
                   = false).
    { destruct (truthy (ref row)); [|done]. rewrite isSkipped_app, Hskip. simpl.
      destruct (isSkipped [path row] (path row)) eqn:Hself; [|done].
      apply isSkipped_spec in Hself as (q & ->%list_elem_of_singleton & Hq).
      by apply not_strictlyBelow_self in Hq. }
    rewrite Hnot, (walk_idempotent _ _ _ _ Ew).
    destruct (truthy (ref row)); [|eauto using sameSkips_refl].
    eexists. split; [reflexivity|]. rewrite <- app_assoc. apply sameSkips_twice. }
  destruct Hagain as (sk2 & -> & Hsk).
  pose proof (unflattenRows_sameSkips rest root1 sk2 sk1 Hsk) as H.
  destruct (unflattenRows rest (root1, sk2)), (unflattenRows rest (root1, sk1));
    try done; [by destruct H as [-> _]|by subst].
Qed.

(** ** Validator: the report and the score *)

Section ValidatorReport.

Variable ConversionOptions : Type.
Variable withJSONOutput : ConversionOptions -> ConversionOptions.
Variable parseContent : string -> result spec.
Variable convertSpecToDoc : string -> ConversionOptions -> result string.
Variable parseHTMLDocToSpec : string -> ConversionOptions -> result string.
Variable JSON_parse : string -> result spec.
Variable toUpperCase : string -> string.

Local Abbreviation validate :=
  (validateSpecFidelity ConversionOptions withJSONOutput parseContent
     convertSpecToDoc parseHTMLDocToSpec JSON_parse toUpperCase).
Local Abbreviation attempt :=
  (roundTrip ConversionOptions withJSONOutput parseContent
     convertSpecToDoc parseHTMLDocToSpec JSON_parse toUpperCase).

Lemma quiet_refl t : quiet t t.
Proof. by intros H. Qed.

Lemma quiet_trans a b c : quiet a b -> quiet b c -> quiet a c.
Proof.
  intros Hab Hbc Hc. destruct (Hbc Hc) as [Hb Hm]. destruct (Hab Hb) as [Ha Hm'].
  split; [done|congruence].
Qed.

Lemma quiet_say line penalty t : quiet t (say line penalty t).
Proof. intros H. simpl in H. by destruct (lines t). Qed.

Lemma quiet_fold {A} (f : tally -> A -> tally) xs :
  (forall t x, quiet t (f t x)) -> forall t, quiet t (fold_left f xs t).
Proof.
  intros Hf. induction xs as [|x xs IH]; intros t; simpl; [apply quiet_refl|].
  eapply quiet_trans; [apply Hf|apply IH].
Qed.

Lemma compareOperation_quiet p m o1 o2 t : quiet t (compareOperation toUpperCase p m o1 o2 t).
Proof.
  unfold compareOperation.
  repeat match goal with |- context [if ?b then _ else _] => destruct b end;
    eauto using quiet_refl, quiet_say, quiet_trans.
Qed.

Lemma comparePath_quiet restored t pm : quiet t (comparePath toUpperCase restored t pm).
Proof.
  unfold comparePath. destruct (objGet _ _); [|apply quiet_say].
  apply quiet_fold. intros t0 mo. unfold compareMethod.
  destruct (objGet _ _); [apply compareOperation_quiet|apply quiet_say].
Qed.

Lemma compareSpecs_quiet original restored t :
  compareSpecs toUpperCase original restored = Ok t -> lines t = [] -> missingCount t = 0%Z.
Proof.
  unfold compareSpecs.
  destruct (compareInfo original restored (Tally [] 0)) as [t0|] eqn:E; [|discriminate].
  intros [= <-] Hlines.
  assert (H0 : quiet (Tally [] 0) t0).
  { unfold compareInfo in E. case_bool_decide; [injection E as <-; apply quiet_refl|].
    destruct (info original), (info restored); try discriminate.
    injection E as <-. apply quiet_say. }
  assert (H : quiet (Tally [] 0)
                (comparePaths toUpperCase original restored
                   (compareComponents original restored
                      (compareTags original restored
                         (compareServers original restored t0))))).
  { eapply quiet_trans; [exact H0|].
    eapply quiet_trans; [|apply quiet_fold; intros; apply comparePath_quiet].
    eapply quiet_trans; [|unfold compareComponents; case_bool_decide;
                            [apply quiet_refl|apply quiet_say]].
    eapply quiet_trans; [|unfold compareTags; case_bool_decide;
                            [apply quiet_refl|apply quiet_say]].
    unfold compareServers; case_bool_decide; [apply quiet_refl|apply quiet_say]. }
  by destruct (H Hlines) as [_ ->].
Qed.

Lemma roundTrip_Ok c o f :
  attempt c o = Ok f ->
  exists original restored t,
    compareSpecs toUpperCase original restored = Ok t /\ f = scoreOf t.
Proof.
  unfold roundTrip.
  destruct (parseContent c) as [original|]; [|discriminate].
  destruct (convertSpecToDoc c o) as [doc|]; [|discriminate].
  destruct (parseHTMLDocToSpec doc _) as [json|]; [|discriminate].
  destruct (JSON_parse json) as [restored|]; [|discriminate].
  destruct (compareSpecs toUpperCase original restored) as [t|] eqn:E; [|discriminate].
  intros [= <-]. eauto.
Qed.

(** X9.  No deduction is silent: whenever the validator returns an empty
    report the score is 100.  And the score is always a multiple of 5 that is
    not negative. *)
Theorem validateSpecFidelity_report_and_score c o :
  exists f,
    validateSpecFidelity ConversionOptions withJSONOutput parseContent
      convertSpecToDoc parseHTMLDocToSpec JSON_parse toUpperCase c o = Ok f
    /\ (report f = [] -> score f = 100%Z)
    /\ (0 <= score f)%Z
    /\ (5 | score f)%Z.
Proof.
  unfold validateSpecFidelity, tryCatch.
  destruct (attempt c o) as [f|e] eqn:E.
  - exists f. split; [reflexivity|].
    destruct (roundTrip_Ok _ _ _ E) as (original & restored & t & Ht & ->). simpl.
    split; [|split].
    + intros Hlines. rewrite (compareSpecs_quiet _ _ _ Ht Hlines). reflexivity.
    + lia.
    + destruct (Z.max_spec 0 (100 - missingCount t * 5)) as [[_ ->]|[_ ->]].
      * exists (20 - missingCount t)%Z. lia.
      * exists 0%Z. lia.
  - exists (validationFailed e). split; [reflexivity|]. simpl.
    split; [discriminate|]. split; [lia|]. exists 0%Z. lia.
Qed.

End ValidatorReport.

(** ** Validator: what the comparison does not look at *)

Lemma objGet_app_other {A} k p (v : A) o : k <> p -> objGet k (o ++ [(p, v)]) = objGet k o.
Proof.
  intros Hne. induction o as [|[k0 v0] o IH]; simpl.
  - destruct (String.eqb_spec p k); [congruence|done].
  - destruct (String.eqb k0 k); [done|exact IH].
Qed.

Lemma fold_left_ext_in {A B} (f g : A -> B -> A) xs :
  (forall a x, x ∈ xs -> f a x = g a x) -> forall a, fold_left f xs a = fold_left g xs a.
Proof.
  induction xs as [|x xs IH]; intros H a; simpl; [done|].
  rewrite H by (by left). apply IH. intros a' y Hy. apply H. by right.
Qed.

(** X10.  The comparison reads the original's paths and looks each one up
    in the restored document: a path that only the restored document has
    goes unnoticed.  Of the servers, the tags and the component schemas it
    reads the counts alone. *)
Theorem compareSpecs_blind_spots (toUpperCase : string -> string) original restored :
  (forall p methods,
      objGet p (default [] (paths original)) = None ->
      compareSpecs toUpperCase original (addPath p methods restored)
      = compareSpecs toUpperCase original restored)
  /\ (forall srv tgs comps,
        lengthOr0 srv = lengthOr0 (servers restored) ->
        lengthOr0 tgs = lengthOr0 (tags restored) ->
        lengthOr0 comps = lengthOr0 (componentSchemas restored) ->
        compareSpecs toUpperCase original (withLists srv tgs comps restored)
        = compareSpecs toUpperCase original restored).
Proof.
  split.
  - intros p methods Hp. unfold compareSpecs.
    change (compareInfo original (addPath p methods restored))
      with (compareInfo original restored).
    destruct (compareInfo original restored (Tally [] 0)) as [t0|]; [|reflexivity].
    f_equal. unfold comparePaths.
    change (compareComponents original (addPath p methods restored))
      with (compareComponents original restored).
    change (compareTags original (addPath p methods restored))
      with (compareTags original restored).
    change (compareServers original (addPath p methods restored))
      with (compareServers original restored).
    apply fold_left_ext_in. intros t pm Hin. unfold comparePath. simpl.
    rewrite objGet_app_other; [done|].
    intros Heq. rewrite <- Heq in Hp.
    assert (Hsome : exists v, objGet (fst pm) (default [] (paths original)) = Some v).
    { clear -Hin. induction Hin as [[k v] l|[k v] [k2 v2] l Hin IH]; simpl.
      - rewrite String.eqb_refl. eauto.
      - destruct (String.eqb k2 k); eauto. }
    destruct Hsome as [v Hv]. congruence.
  - intros srv tgs comps Hs Ht Hc. unfold compareSpecs.
    change (compareInfo original (withLists srv tgs comps restored))
      with (compareInfo original restored).
    destruct (compareInfo original restored (Tally [] 0)) as [t0|]; [|reflexivity].
    f_equal. unfold comparePaths, comparePath, compareComponents, compareTags, compareServers.
    simpl. by rewrite Hs, Ht, Hc.
Qed.

(** The restored document with a path of its own, and with other names for
    its one component. *)
Lemma compareSpecs_blind_spots_witness :
  compareSpecs (fun m => m) (onePath "Pets" (Some ["Pet"]))
    (addPath "/admin" [("delete", Operation None None)] (onePath "Pets" (Some ["Pet"])))
  = compareSpecs (fun m => m) (onePath "Pets" (Some ["Pet"])) (onePath "Pets" (Some ["Pet"]))
  /\ compareSpecs (fun m => m) (onePath "Pets" (Some ["Pet"]))
       (withLists None None (Some ["Owner"]) (onePath "Pets" (Some ["Pet"])))
     = compareSpecs (fun m => m) (onePath "Pets" (Some ["Pet"])) (onePath "Pets" (Some ["Pet"])).
Proof.
  destruct (compareSpecs_blind_spots (fun m => m) (onePath "Pets" (Some ["Pet"]))
              (onePath "Pets" (Some ["Pet"]))) as [Hpath Hnames].
  split.
  - apply Hpath. reflexivity.
  - apply Hnames; reflexivity.
Defined.

(** ** Content parser *)

Section ParseContentFacts.

Variable ConversionOptions : Type.
Variable withJSONOutput : ConversionOptions -> ConversionOptions.
Variable convertSpecToDoc : string -> ConversionOptions -> result string.
Variable parseHTMLDocToSpec : string -> ConversionOptions -> result string.
Variable JSON_parse : string -> result spec.
Variable yaml_load : string -> result spec.
Variable toUpperCase : string -> string.

(** X11.  [parseContent] takes what [JSON.parse] returns and turns to
    [yaml.load] only when that throws; the one error it can raise is its
    own, whatever the two codecs threw.  On content that neither codec
    accepts the validator therefore returns score 0 with the single line
    that names the invalid format, before any document is generated. *)
Theorem parseContent_invalid_format content :
  (forall v, JSON_parse content = Ok v ->
             parseContent spec JSON_parse yaml_load content = Ok v)
  /\ (forall e v, JSON_parse content = Throw e -> yaml_load content = Ok v ->
                  parseContent spec JSON_parse yaml_load content = Ok v)
  /\ (forall e, parseContent spec JSON_parse yaml_load content = Throw e ->
                e = Error "Invalid format. Please provide valid JSON or YAML.")
  /\ (forall e1 e2 options,
        JSON_parse content = Throw e1 -> yaml_load content = Throw e2 ->
        validateSpecFidelity ConversionOptions withJSONOutput
          (parseContent spec JSON_parse yaml_load)
          convertSpecToDoc parseHTMLDocToSpec JSON_parse toUpperCase content options
        = Ok (Fidelity 0
                ["Validation Failed: Invalid format. Please provide valid JSON or YAML."])).
Proof.
  unfold parseContent, tryCatch. repeat split.
  - by intros v ->.
  - by intros e v -> ->.
  - intros e. destruct (JSON_parse content); [discriminate|].
    destruct (yaml_load content); [discriminate|]. by intros [= <-].
  - intros e1 e2 options H1 H2. unfold validateSpecFidelity, roundTrip, tryCatch.
    by rewrite H1, H2.
Qed.

End ParseContentFacts.

(** Content that both codecs refuse. *)
Lemma parseContent_invalid_format_witness :
  validateSpecFidelity unit (fun o => o)
    (parseContent spec (fun _ => Throw (Error "Unexpected end of JSON input"))
       (fun _ => Throw (Error "unexpected end of the stream")))
    (fun _ _ => Ok "<html>") (fun _ _ => Ok "{}")
    (fun _ => Throw (Error "Unexpected end of JSON input")) (fun m => m) "{" tt
  = Ok (Fidelity 0 ["Validation Failed: Invalid format. Please provide valid JSON or YAML."]).
Proof.
  destruct (parseContent_invalid_format unit (fun o => o)
              (fun _ _ => Ok "<html>") (fun _ _ => Ok "{}")
              (fun _ => Throw (Error "Unexpected end of JSON input"))
              (fun _ => Throw (Error "unexpected end of the stream")) (fun m => m) "{")
    as (_ & _ & _ & H).
  exact (H _ _ tt eq_refl eq_refl).
Defined.

(** ** Operation tags: through the attribute and back *)

Lemma joinWith_cons sep x y ys :
  joinWith sep (x :: y :: ys) = x +:+ sep +:+ joinWith sep (y :: ys).
Proof.
  simpl. revert x y. induction ys as [|z ys IH]; intros x y; simpl; [done|].
  rewrite (IH (x +:+ sep +:+ y) z), (IH y z). by rewrite !append_assoc.
Qed.

Lemma cleanTag_spec t :
  cleanTag t = true -> t <> "" /\ Str.split "," t = [t].
Proof.
  unfold cleanTag. rewrite andb_true_iff, nonEmpty_true.
  intros [H1 H2]. auto using split_no_sep.
Qed.

Lemma split_joinWith tags :
  Forall (fun t => cleanTag t = true) tags -> tags <> [] ->
  Str.split "," (joinWith "," tags) = tags.
Proof.
  induction 1 as [|t tags Ht Htags IH]; intros Hne; [done|].
  apply cleanTag_spec in Ht as [_ Ht].
  destruct tags as [|t2 tags]; [exact Ht|].
  rewrite joinWith_cons. change ("," +:+ joinWith "," (t2 :: tags))
    with (String "," (joinWith "," (t2 :: tags))).
  rewrite split_app_sep, Ht, IH by done. reflexivity.
Qed.

Lemma joinWith_nonEmpty t tags :
  t <> "" -> Str.nonEmpty (joinWith "," (t :: tags)) = true.
Proof.
  intros Ht. destruct tags as [|t2 tags]; [by apply nonEmpty_true|].
  rewrite joinWith_cons. apply nonEmpty_append_l. by apply nonEmpty_true.
Qed.

Lemma filter_nonEmpty_clean tags :
  Forall (fun t => cleanTag t = true) tags -> List.filter Str.nonEmpty tags = tags.
Proof.
  induction 1 as [|t tags Ht _ IH]; [done|]. simpl.
  apply cleanTag_spec in Ht as [Ht _]. apply nonEmpty_true in Ht. by rewrite Ht, IH.
Qed.



(** ** Flattener: termination on registries without reference cycles *)

Lemma flattenBody_returns (rootSpec : registry) self s p r rows V :
  (forall c p r rows,
      c ∈ children (mergeAllOf rootSpec (resolveSchema s rootSpec)) ->
      is_Some (self c p r rows (visit (resolveSchema s rootSpec) V))) ->
  is_Some (flattenBody self rootSpec s p r rows V).
Proof.
  intros Hself. unfold flattenBody, flattenBodyWith.
  destruct (cycleAt _ V); [by eexists|].
  set (resolved := mergeAllOf rootSpec (resolveSchema s rootSpec)) in *.
  set (V' := visit (resolveSchema s rootSpec) V) in *.
  unfold children in Hself.
  destruct (forEachRows_is_Some (fun c rows => self c p r rows V') (polymorphic resolved))
    with (rows := rows) as [rows1 ->].
  { intros c rows0 Hc. apply Hself. rewrite !elem_of_app.
    unfold polymorphic in Hc. destruct (s_oneOf resolved); simpl; [auto|].
    destruct (s_anyOf resolved); simpl; [auto 6|]. by apply elem_of_nil in Hc. }
  simpl.
  assert (H2 : forall rows0, is_Some (flattenProperties self resolved p V' rows0)).
  { intros rows0. unfold flattenProperties.
    destruct (s_properties resolved) as [ps|] eqn:Eps; [|by eexists].
    apply forEachRows_is_Some. intros kp rows3 Hkp. apply Hself.
    rewrite !elem_of_app. left. simpl. apply list_elem_of_fmap. eauto. }
  destruct (H2 (pushNode resolved p r (s_ref s) rows1)) as [rows2 ->]. simpl.
  assert (H3 : is_Some (flattenAdditional self resolved p V' rows2)).
  { unfold flattenAdditional.
    destruct (s_additionalProperties resolved) as [[[]|a]|] eqn:Ead; try by eexists.
    apply Hself. rewrite !elem_of_app. right; left. by left. }
  destruct H3 as [rows3 ->]. simpl.
  unfold flattenItems. destruct (s_items resolved) as [i|] eqn:Eit; [|by eexists].
  destruct (String.eqb _ _); [|by eexists].
  apply Hself. rewrite !elem_of_app. right; right; left. by left.
Qed.

(** What holds of the properties and the map value of every branch, and of
    the schemas below the node itself, holds of the schemas below the node
    after the [allOf] merge. *)
Lemma merged_children_of (rootSpec : registry) (good : schema -> Prop) resolved :
  (forall c, c ∈ children resolved -> good c) ->
  (forall bs br c, s_allOf resolved = Some bs -> br ∈ bs ->
                   c ∈ children (resolveSchema br rootSpec) -> good c) ->
  forall c, c ∈ children (mergeAllOf rootSpec resolved) -> good c.
Proof.
  intros Hown Hbranch. unfold mergeAllOf.
  destruct (s_allOf resolved) as [bs|] eqn:Hall; [|exact Hown].
  specialize (Hbranch bs).
  assert (Hmerged : forall l,
            (forall br, br ∈ l -> br ∈ bs) ->
            forall m,
              ((forall kv, kv ∈ m_properties m -> good (snd kv))
               /\ (forall a, m_additionalProperties m = Some (AddlSchema a) -> good a)) ->
              (forall kv, kv ∈ m_properties (fold_left (mergeBranch rootSpec) l m) ->
                          good (snd kv))
              /\ (forall a, m_additionalProperties (fold_left (mergeBranch rootSpec) l m)
                             = Some (AddlSchema a) -> good a)).
  { induction l as [|br l IHl]; intros Hsub m Hm; [exact Hm|]. simpl.
    apply IHl; [intros br' Hin; apply Hsub; by right|].
    destruct Hm as [Hp Ha].
    pose proof (fun c => Hbranch br c eq_refl (Hsub br ltac:(by left))) as Hc.
    unfold children in Hc. unfold mergeBranch. simpl. split.
    - destruct (s_properties (resolveSchema br rootSpec)) as [ps|]; [|exact Hp].
      apply (objAssign_values good); [|exact Hp].
      intros kv Hkv. apply Hc. rewrite !elem_of_app. left. simpl.
      apply list_elem_of_fmap. eauto.
    - intros a. destruct (addlTruthy _) eqn:Et; [|apply Ha].
      intros Heq. apply Hc. rewrite Heq, !elem_of_app. right; left. by left. }
  destruct (Hmerged bs (fun _ H => H) (Merged [] [] None)) as [Hp Ha].
  { split; [intros kv Hkv; by apply elem_of_nil in Hkv|discriminate]. }
  fold (mergeBranches rootSpec bs) in Hp, Ha.
  intros c. unfold children. simpl. rewrite !elem_of_app.
  intros [H|[H|[H|[H|H]]]].
  - apply list_elem_of_fmap in H as [kv [-> Hkv]]. by apply Hp.
  - destruct (m_additionalProperties (mergeBranches rootSpec bs)) as [[?|a]|] eqn:Em.
    + by apply elem_of_nil in H.
    + apply list_elem_of_singleton in H as ->. by apply Ha.
    + apply Hown. unfold children. rewrite !elem_of_app. right; left. exact H.
  - apply Hown. unfold children. rewrite !elem_of_app. right; right; left. exact H.
  - apply Hown. unfold children. rewrite !elem_of_app. right; right; right. by left.
  - apply Hown. unfold children. rewrite !elem_of_app. right; right; right. by right.
Qed.

Section AcyclicReturns.

Variable rootSpec : registry.
Variable rank : string -> nat.
Hypothesis no_cycle : acyclic rootSpec rank.

Local Abbreviation below := (refsBelow rootSpec rank).
Local Abbreviation R := (regBound rootSpec).

(** Entering a member of what [resolveSchema] returns lowers the measure:
    the rank bound drops when a component is entered, the weight otherwise. *)
Lemma resolved_members_measure b s :
  below b s = true ->
  forall m, m ∈ members (resolveSchema s rootSpec) ->
    exists bm, below bm m = true /\ bm * S R + weight m < b * S R + weight s.
Proof.
  intros Hs m Hm.
  pose proof (proj1 (refsBelow_spec _ _ _ _) Hs) as (Hrf & Hrank & Hmem).
  pose proof (resolveSchema_resolvesTo s rootSpec) as Hres.
  destruct (resolvesTo rootSpec s) as [name|] eqn:E.
  - destruct Hres as (target & Hlook & Heq). rewrite Heq in Hm.
    specialize (Hrank name eq_refl).
    pose proof (no_cycle name target Hlook) as Htarget. simpl in Htarget.
    apply refsBelow_spec in Htarget as (_ & _ & Htm).
    assert (Hm' : m ∈ members target) by (destruct target; exact Hm).
    exists (rank name). split; [by apply Htm|].
    pose proof (members_weight m target Hm').
    pose proof (regBound_le _ _ _ Hlook). nia.
  - rewrite Hres in Hm. exists b. split; [by apply Hmem|].
    pose proof (members_weight m s Hm). lia.
Qed.

Lemma children_members c s : c ∈ children s -> c ∈ members s.
Proof. intros H. unfold members. rewrite elem_of_app. by left. Qed.

Lemma flattenSchema_acyclic_is_Some : forall fuel s b p r rows V,
  below b s = true -> S (b * S R + weight s) <= fuel ->
  is_Some (flattenSchema fuel rootSpec s p r rows V).
Proof.
  induction fuel as [|fuel IH]; intros s b p r rows V Hs Hfuel; [lia|].
  simpl. apply flattenBody_returns. intros c p' r' rows' Hc.
  assert (Hgood : exists bc, below bc c = true /\ bc * S R + weight c < b * S R + weight s).
  { revert c Hc. apply merged_children_of.
    - intros c Hc. apply (resolved_members_measure b s Hs). by apply children_members.
    - intros bs br c Hall Hbr Hc.
      destruct (resolved_members_measure b s Hs br) as (bb & Hbb & Hlt).
      { unfold members. rewrite elem_of_app, Hall. by right. }
      destruct (resolved_members_measure bb br Hbb c (children_members _ _ Hc))
        as (bc & Hbc & Hlt').
      exists bc. split; [done|lia]. }
  destruct Hgood as (bc & Hbc & Hlt).
  apply (IH c bc); [done|lia].
Qed.

End AcyclicReturns.

(** X13.  On a registry whose references form no cycle, [flattenSchema]
    returns, [allOf] included: every component refers only to components of
    lower rank, and a schema whose references stay below the rank [b]
    flattens at the depth that [b], the heaviest component and its own weight
    give, and at every greater depth, with the same rows.  The rows are the
    same whatever row the cycle guard would append: the guard is never
    reached. *)
Theorem flattenSchema_returns_without_cycles (rootSpec : registry) rank b s :
  acyclic rootSpec rank -> refsBelow rootSpec rank b s = true ->
  forall p r rows,
  exists rows',
    forall fuel, S (b * S (regBound rootSpec) + weight s) <= fuel ->
      flattenSchema fuel rootSpec s p r rows ∅ = Some rows'
      /\ forall mark, flattenSchemaWith mark fuel rootSpec s p r rows ∅ = Some rows'.
Proof.
  intros Hac Hs p r rows.
  destruct (flattenSchema_acyclic_is_Some rootSpec rank Hac
              (S (b * S (regBound rootSpec) + weight s)) s b p r rows ∅ Hs (le_n _))
    as [rows' Hrows].
  exists rows'. intros fuel Hle.
  pose proof (flattenSchema_fuel_mono rootSpec _ fuel s p r rows ∅ rows' Hle Hrows) as Hfuel.
  split; [done|]. intros mark.
  rewrite (flattenSchemaWith_unmarked rootSpec rank Hac mark recursiveRow fuel s p r rows ∅ b Hs)
    by (intros n Hn; by apply not_elem_of_empty in Hn).
  by rewrite flattenSchemaWith_recursiveRow.
Qed.

Lemma acyclic_chainReg : acyclic chainReg chainRank.
Proof.
  intros name target H. unfold chainReg in H.
  repeat (apply lookup_insert_Some in H as [[<- <-]|[_ H]]; [vm_compute; reflexivity|]).
  apply lookup_singleton_Some in H as [<- <-]. vm_compute. reflexivity.
Qed.

(** The component [C] of the chain flattens, at depth 17 and beyond. *)
Lemma flattenSchema_returns_without_cycles_witness :
  acyclic chainReg chainRank
  /\ S (3 * S (regBound chainReg) + weight (refTo "#/components/schemas/C")) = 17
  /\ exists rows',
       forall fuel,
         S (3 * S (regBound chainReg) + weight (refTo "#/components/schemas/C")) <= fuel ->
         flattenSchema fuel chainReg (refTo "#/components/schemas/C") "" false [] ∅
         = Some rows'
         /\ forall mark,
              flattenSchemaWith mark fuel chainReg (refTo "#/components/schemas/C")
                "" false [] ∅ = Some rows'.
Proof.
  split; [exact acyclic_chainReg|]. split; [vm_compute; reflexivity|].
  apply (flattenSchema_returns_without_cycles chainReg chainRank 3
           (refTo "#/components/schemas/C") acyclic_chainReg).
  vm_compute. reflexivity.
Defined.

(** ** Resolver: the last segment of a reference *)

Lemma lastSegment_app xs x : Str.lastSegment (xs ++ [x]) = x.
Proof. unfold Str.lastSegment. apply last_last. Qed.



(** ** Flattener: no line of the table twice *)

Lemma forEachRows_keeps {A} (I : list FlatSchemaRow -> Prop)
    (f : A -> list FlatSchemaRow -> option (list FlatSchemaRow)) xs :
  (forall x rows rows', I rows -> f x rows = Some rows' -> I rows') ->
  forall rows rows', I rows -> forEachRows f xs rows = Some rows' -> I rows'.
Proof.
  intros Hf. induction xs as [|x xs IH]; intros rows rows' HI; simpl.
  - by intros [= <-].
  - destruct (f x rows) as [rows1|] eqn:E; [|discriminate].
    apply IH. by apply (Hf x rows).
Qed.

Section Keeps.

Variable I : list FlatSchemaRow -> Prop.
Hypothesis keeps_node : forall resolved p r oref rows,
  I rows -> I (pushNode resolved p r oref rows).
Hypothesis keeps_any : forall p rows, I rows -> I (rows ++ [anyRow p]).
Hypothesis keeps_guard : forall name p r oref rows,
  I rows -> I (rows ++ [recursiveRow name p r oref]).

Lemma flattenSchema_keeps fuel (rootSpec : registry) : forall s p r rows V rows',
  I rows -> flattenSchema fuel rootSpec s p r rows V = Some rows' -> I rows'.
Proof.
  induction fuel as [|fuel IH]; intros s p r rows V rows' HI; [discriminate|].
  simpl. unfold flattenBody, flattenBodyWith.
  destruct (cycleAt _ V) as [name|]; [intros [= <-]; by apply keeps_guard|].
  set (V' := visit _ V). set (resolved := mergeAllOf _ _).
  destruct (forEachRows _ (polymorphic resolved) rows) as [rows1|] eqn:E1;
    [|discriminate]; simpl.
  destruct (flattenProperties _ resolved p V' _) as [rows2|] eqn:E2;
    [|discriminate]; simpl.
  destruct (flattenAdditional _ resolved p V' rows2) as [rows3|] eqn:E3;
    [|discriminate]; simpl.
  intros E4.
  assert (H1 : I rows1).
  { eapply forEachRows_keeps; [|exact HI|exact E1]. intros x a b Ha Hx. exact (IH _ _ _ _ _ _ Ha Hx). }
  assert (H2 : I rows2).
  { unfold flattenProperties in E2.
    destruct (s_properties resolved); [|injection E2 as <-; by apply keeps_node].
    eapply forEachRows_keeps; [| |exact E2]; [|by apply keeps_node].
    intros x a b Ha Hx. exact (IH _ _ _ _ _ _ Ha Hx). }
  assert (H3 : I rows3).
  { unfold flattenAdditional in E3.
    destruct (s_additionalProperties resolved) as [[[]|a]|];
      try (injection E3 as <-; first [done|by apply keeps_any]).
    exact (IH _ _ _ _ _ _ H2 E3). }
  unfold flattenItems in E4.
  destruct (s_items resolved); [|by injection E4 as <-].
  destruct (String.eqb _ _); [|by injection E4 as <-].
  exact (IH _ _ _ _ _ _ H3 E4).
Qed.

End Keeps.

Lemma noRepeats_snoc rows b :
  noRepeats rows -> (unchecked b \/ forall a, a ∈ rows -> ~ sameLine a b) ->
  noRepeats (rows ++ [b]).
Proof.
  intros Hrows Hb i j a b' Hij Hi Hj Hsame.
  destruct (decide (j < length rows)) as [Hlt|Hge].
  - rewrite lookup_app_l in Hi, Hj by lia. by apply (Hrows i j a b').
  - rewrite lookup_app_r in Hj by lia.
    destruct (j - length rows) as [|n] eqn:E; [|by destruct n].
    injection Hj as <-. destruct Hb as [Hb|Hb]; [done|].
    exfalso. apply (Hb a); [|done].
    rewrite lookup_app_l in Hi by lia. by eapply list_elem_of_lookup_2.
Qed.

Lemma noRepeats_pushNode resolved p r oref rows :
  noRepeats rows -> noRepeats (pushNode resolved p r oref rows).
Proof.
  intros Hrows. unfold pushNode. destruct (emitsRow _ _ _); [|done].
  destruct (existsb _ rows) eqn:E; [done|].
  apply noRepeats_snoc; [done|]. right. intros a Ha (Hp & Ht & Hd). simpl in *.
  assert (Hno : existsb (sameRow p (nodeType resolved) (orElse (s_description resolved) "")) rows
                = true); [|congruence].
  apply existsb_exists. exists a. split; [by apply list_elem_of_In|].
  unfold sameRow. rewrite Hp, Ht, Hd, !String.eqb_refl. reflexivity.
Qed.

(** X15.  The flattener never appends a row whose path, type and
    description are those of a row that is there already, with two
    exceptions that are pushed without the test: the row of a map with
    unconstrained values and the row of the cycle guard.  When the rows a
    call is given have no such repetition, the rows it returns have
    none. *)
Theorem flattenSchema_no_repeats fuel (rootSpec : registry) s p r rows (V : gset string) rows' :
  noRepeats rows ->
  flattenSchema fuel rootSpec s p r rows V = Some rows' ->
  noRepeats rows'.
Proof.
  apply (flattenSchema_keeps noRepeats).
  - intros. by apply noRepeats_pushNode.
  - intros q a Ha. apply noRepeats_snoc; [done|]. left. left. reflexivity.
  - intros name q r' oref a Ha. apply noRepeats_snoc; [done|]. left. right.
    exists name. reflexivity.
Qed.

Lemma noRepeats_nil : noRepeats [].
Proof. intros i j a b _ Hi. by rewrite lookup_nil in Hi. Qed.

(** Two alternatives with the same property, from the empty array. *)
Lemma flattenSchema_no_repeats_witness :
  noRepeats [] /\
  exists rows',
    flattenSchema 3 ∅
      (oneOf [propsOnly [("id", typed "string")]; propsOnly [("id", typed "string")]])
      "p" false [] ∅ = Some rows'
    /\ noRepeats rows'.
Proof.
  split; [exact noRepeats_nil|]. eexists. split; [vm_compute; reflexivity|].
  apply (flattenSchema_no_repeats 3 ∅
           (oneOf [propsOnly [("id", typed "string")]; propsOnly [("id", typed "string")]])
           "p" false [] ∅ _ noRepeats_nil).
  vm_compute. reflexivity.
Defined.

(** ** Round trip: an array property makes the reconstructor throw *)

Lemma substring_0_all s : String.substring 0 (String.length s) s = s.
Proof. induction s as [|a s IH]; simpl; [done|by rewrite IH]. Qed.

Lemma substring_split n : forall s, n <= String.length s ->
  s = String.substring 0 n s +:+ String.substring n (String.length s - n) s.
Proof.
  induction n as [|n IH]; intros s Hn.
  - rewrite Nat.sub_0_r, substring_0_all. by destruct s.
  - destruct s as [|a s]; simpl in *; [lia|]. rewrite append_cons, <- IH by lia. done.
Qed.

Lemma strlen_append s1 s2 :
  String.length (s1 +:+ s2) = String.length s1 + String.length s2.
Proof. induction s1 as [|a s1 IH]; [done|]. rewrite append_cons. simpl. by rewrite IH. Qed.

Lemma substring_app_r s1 s2 :
  String.substring (String.length s1) (String.length s2) (s1 +:+ s2) = s2.
Proof.
  induction s1 as [|a s1 IH]; [apply substring_0_all|]. by rewrite append_cons.
Qed.

Lemma substring_app_l s1 s2 : String.substring 0 (String.length s1) (s1 +:+ s2) = s1.
Proof.
  induction s1 as [|a s1 IH]; [by destruct s2|]. rewrite append_cons. simpl. by rewrite IH.
Qed.

Lemma endsWith_inv s suf :
  Str.endsWith s suf = true ->
  s = String.substring 0 (String.length s - String.length suf) s +:+ suf.
Proof.
  unfold Str.endsWith. destruct (Nat.leb_spec (String.length suf) (String.length s)); [|done].
  intros Heq%String.eqb_eq.
  rewrite (substring_split (String.length s - String.length suf) s) at 1 by lia.
  replace (String.length s - (String.length s - String.length suf))
    with (String.length suf) by lia.
  by rewrite Heq.
Qed.

Lemma endsWith_app s suf : Str.endsWith (s +:+ suf) suf = true.
Proof.
  unfold Str.endsWith. rewrite strlen_append.
  destruct (Nat.leb_spec (String.length suf) (String.length s + String.length suf)); [|lia].
  replace (String.length s + String.length suf - String.length suf)
    with (String.length s) by lia.
  rewrite substring_app_r. apply String.eqb_refl.
Qed.

Lemma dropLast2_app s : Str.dropLast2 (s +:+ "[]") = s.
Proof.
  unfold Str.dropLast2. rewrite strlen_append. simpl String.length.
  replace (String.length s + 2 - 2) with (String.length s) by lia.
  apply substring_app_l.
Qed.

Lemma split_prefix c a t :
  forallb (fun x => negb (Ascii.eqb x c)) (list_ascii_of_string a) = true ->
  Str.split c (a +:+ t)
  = match Str.split c t with h :: rest => (a +:+ h) :: rest | [] => [a] end.
Proof.
  induction a as [|x a IH]; simpl.
  - intros _. change ("" +:+ t) with t. by destruct (split_cons c t) as (h & rest & ->).
  - rewrite andb_true_iff, negb_true_iff. intros [Hx Ha].
    rewrite Hx, IH by done.
    by destruct (split_cons c t) as (h & rest & ->).
Qed.

Lemma tailLike_brackets : tailLike "[]".
Proof. right. exists "]". by right. Qed.

(** The first segment of a path at or below a property starts with its
    name. *)
Lemma split_under k' x :
  segFree k' = true -> under k' x ->
  exists u rest, Str.split "." x = (k' +:+ u) :: rest /\ tailLike u.
Proof.
  intros Hk (t & Ht & ->)%under_spec.
  rewrite (split_prefix "." k' t (segFree_no_dot _ Hk)).
  destruct Ht as [->|(r & [->| ->])].
  - exists "", []. split; [done|by left].
  - exists "", (Str.split "." r). split; [done|by left].
  - simpl. destruct (split_cons "." r) as (h & rest & ->).
    exists (String "[" h), rest. split; [done|]. right. eauto.
Qed.

Lemma cleanPartOf_elsewhere k k' u :
  segFree k = true -> segFree k' = true -> k' <> k -> tailLike u ->
  cleanPartOf (k' +:+ u) <> k.
Proof.
  intros Hk Hk' Hne Hu Heq. unfold cleanPartOf in Heq.
  destruct (Str.endsWith (k' +:+ u) "[]") eqn:E.
  - apply endsWith_inv in E. unfold Str.dropLast2 in Heq. simpl String.length in E.
    rewrite Heq in E.
    exact (Hne (segment_determined k' k u "[]" Hk' Hk Hu tailLike_brackets E)).
  - apply Hne. apply (segment_determined k' k u ""); [done..|by left|].
    by rewrite append_nil_r.
Qed.

(** A row elsewhere gives the root no property [k]. *)
Lemma walk_elsewhere row k part rest root root' :
  cleanPartOf part <> k ->
  objGet k (default [] (s_properties root)) = None ->
  walk row (part :: rest) root = Ok root' ->
  objGet k (default [] (s_properties root')) = None.
Proof.
  intros Hne Hk. rewrite walk_cons. cbv zeta.
  destruct (String.eqb (cleanPartOf part) "").
  { case_bool_decide.
    - destruct (s_items root); [|done]. destruct (walk _ _ _); [|done].
      intros [= <-]. exact Hk.
    - simpl. destruct (walk _ _ _); [|done]. by intros [= <-]. }
  destruct (_ || _).
  { destruct (addlTruthy (s_additionalProperties root)).
    - destruct (s_additionalProperties root) as [[?|v]|]; try done.
      destruct (walk _ _ _); [|done]. intros [= <-]. exact Hk.
    - simpl. destruct (walk _ _ _); [|done]. intros [= <-]. exact Hk. }
  assert (Hset : forall v,
            objGet k (objSet (cleanPartOf part) v (default [] (s_properties root))) = None).
  { intros v. rewrite objGet_objSet.
    destruct (String.eqb_spec (cleanPartOf part) k); [contradiction|done]. }
  destruct (Str.endsWith part "[]").
  - destruct (s_items _); [|done]. destruct (walk _ _ _); [|done].
    intros [= <-]. apply Hset.
  - destruct (walk _ _ _); [|done]. intros [= <-]. apply Hset.
Qed.

Lemma unflattenRows_elsewhere k : forall rows st st',
  Forall (fun row => elsewhere k (path row)) rows -> segFree k = true ->
  objGet k (default [] (s_properties (fst st))) = None ->
  Forall (elsewhere k) (snd st) ->
  unflattenRows rows st = Ok st' ->
  objGet k (default [] (s_properties (fst st'))) = None /\ Forall (elsewhere k) (snd st').
Proof.
  induction rows as [|row rows IH]; intros st st' Hrows Hk Hroot Hsk; simpl.
  { by intros [= <-]. }
  apply Forall_cons in Hrows as [Hrow Hrows].
  destruct (unflattenRow st row) as [st1|] eqn:E; [|done].
  apply IH; try done.
  - unfold unflattenRow in E.
    destruct (negb _); [by injection E as <-|].
    destruct (isSkipped _ _); [by injection E as <-|].
    destruct Hrow as (k' & Hk' & Hne & Hunder).
    destruct (split_under k' _ Hk' Hunder) as (u & rest & Hsplit & Hu).
    rewrite Hsplit in E.
    destruct (walk row _ (fst st)) as [root|] eqn:Ew; [|done].
    injection E as <-. simpl.
    eapply walk_elsewhere; [|exact Hroot|exact Ew]. by apply cleanPartOf_elsewhere.
  - unfold unflattenRow in E.
    destruct (negb _); [by injection E as <-|].
    destruct (isSkipped _ _); [by injection E as <-|].
    destruct (walk row _ (fst st)) as [root|]; [|done].
    injection E as <-. simpl. destruct (truthy (ref row)); [|done].
    apply Forall_app. split; [done|]. by apply Forall_singleton.
Qed.

Lemma not_below_elsewhere k q t :
  segFree k = true -> tailLike t -> elsewhere k q -> ~ strictlyBelow q (k +:+ t).
Proof.
  intros Hk Ht (k' & Hk' & Hne & (t' & Ht' & ->)%under_spec) Hbelow.
  assert (Hx : exists t2, tailLike t2 /\ k +:+ t = k' +:+ t2).
  { unfold strictlyBelow in Hbelow. rewrite !startsWith_spec in Hbelow.
    destruct Hbelow as [[rest H]|[rest H]]; rewrite !append_assoc in H.
    - exists (t' +:+ "." +:+ rest). split; [|done].
      destruct Ht' as [->|(r & [->| ->])]; right; eauto.
    - exists (t' +:+ "[" +:+ rest). split; [|done].
      destruct Ht' as [->|(r & [->| ->])]; right; eauto. }
  destruct Hx as (t2 & Ht2 & Heq).
  apply Hne. symmetry. exact (segment_determined k k' t t2 Hk Hk' Ht Ht2 Heq).
Qed.

(** The row of a property without a reference, then a row of its items. *)
Lemma unflattenRows_array_step k row1 row2 rest st :
  safeKey k = true -> path row1 = k -> truthy (ref row1) = false ->
  path row2 = k +:+ "[]" ->
  objGet k (default [] (s_properties (fst st))) = None ->
  Forall (elsewhere k) (snd st) ->
  unflattenRows (row1 :: row2 :: rest) st = Throw undefinedAccess.
Proof.
  intros Hsafe Hp1 Href Hp2 Hroot Hsk.
  destruct (safeKey_spec k Hsafe) as (Hne & Hfree & Hends & Hkey & Hstar).
  destruct st as [root sk]. simpl in Hroot, Hsk.
  assert (Hsplit : Str.split "." k = [k]).
  { apply split_no_sep. by apply segFree_no_dot. }
  assert (E1 : unflattenRow (root, sk) row1
               = Ok (setProperties
                       (Some (objSet k (writeLeaf false row1 freshObject)
                                (default [] (s_properties root)))) root, sk)).
  { unfold unflattenRow. rewrite Hp1. simpl fst. simpl snd.
    rewrite (proj2 (nonEmpty_true k) Hne). simpl negb.
    rewrite (isSkipped_false (elsewhere k) sk k Hsk).
    2:{ intros q Hq. rewrite <- (append_nil_r k).
        apply not_below_elsewhere; [done|by left|done]. }
    rewrite Hsplit, walk_cons. cbv zeta. unfold cleanPartOf. rewrite Hends.
    rewrite (proj2 (String.eqb_neq k "") Hne), Hkey, Hstar. simpl orb. cbv iota.
    rewrite Hroot. simpl. by rewrite Href. }
  simpl. rewrite E1.
  set (leaf := writeLeaf false row1 freshObject).
  set (root1 := setProperties _ root).
  assert (Hleaf : s_items leaf = None).
  { unfold leaf, writeLeaf. rewrite Href.
    destruct (_ && _); by destruct (_ && _). }
  assert (E2 : unflattenRow (root1, sk) row2 = Throw undefinedAccess).
  { unfold unflattenRow. rewrite Hp2. simpl fst. simpl snd.
    rewrite nonEmpty_append by done. simpl negb.
    rewrite (isSkipped_false (elsewhere k) sk _ Hsk).
    2:{ intros q Hq. apply not_below_elsewhere; [done|apply tailLike_brackets|done]. }
    rewrite (split_prefix "." k "[]" (segFree_no_dot _ Hfree)).
    change (Str.split "." "[]") with ["[]"]. cbv iota.
    rewrite walk_cons. cbv zeta. unfold cleanPartOf.
    rewrite endsWith_app, dropLast2_app.
    rewrite (proj2 (String.eqb_neq k "") Hne), Hkey, Hstar. simpl orb. cbv iota.
    unfold root1. simpl s_properties. simpl default.
    rewrite objGet_objSet, String.eqb_refl. simpl default. fold leaf. by rewrite Hleaf. }
  by rewrite E2.
Qed.

Lemma forEachRows_app {A} (f : A -> list FlatSchemaRow -> option (list FlatSchemaRow)) xs ys :
  forall rows,
    forEachRows f (xs ++ ys) rows
    = match forEachRows f xs rows with
      | Some rows1 => forEachRows f ys rows1
      | None => None
      end.
Proof.
  induction xs as [|x xs IH]; intros rows; simpl; [done|].
  destruct (f x rows); [apply IH|done].
Qed.

Lemma pushNode_free resolved p r oref rows :
  Str.nonEmpty p = true -> (forall row, row ∈ rows -> path row <> p) ->
  pushNode resolved p r oref rows = rows ++ [nodeRow resolved p r oref].
Proof.
  intros Hp Hfree. unfold pushNode, nodeRow, emitsRow. rewrite Hp. simpl.
  destruct (existsb _ rows) eqn:E; [|done].
  apply existsb_exists in E as (row & Hin%list_elem_of_In & Hsame).
  apply sameRow_spec in Hsame as [Hpath _]. destruct (Hfree row Hin Hpath).
Qed.

Lemma node_and_below_extends fuel (rootSpec : registry) resolved p r oref V rows1 rows' :
  Str.nonEmpty p = true ->
  descend (flattenSchema fuel rootSpec) resolved p V (pushNode resolved p r oref rows1)
  = Some rows' ->
  exists added, rows' = rows1 ++ added.
Proof.
  intros Hp E.
  destruct (pushNode_grows resolved p r oref rows1) as (a1 & Ha1 & _).
  destruct (descend_grows (flattenSchema fuel rootSpec) (flattenSchema_grows fuel rootSpec)
              resolved p V _ _ Hp E) as (a2 & -> & _).
  exists (a1 ++ a2). by rewrite Ha1, app_assoc.
Qed.

(** A call at a path that holds no row yet appends a row at that path
    before any other. *)
Lemma flattenSchema_first_row fuel (rootSpec : registry) : forall s p r rows V rows',
  Str.nonEmpty p = true -> (forall row, row ∈ rows -> path row <> p) ->
  flattenSchema fuel rootSpec s p r rows V = Some rows' ->
  exists row more, rows' = rows ++ row :: more /\ path row = p.
Proof.
  induction fuel as [|fuel IH]; intros s p r rows V rows' Hp Hfree; [discriminate|].
  simpl. unfold flattenBody, flattenBodyWith.
  destruct (cycleAt _ V) as [name|].
  { intros [= <-]. by exists (recursiveRow name p r (s_ref s)), []. }
  set (V' := visit _ V). set (resolved := mergeAllOf _ _).
  destruct (polymorphic resolved) as [|alt alts] eqn:Epoly.
  - cbn [forEachRows mbind option_bind]. rewrite pushNode_free by done. intros E.
    change (descend (flattenSchema fuel rootSpec) resolved p V'
              (rows ++ [nodeRow resolved p r (s_ref s)]) = Some rows') in E.
    destruct (descend_grows (flattenSchema fuel rootSpec) (flattenSchema_grows fuel rootSpec)
                resolved p V' _ _ Hp E) as (more & -> & _).
    exists (nodeRow resolved p r (s_ref s)), more. split; [by rewrite <- app_assoc|done].
  - cbn [forEachRows].
    destruct (flattenSchema fuel rootSpec alt p r rows V') as [rows0|] eqn:E0; [|done].
    destruct (IH _ _ _ _ _ _ Hp Hfree E0) as (row & more & -> & Hrow).
    destruct (forEachRows _ alts _) as [rows1|] eqn:E1; [|done]. intros E.
    change (descend (flattenSchema fuel rootSpec) resolved p V'
              (pushNode resolved p r (s_ref s) rows1) = Some rows') in E.
    destruct (forEachRows_grows (under p) _ alts
                (fun x a b _ Hx => flattenSchema_grows fuel rootSpec _ _ _ _ _ _ Hp Hx)
                _ _ E1) as (a1 & -> & _).
    destruct (node_and_below_extends fuel rootSpec resolved p r _ V' _ _ Hp E) as (a2 & ->).
    exists row, (more ++ a1 ++ a2). split; [|done].
    by rewrite <- !app_assoc.
Qed.

Lemma inlineArray_spec arr :
  inlineArray arr = true ->
  truthy (s_ref arr) = false /\ s_type arr = Some "array"
  /\ (exists i, s_items arr = Some i) /\ s_properties arr = None
  /\ addlTruthy (s_additionalProperties arr) = false
  /\ s_allOf arr = None /\ s_oneOf arr = None /\ s_anyOf arr = None.
Proof.
  unfold inlineArray. rewrite !andb_true_iff, !negb_true_iff, bool_decide_eq_true.
  intros (((((((H1 & H2) & H3) & H4) & H5) & H6) & H7) & H8).
  repeat split; try done.
  - destruct (s_items arr); [by eexists|done].
  - by destruct (s_properties arr).
  - by destruct (s_allOf arr).
  - by destruct (s_oneOf arr).
  - by destruct (s_anyOf arr).
Qed.

(** The rows of an object with an array property: rows elsewhere, the row
    of the property, a row of its items, and the rest. *)
Lemma flattenSchema_array_rows (rootSpec : registry) fuel req props1 k arr props2 rows :
  Forall (fun kp => safeKey (fst kp) = true) props1 -> k ∉ props1.*1 ->
  safeKey k = true -> inlineArray arr = true ->
  flattenSchema fuel rootSpec (object req (props1 ++ (k, arr) :: props2)) "" false [] ∅
  = Some rows ->
  exists before row1 row2 rest,
    rows = before ++ row1 :: row2 :: rest
    /\ Forall (fun row => elsewhere k (path row)) before
    /\ path row1 = k /\ truthy (ref row1) = false /\ path row2 = k +:+ "[]".
Proof.
  intros Hprops Hnew Hsafe Harr.
  destruct (safeKey_spec k Hsafe) as (Hne & Hfree & _).
  destruct (inlineArray_spec arr Harr)
    as (Href & Hty & (i & Hit) & Hps & Had & Hall & Hone & Hany).
  destruct fuel as [|fuel]; [discriminate|]. simpl.
  rewrite flattenBody_descend by (done || apply cycleAt_empty).
  unfold descend, flattenProperties, flattenAdditional, flattenItems.
  cbn [resolveSchema mergeAllOf object s_ref s_allOf s_properties s_additionalProperties
       s_items s_required visit s_resolvedFrom pushNode nodeType orElse s_type emitsRow
       Str.nonEmpty String.eqb truthy negb andb orb mbind option_bind].
  change (pushNode (object req (props1 ++ (k, arr) :: props2)) "" false None [])
    with (@nil FlatSchemaRow).
  rewrite forEachRows_app.
  destruct (forEachRows _ props1 []) as [before|] eqn:E1; [|done].
  cbn [forEachRows fst snd].
  destruct (flattenSchema fuel rootSpec arr (childPathOf "" k) _ before ∅) as [rowsk|] eqn:E2;
    [|done].
  destruct (forEachRows _ props2 rowsk) as [rows3|] eqn:E3; [|done].
  intros [= <-].
  assert (Hbefore : Forall (fun row => elsewhere k (path row)) before).
  { assert (Hg : grows (fun x => elsewhere k x) [] before);
      [|by destruct Hg as (added & -> & Hg)].
    eapply forEachRows_grows; [|exact E1].
    intros kp a b Hkp Hx. cbv beta in Hx.
    rewrite Forall_forall in Hprops. specialize (Hprops kp Hkp).
    destruct (safeKey_spec _ Hprops) as (Hne' & Hfree' & _).
    apply (grows_weaken (under (fst kp))).
    { intros x Hx'. exists (fst kp). split; [done|]. split; [|done].
      intros Heq. apply Hnew. rewrite <- Heq. apply list_elem_of_fmap. by exists kp. }
    eapply flattenSchema_grows; [|exact Hx]. by apply nonEmpty_true. }
  change (childPathOf "" k) with k in E2.
  assert (Hk : Str.nonEmpty k = true) by (by apply nonEmpty_true).
  assert (Hnot : forall row, row ∈ before -> path row <> k).
  { intros row Hrow Heq. rewrite Forall_forall in Hbefore.
    destruct (Hbefore row Hrow) as (k' & Hk' & Hne' & (t & Ht & Hx)%under_spec).
    apply Hne'. symmetry. apply (segment_determined k k' "" t); [done..|by left|done|].
    by rewrite append_nil_r, <- Heq. }
  destruct fuel as [|fuel]; [discriminate|]. simpl in E2.
  rewrite flattenBody_descend in E2.
  2:{ apply cycleAt_empty. }
  2:{ rewrite resolveSchema_plain by done. unfold polymorphic. by rewrite Hone, Hany. }
  rewrite resolveSchema_plain in E2 by done.
  unfold mergeAllOf in E2. rewrite Hall in E2.
  rewrite pushNode_free in E2 by done.
  unfold descend, flattenProperties, flattenAdditional, flattenItems in E2.
  assert (Hnode : nodeType arr = "array").
  { unfold nodeType. by rewrite Hty. }
  rewrite Hps, Hit, Hnode in E2.
  set (rowk := nodeRow arr k _ (s_ref arr)) in E2.
  assert (Hitems : flattenSchema fuel rootSpec i (k +:+ "[]") false (before ++ [rowk])
                     (visit arr ∅) = Some rowsk).
  { destruct (s_additionalProperties arr) as [[[]|?]|]; try discriminate Had; exact E2. }
  clear E2.
  assert (Hfree2 : forall row, row ∈ before ++ [rowk] -> path row <> k +:+ "[]").
  { intros row [Hin| ->%list_elem_of_singleton]%elem_of_app Heq.
    - rewrite Forall_forall in Hbefore.
      destruct (Hbefore row Hin) as (k' & Hk' & Hne' & (t & Ht & Hx)%under_spec).
      apply Hne'. symmetry.
      apply (segment_determined k k' "[]" t); [done|done|apply tailLike_brackets|done|].
      by rewrite <- Heq.
    - simpl in Heq. rewrite <- (append_nil_r k) in Heq at 1.
      by apply append_inv_head in Heq. }
  destruct (flattenSchema_first_row _ _ _ _ _ _ _ _
              (nonEmpty_append k "[]" eq_refl) Hfree2 Hitems)
    as (row2 & more & -> & Hrow2).
  assert (Hext : exists added, rows3 = ((before ++ [rowk]) ++ row2 :: more) ++ added).
  { eapply (forEachRows_keeps
              (fun rows' => exists added,
                 rows' = ((before ++ [rowk]) ++ row2 :: more) ++ added));
      [|by exists []; rewrite app_nil_r|exact E3].
    intros kp a b (a1 & ->) Hx. cbv beta in Hx.
    apply flattenSchema_extends in Hx as (a2 & ->).
    exists (a1 ++ a2). by rewrite app_assoc. }
  destruct Hext as (added & ->).
  exists before, rowk, row2, (more ++ added).
  split; [by rewrite <- !app_assoc|]. split; [done|]. split; [done|]. split; [exact Href|done].
Qed.

Lemma Forall2_paths (P : string -> Prop) table rows :
  Forall2 (fun a b => path a = path b /\ ref a = ref b) table rows ->
  Forall (fun row => P (path row)) rows -> Forall (fun row => P (path row)) table.
Proof.
  induction 1 as [|a b table rows [Hp _] _ IH]; [done|].
  intros [Hb Hrows]%Forall_cons. constructor; [by rewrite Hp|by apply IH].
Qed.

(** X16.  An object with a property that is an array written in place
    does not go round.  The flattener returns the row of the property and
    then a row of its items; the reconstructor creates the property from the
    first, without [items], and throws on the second, which reads them.  The
    properties before the array have safe names other than its own, those
    after it are free, and the same holds of any rows with the same paths and
    references, whatever their types and descriptions. *)
Theorem roundTrip_array_property_throws (rootSpec : registry) fuel req props1 k arr props2
    rows table :
  Forall (fun kp => safeKey (fst kp) = true) props1 -> k ∉ props1.*1 ->
  safeKey k = true -> inlineArray arr = true ->
  flattenSchema fuel rootSpec (object req (props1 ++ (k, arr) :: props2)) "" false [] ∅
  = Some rows ->
  Forall2 (fun a b => path a = path b /\ ref a = ref b) table rows ->
  exists e, unflattenSchema table = Throw e.
Proof.
  intros Hprops Hnew Hsafe Harr Hrows Htable.
  destruct (flattenSchema_array_rows rootSpec fuel req props1 k arr props2 rows
              Hprops Hnew Hsafe Harr Hrows)
    as (before & row1 & row2 & rest & -> & Hbefore & Hp1 & Href & Hp2).
  apply Forall2_app_inv_r in Htable as (tb & tail & Htb & Htail & ->).
  apply Forall2_cons_inv_r in Htail as (t1 & tail1 & [Hq1 Hr1] & Htail & ->).
  apply Forall2_cons_inv_r in Htail as (t2 & trest & [Hq2 _] & _ & ->).
  unfold unflattenSchema. rewrite unflattenRows_app.
  destruct (unflattenRows tb (freshObject, [])) as [st|e] eqn:E; [|by exists e].
  destruct (safeKey_spec k Hsafe) as (_ & Hfree & _).
  destruct (unflattenRows_elsewhere k tb (freshObject, []) st
              (Forall2_paths _ _ _ Htb Hbefore) Hfree eq_refl (Forall_nil_2 _) E)
    as [Hroot Hsk].
  rewrite (unflattenRows_array_step k t1 t2 trest st Hsafe); try done.
  - by exists undefinedAccess.
  - by rewrite Hq1.
  - by rewrite Hr1.
  - by rewrite Hq2.
Qed.

(** The end-to-end example, with the descriptions changed. *)
Lemma roundTrip_array_property_throws_witness :
  exists e, unflattenSchema endToEndTable = Throw e.
Proof.
  apply (roundTrip_array_property_throws ∅ 3 (Some ["id"]) [("id", typed "integer")]
           "tags" (array (typed "string")) [] endToEndRows endToEndTable).
  - repeat constructor.
  - vm_compute. intros H. by repeat (apply elem_of_cons in H as [H|H]; [discriminate|]);
      apply elem_of_nil in H.
  - reflexivity.
  - reflexivity.
  - vm_compute. reflexivity.
  - repeat constructor.
Defined.


(** ** Flattener: what is read of an [allOf] branch *)

Lemma mergeBranch_sameBranch (rootSpec : registry) m b b' :
  sameBranch rootSpec b b' -> mergeBranch rootSpec m b = mergeBranch rootSpec m b'.
Proof. intros (Hp & Hr & Ha). unfold mergeBranch. by rewrite Hp, Hr, Ha. Qed.

Lemma mergeBranches_sameBranch (rootSpec : registry) bs bs' :
  Forall2 (sameBranch rootSpec) bs bs' ->
  mergeBranches rootSpec bs = mergeBranches rootSpec bs'.
Proof.
  unfold mergeBranches. generalize (Merged [] [] None).
  intros m H. revert m. induction H as [|b b' bs bs' Hb _ IH]; intros m; simpl; [done|].
  by rewrite (mergeBranch_sameBranch rootSpec m b b' Hb), IH.
Qed.

(** X17.  Of a branch of [allOf] the flattener reads the [properties],
    the [required] list and the [additionalProperties] of what the branch
    resolves to, and nothing else: two lists of branches that agree in these
    give the same rows.  A branch's own [allOf], [oneOf], [anyOf], [items],
    [type] and [description] are ignored. *)
Theorem flattenSchema_allOf_branches fuel (rootSpec : registry) s bs bs' p r rows
    (V : gset string) :
  Forall2 (sameBranch rootSpec) bs bs' ->
  flattenSchema fuel rootSpec (withAllOf bs s) p r rows V
  = flattenSchema fuel rootSpec (withAllOf bs' s) p r rows V.
Proof.
  intros Hbs. destruct fuel as [|fuel]; [done|]. simpl.
  unfold flattenBody, flattenBodyWith.
  assert (Hres : (resolveSchema (withAllOf bs s) rootSpec
                  = resolveSchema (withAllOf bs' s) rootSpec)
                 \/ (resolveSchema (withAllOf bs s) rootSpec = withAllOf bs s
                     /\ resolveSchema (withAllOf bs' s) rootSpec = withAllOf bs' s)).
  { unfold resolveSchema. simpl. destruct (s_ref s) as [rf|]; [|by right].
    destruct (Str.nonEmpty rf); [|by right].
    destruct (rootSpec !! _); [by left|by right]. }
  destruct Hres as [->|[-> ->]]; [done|].
  unfold mergeAllOf. simpl s_allOf. cbv iota.
  rewrite (mergeBranches_sameBranch rootSpec bs bs' Hbs).
  reflexivity.
Qed.

(** A branch that is itself an [allOf] counts as an empty one. *)
Lemma flattenSchema_allOf_branches_witness :
  flattenSchema 3 ∅ (withAllOf [allOf [propsOnly [("x", typed "string")]]] emptySchema)
    "" false [] ∅
  = flattenSchema 3 ∅ (withAllOf [emptySchema] emptySchema) "" false [] ∅.
Proof.
  apply (flattenSchema_allOf_branches 3 ∅ emptySchema
           [allOf [propsOnly [("x", typed "string")]]] [emptySchema] "" false [] ∅).
  repeat constructor.
Defined.

(** ** Flattener: no child of a node without a row *)

Lemma flattenSchema_row_at fuel (rootSpec : registry) s p r rows V rows' :
  Str.nonEmpty p = true ->
  flattenSchema fuel rootSpec s p r rows V = Some rows' ->
  exists row, row ∈ rows' /\ path row = p.
Proof.
  intros Hp E.
  destruct (decide (Exists (fun row => path row = p) rows)) as [Hex|Hno].
  - apply Exists_exists in Hex as (row & Hin & Hrow).
    apply flattenSchema_extends in E as (added & ->).
    exists row. split; [|done]. apply elem_of_app. by left.
  - destruct (flattenSchema_first_row fuel rootSpec s p r rows V rows' Hp) as
      (row & more & -> & Hrow); [|done|].
    + intros row Hin Heq. apply Hno. apply Exists_exists. eauto.
    + exists row. split; [|done]. apply elem_of_app. right. by left.
Qed.

Lemma forEachRows_row_at {A} fuel (rootSpec : registry)
    (g : A -> schema * string * bool * gset string) xs x :
  x ∈ xs -> Str.nonEmpty (g x).1.1.2 = true ->
  forall rows rows',
    forEachRows
      (fun x acc => flattenSchema fuel rootSpec (g x).1.1.1 (g x).1.1.2 (g x).1.2 acc (g x).2)
      xs rows = Some rows' ->
    exists row, row ∈ rows' /\ path row = (g x).1.1.2.
Proof.
  intros Hx Hp. induction xs as [|y xs IH]; intros rows rows'; simpl.
  { by apply elem_of_nil in Hx. }
  destruct (flattenSchema fuel _ _ _ _ rows _) as [acc|] eqn:E; [|discriminate].
  intros H. apply elem_of_cons in Hx as [<-|Hx]; [|by apply (IH Hx acc)].
  destruct (flattenSchema_row_at _ _ _ _ _ _ _ _ Hp E) as (row & Hin & Hrow).
  apply forEachRows_extends in H as (added & ->).
  exists row. split; [|done]. apply elem_of_app. by left.
Qed.

(** X18.  No child of a node is left without a row.  The rows a call
    returns hold a row at its path, when that path is not empty.  When the
    cycle guard does not stop the call, they hold a row at the path of every
    property that the node has after the [allOf] merge, a row at the path of
    the map values when [additionalProperties] is truthy, and a row at the
    path of the items when the type is [array]. *)
Theorem flattenSchema_no_child_dropped fuel (rootSpec : registry) s p r rows
    (V : gset string) rows' :
  flattenSchema fuel rootSpec s p r rows V = Some rows' ->
  (Str.nonEmpty p = true -> exists row, row ∈ rows' /\ path row = p)
  /\ (cycleAt (resolveSchema s rootSpec) V = None ->
      let resolved := mergeAllOf rootSpec (resolveSchema s rootSpec) in
      (forall k sub,
          (k, sub) ∈ default [] (s_properties resolved) ->
          Str.nonEmpty (childPathOf p k) = true ->
          exists row, row ∈ rows' /\ path row = childPathOf p k)
      /\ (addlTruthy (s_additionalProperties resolved) = true ->
          exists row, row ∈ rows' /\ path row = childPathOf p "<key>")
      /\ (forall items,
            s_items resolved = Some items -> nodeType resolved = "array" ->
            exists row, row ∈ rows' /\ path row = p +:+ "[]")).
Proof.
  intros E. split.
  { intros Hp. exact (flattenSchema_row_at fuel rootSpec s p r rows V rows' Hp E). }
  intros Hc resolved. destruct fuel as [|fuel]; [discriminate|].
  simpl in E. unfold flattenBody, flattenBodyWith in E. rewrite Hc in E.
  fold resolved in E. set (V' := visit _ V) in E.
  destruct (forEachRows _ (polymorphic resolved) rows) as [rows1|] eqn:E1;
    [|discriminate]; simpl in E.
  destruct (flattenProperties _ resolved p V' _) as [rows2|] eqn:E2;
    [|discriminate]; simpl in E.
  destruct (flattenAdditional _ resolved p V' rows2) as [rows3|] eqn:E3;
    [|discriminate]; simpl in E.
  assert (H3 : exists b, rows3 = rows2 ++ b).
  { unfold flattenAdditional in E3.
    destruct (s_additionalProperties resolved) as [[[]|v]|].
    - injection E3 as <-. eauto.
    - injection E3 as <-. exists []. by rewrite app_nil_r.
    - by apply flattenSchema_extends in E3.
    - injection E3 as <-. exists []. by rewrite app_nil_r. }
  assert (H4 : exists c, rows' = rows3 ++ c).
  { unfold flattenItems in E.
    destruct (s_items resolved); [|injection E as <-; exists []; by rewrite app_nil_r].
    destruct (String.eqb _ _); [|injection E as <-; exists []; by rewrite app_nil_r].
    by apply flattenSchema_extends in E. }
  destruct H3 as [b Hb], H4 as [c Hc'].
  split; [|split].
  - intros k sub Hk Hp. unfold flattenProperties in E2.
    destruct (s_properties resolved) as [ps|]; [|by apply elem_of_nil in Hk].
    simpl in Hk.
    destruct (forEachRows_row_at fuel rootSpec
                (fun kp => (snd kp, childPathOf p (fst kp),
                            existsb (String.eqb (fst kp)) (default [] (s_required resolved)), V'))
                ps (k, sub) Hk Hp _ _ E2) as (row & Hin & Hrow).
    exists row. split; [|done]. rewrite Hc', Hb, !elem_of_app. auto.
  - intros Had. unfold flattenAdditional in E3.
    destruct (s_additionalProperties resolved) as [[[]|v]|]; try discriminate Had.
    + injection E3 as <-. exists (anyRow (childPathOf p "<key>")).
      split; [|done]. rewrite Hc', !elem_of_app. left. right. by left.
    + destruct (flattenSchema_row_at _ _ _ _ _ _ _ _
                  (childPathOf_nonEmpty p "<key>" ltac:(discriminate)) E3)
        as (row & Hin & Hrow).
      exists row. split; [|done]. rewrite Hc', !elem_of_app. auto.
  - intros items Hit Hty. unfold flattenItems in E. rewrite Hit, Hty in E. simpl in E.
    exact (flattenSchema_row_at _ _ _ _ _ _ _ _ (nonEmpty_append p "[]" eq_refl) E).
Qed.

(** The map of strings of the profile, at the path [labels]: a row for the
    node and a row for its values. *)
Lemma flattenSchema_no_child_dropped_witness :
  flattenSchema 2 leafReg stringMap "labels" false [] ∅
  = Some [plainRow "labels" "object"; plainRow "labels.<key>" "string"]
  /\ (exists row,
        row ∈ [plainRow "labels" "object"; plainRow "labels.<key>" "string"]
        /\ path row = "labels")
  /\ exists row,
       row ∈ [plainRow "labels" "object"; plainRow "labels.<key>" "string"]
       /\ path row = "labels.<key>".
Proof.
  assert (E : flattenSchema 2 leafReg stringMap "labels" false [] ∅
              = Some [plainRow "labels" "object"; plainRow "labels.<key>" "string"])
    by (vm_compute; reflexivity).
  split; [exact E|].
  destruct (flattenSchema_no_child_dropped 2 leafReg stringMap "labels" false [] ∅ _ E)
    as [Hnode Hbelow].
  split; [exact (Hnode eq_refl)|].
  exact (proj1 (proj2 (Hbelow eq_refl)) eq_refl).
Defined.
